(** * pinterest-mcp-server: argument normalizer, result sanitizer, dispatcher

    A shallow embedding of [src/pinterest-mcp-server.ts] and the
    properties its specification states about it.

    JavaScript strings are sequences of UTF-16 code units, so a string is
    a [list N] here; the built-ins the server calls ([trim], [parseInt],
    [String], [Boolean], [JSON.parse], the regular expressions) are
    modelled in [Module JS] after ECMAScript. *)

From Stdlib Require Import String DecimalString.
From Stdlib Require DecimalPos.
From Stdlib Require Import List ZArith NArith Bool Ascii Lia.
Import ListNotations.

#[local] Set Warnings "-register-all".

(* ================================================================== *)
(** * Part I: definitions                                              *)
(* ================================================================== *)

Module JS.

(** ** Strings *)

Definition char := N.
Definition str := list char.

Definition ch (a : ascii) : char := N_of_ascii a.

Fixpoint lit (s : String.string) : str :=
  match s with
  | String.EmptyString => []
  | String.String a r => ch a :: lit r
  end.

(** The double quote cannot be written inside a literal, it is code
    unit 34. *)
Definition dquote : char := 34%N.

Fixpoint str_eqb (a b : str) : bool :=
  match a, b with
  | [], [] => true
  | x :: a', y :: b' => N.eqb x y && str_eqb a' b'
  | _, _ => false
  end.

Fixpoint starts_with (s p : str) : bool :=
  match p, s with
  | [], _ => true
  | y :: p', x :: s' => N.eqb x y && starts_with s' p'
  | _ :: _, [] => false
  end.

(** [String.prototype.includes] *)
Fixpoint includes (s p : str) : bool :=
  starts_with s p ||
  match s with
  | [] => false
  | _ :: s' => includes s' p
  end.

Fixpoint take_while (f : char -> bool) (s : str) : str :=
  match s with
  | [] => []
  | c :: r => if f c then c :: take_while f r else []
  end.

Fixpoint drop_while (f : char -> bool) (s : str) : str :=
  match s with
  | [] => []
  | c :: r => if f c then drop_while f r else s
  end.

(** Character classes of the regular expressions: [\d] is [0-9]. *)
Definition is_digit (c : char) : bool := (48 <=? c)%N && (c <=? 57)%N.

(** ** Regular expressions

    Every expression of the server is deterministic: its repeated classes
    are followed by a character outside the class, so the greedy choice is
    the only one that can succeed.  An expression is therefore embedded as
    its anchored matcher, a function from the text at a position to the
    match result and the text after the match. *)

(** Leftmost match, as [RegExp.prototype.exec] finds it: the text before
    the match, the match result, the text after the match. *)
Fixpoint regex_exec {A : Type} (at_pos : str -> option (A * str)) (s : str)
  : option (str * A * str) :=
  match at_pos s with
  | Some (a, post) => Some ([], a, post)
  | None =>
      match s with
      | [] => None
      | c :: t =>
          match regex_exec at_pos t with
          | Some (pre, a, post) => Some (c :: pre, a, post)
          | None => None
          end
      end
  end.

(** [/\/\d+x\d*\//] at a position: the matched segment and the rest. *)
Definition thumb_at (s : str) : option (str * str) :=
  match s with
  | c :: r =>
      if (c =? ch "/")%N then
        let w := take_while is_digit r in
        match w, drop_while is_digit r with
        | _ :: _, x :: r2 =>
            if (x =? ch "x")%N then
              let h := take_while is_digit r2 in
              match drop_while is_digit r2 with
              | c' :: r4 =>
                  if (c' =? ch "/")%N
                  then Some (ch "/" :: w ++ ch "x" :: h ++ [ch "/"], r4)
                  else None
              | [] => None
              end
            else None
        | _, _ => None
        end
      else None
  | [] => None
  end.

(** [\s], and the characters [trim] and [parseInt] strip: ECMAScript
    WhiteSpace and LineTerminator. *)
Definition is_space (c : char) : bool :=
  ((9 <=? c) && (c <=? 13) || (c =? 32) || (c =? 160) || (c =? 5760)
   || (8192 <=? c) && (c <=? 8202) || (c =? 8232) || (c =? 8233)
   || (c =? 8239) || (c =? 8287) || (c =? 12288) || (c =? 65279))%N.

(** [\w] is [A-Za-z0-9_]. *)
Definition is_word (c : char) : bool :=
  (is_digit c || (65 <=? c) && (c <=? 90) || (97 <=? c) && (c <=? 122)
   || (c =? 95))%N.

(** The class of the three quote characters (double, backtick, single)
    in both extraction expressions. *)
Definition is_quote (c : char) : bool :=
  ((c =? dquote) || (c =? ch "`") || (c =? ch "'"))%N.

(** [String.prototype.trim] *)
Definition trim (s : str) : str :=
  rev (drop_while is_space (rev (drop_while is_space s))).

(** [s.replace(/c/g, d)] for a single character [c]. *)
Definition replace_char (c d : char) (s : str) : str :=
  map (fun x => if (x =? c)%N then d else x) s.

(** Decimal digits of a natural number, as a template literal prints
    an array length or an index. *)
Definition decimal (n : N) : str := lit (DecimalString.NilZero.string_of_uint (N.to_uint n)).

(** ** Numbers

    A number is NaN, an infinity or a finite binary64 value.
    [Finite m e] is the value [m * 2^e] in the form the format stores
    it: [2^52 <= |m| < 2^53] and [-1074 <= e <= 971], or a subnormal
    [|m| < 2^52] with [e = -1074].  [-0] is not told from [0], which no
    operation of the server separates. *)
Inductive number :=
| NaN
| Infinity (negative : bool)
| Finite (m e : Z).

Definition isNaN (n : number) : bool :=
  match n with NaN => true | _ => false end.

(** [n <= 0] *)
Definition le_zero (n : number) : bool :=
  match n with
  | NaN => false
  | Infinity negative => negative
  | Finite m _ => (m <=? 0)%Z
  end.

(** [n > 0] *)
Definition positive (n : number) : bool :=
  match n with
  | NaN => false
  | Infinity negative => negb negative
  | Finite m _ => (0 <? m)%Z
  end.

(** The value is a whole number. *)
Definition is_integer (n : number) : bool :=
  match n with
  | Finite m e => (0 <=? e)%Z || (m mod 2 ^ (- e) =? 0)%Z
  | _ => false
  end.

Definition number_eqb (x y : number) : bool :=
  match x, y with
  | NaN, NaN => true
  | Infinity a, Infinity b => Bool.eqb a b
  | Finite m e, Finite m' e' => (m =? m')%Z && (e =? e')%Z
  | _, _ => false
  end.

(** The least and the greatest exponent of a 53-bit significand. *)
Definition emin : Z := -1074.
Definition emax : Z := 971.

(** The whole part of the binary logarithm of [a / b], for positive [a]
    and [b]. *)
Definition log2_ratio (a b : Z) : Z :=
  let d := (Z.log2 a - Z.log2 b)%Z in
  if (if (0 <=? d)%Z then (b * 2 ^ d <=? a)%Z else (b <=? a * 2 ^ (- d))%Z)
  then d else (d - 1)%Z.

(** The Number value for the ratio [a / b] of a natural [a] and a
    positive [b], with the given sign: the nearest binary64 value, the
    one with the even significand of two nearest, an infinity from
    [2^1024 - 2^970] on. *)
Definition binary64 (negative : bool) (a b : Z) : number :=
  if (a =? 0)%Z then Finite 0 emin
  else
    let e := Z.max (log2_ratio a b - 52) emin in
    let num := if (0 <=? e)%Z then a else (a * 2 ^ (- e))%Z in
    let den := if (0 <=? e)%Z then (b * 2 ^ e)%Z else b in
    let q := (num / den)%Z in
    let r := (num mod den)%Z in
    let up := (den <? 2 * r)%Z || ((den =? 2 * r)%Z && Z.odd q) in
    let m := if up then (q + 1)%Z else q in
    let '(m, e) := if (m =? 2 ^ 53)%Z then (2 ^ 52, e + 1)%Z else (m, e) in
    if (emax <? e)%Z then Infinity negative
    else Finite (if negative then (- m)%Z else m) e.

(** The Number value for an integer. *)
Definition of_Z (z : Z) : number := binary64 (z <? 0)%Z (Z.abs z) 1.

(** The Number value for the decimal [m * 10^e], [m] a natural. *)
Definition decimal_value (negative : bool) (m e : Z) : number :=
  if (0 <=? e)%Z then binary64 negative (m * 10 ^ e) 1
  else binary64 negative m (10 ^ (- e)).

(** [10^p <= a / b] *)
Definition pow10_le (p a b : Z) : bool :=
  if (0 <=? p)%Z then (b * 10 ^ p <=? a)%Z else (b <=? a * 10 ^ (- p))%Z.

(** The [n] with [10^(n-1) <= a / b < 10^n], for the ratio of a binary64
    value: the estimate from the binary logarithm is off by one at
    most. *)
Definition decimal_exponent (a b : Z) : Z :=
  let est := (log2_ratio a b * 1233 / 4096)%Z in
  if pow10_le (est + 1) a b then (est + 2)%Z
  else if pow10_le est a b then (est + 1)%Z else est.

(** The digits [s] of [k] places for the positive value [x = a / b]:
    whether [s * 10^(n-k)] is read back as [x] for one of the two [s]
    next to [x * 10^(k-n)], and that [s], the nearer one of two. *)
Definition digits_at (x : number) (a b n k : Z) : Z * bool :=
  let p := (k - n)%Z in
  let num := if (0 <=? p)%Z then (a * 10 ^ p)%Z else a in
  let den := if (0 <=? p)%Z then b else (b * 10 ^ (- p))%Z in
  let lo := (num / den)%Z in
  let r := (num mod den)%Z in
  let hi := (lo + 1)%Z in
  let reads s := number_eqb (decimal_value false s (n - k)) x in
  let nearest :=
    if (2 * r <? den)%Z then lo
    else if (den <? 2 * r)%Z then hi
    else if Z.even lo then lo else hi in
  match reads lo, reads hi with
  | true, true => (nearest, true)
  | true, false => (lo, true)
  | false, true => (hi, true)
  | false, false => (nearest, false)
  end.

(** The fewest digits that are read back as [x], from [k] places on;
    seventeen places are enough for every binary64 value. *)
Fixpoint shortest (more : nat) (x : number) (a b n k : Z) : Z * Z :=
  let '(s, found) := digits_at x a b n k in
  match more with
  | O => (s, (n - k)%Z)
  | S more' => if found then (s, (n - k)%Z) else shortest more' x a b n (k + 1)%Z
  end.

Fixpoint strip_zeros (fuel : nat) (m e : Z) : Z * Z :=
  match fuel with
  | O => (m, e)
  | S fuel' =>
      if (negb (m =? 0) && (m mod 10 =? 0))%Z
      then strip_zeros fuel' (m / 10)%Z (e + 1)%Z
      else (m, e)
  end.

Definition zeros (n : Z) : str := repeat (ch "0") (Z.to_nat n).

(** The layout [Number::toString] gives the digits [m] of the positive
    decimal [m * 10^e] in radix 10. *)
Definition positive_to_string (m e : Z) : str :=
  let '(m, e) := strip_zeros (S (Z.to_nat (Z.log2 m))) m e in
  let digits := decimal (Z.to_N m) in
  let k := Z.of_nat (length digits) in
  let n := (k + e)%Z in
  if ((k <=? n) && (n <=? 21))%Z then digits ++ zeros (n - k)
  else if ((0 <? n) && (n <=? 21))%Z then
    firstn (Z.to_nat n) digits ++ ch "." :: skipn (Z.to_nat n) digits
  else if ((-6 <? n) && (n <=? 0))%Z then
    ch "0" :: ch "." :: zeros (- n) ++ digits
  else
    let exponent :=
      ch "e" :: (if (0 <? n - 1)%Z then ch "+" else ch "-")
              :: decimal (Z.to_N (Z.abs (n - 1))) in
    match digits with
    | [d] => d :: exponent
    | d :: ds => d :: ch "." :: ds ++ exponent
    | [] => exponent
    end.

(** [Number::toString] in radix 10: the fewest digits that are read
    back as the same value, the nearest to it of several. *)
Definition number_to_string (x : number) : str :=
  match x with
  | NaN => lit "NaN"
  | Infinity false => lit "Infinity"
  | Infinity true => lit "-Infinity"
  | Finite m e =>
      if (m =? 0)%Z then lit "0"
      else
        let a := if (0 <=? e)%Z then (Z.abs m * 2 ^ e)%Z else Z.abs m in
        let b := if (0 <=? e)%Z then 1%Z else (2 ^ (- e))%Z in
        let '(s, p) :=
          shortest 16 (Finite (Z.abs m) e) a b (decimal_exponent a b) 1 in
        if (m <? 0)%Z then ch "-" :: positive_to_string s p
        else positive_to_string s p
  end.

(** ** Values *)

Inductive value :=
| VUndefined
| VNull
| VBool (b : bool)
| VNum (n : number)
| VStr (s : str)
| VArr (elements : list value)
| VObj (fields : list (str * value)).

Definition fields_of := list (str * value).

Fixpoint lookup (key : str) (fields : list (str * value)) : option value :=
  match fields with
  | [] => None
  | (k, v) :: rest => if str_eqb k key then Some v else lookup key rest
  end.

(** The properties of a value under a name that is neither an index, nor
    [length], nor inherited from a prototype: those of an object; an
    array, a string or another primitive has none.  The six names the
    handler asks for are of this kind. *)
Definition properties (v : value) : list (str * value) :=
  match v with
  | VObj fields => fields
  | _ => []
  end.

(** [key in v] *)
Definition has_property (v : value) (key : str) : bool :=
  match lookup key (properties v) with Some _ => true | None => false end.

(** [v[key]] *)
Definition get (v : value) (key : str) : value :=
  match lookup key (properties v) with Some x => x | None => VUndefined end.

(** [Boolean(v)], the truthiness every [if] and [&&] tests. *)
Definition truthy (v : value) : bool :=
  match v with
  | VUndefined | VNull => false
  | VBool b => b
  | VNum NaN => false
  | VNum (Finite m _) => negb (m =? 0)%Z
  | VNum (Infinity _) => true
  | VStr [] => false
  | VStr (_ :: _) => true
  | VArr _ | VObj _ => true
  end.

(** ** Exceptions *)

Inductive exn := TypeError (message : str).

Definition message_of (e : exn) : str :=
  match e with TypeError m => m end.

Inductive completion (A : Type) :=
| Normal (a : A)
| Throw (e : exn).
Arguments Normal {A} a.
Arguments Throw {A} e.

Definition bind {A B : Type} (c : completion A) (k : A -> completion B)
  : completion B :=
  match c with
  | Normal a => k a
  | Throw e => Throw e
  end.

Notation "x <- c ;; k" := (bind c (fun x => k))
  (at level 61, c at next level, right associativity).

(** The wording of the engine's message is not fixed by the language. *)
Definition no_primitive : exn :=
  TypeError (lit "Cannot convert object to primitive value").

(** [String(v)].  An object converts through its [toString]: the
    inherited one answers [[object Object]]; an own property of that
    name, which in data is never callable, leaves no conversion and the
    call throws.  An array joins the conversions of its elements. *)
Fixpoint ToString (v : value) : completion str :=
  match v with
  | VUndefined => Normal (lit "undefined")
  | VNull => Normal (lit "null")
  | VBool true => Normal (lit "true")
  | VBool false => Normal (lit "false")
  | VNum n => Normal (number_to_string n)
  | VStr s => Normal s
  | VArr elements =>
      (fix join (l : list value) : completion str :=
         match l with
         | [] => Normal []
         | x :: rest =>
             a <- match x with
                  | VUndefined | VNull => Normal []
                  | _ => ToString x
                  end ;;
             match rest with
             | [] => Normal a
             | _ :: _ => b <- join rest ;; Normal (a ++ ch "," :: b)
             end
         end) elements
  | VObj fields =>
      match lookup (lit "toString") fields with
      | Some _ => Throw no_primitive
      | None => Normal (lit "[object Object]")
      end
  end.

(** ** parseInt *)

Definition digit_value (c : char) : option N :=
  if is_digit c then Some (c - 48)%N
  else if ((97 <=? c) && (c <=? 122))%N then Some (c - 87)%N
  else if ((65 <=? c) && (c <=? 90))%N then Some (c - 55)%N
  else None.

(** The longest prefix of digits of radix [R], as a number; [None] when
    it is empty. *)
Fixpoint parse_digits (R : N) (s : str) (acc : option N) : option N :=
  match s with
  | [] => acc
  | c :: r =>
      match digit_value c with
      | Some d =>
          if (d <? R)%N
          then parse_digits R r
                 (Some (match acc with Some a => a * R + d | None => d end)%N)
          else acc
      | None => acc
      end
  end.

(** [parseInt(s, radix)]; [radix] is [None] when the argument is left
    out.  The [0x] prefix is stripped when the radix is left out or 16.
    The result is the Number value for the integer the digits spell. *)
Definition parseInt (s : str) (radix : option N) : number :=
  let s := drop_while is_space s in
  let '(negative, s) :=
    match s with
    | c :: r => if (c =? ch "-")%N then (true, r)
                else if (c =? ch "+")%N then (false, r) else (false, s)
    | [] => (false, s)
    end in
  let R := match radix with Some r => r | None => 0%N end in
  if (negb (R =? 0) && ((R <? 2) || (36 <? R)))%N then NaN
  else
    let stripPrefix := ((R =? 0) || (R =? 16))%N in
    let R := if (R =? 0)%N then 10%N else R in
    let '(R, s) :=
      if stripPrefix && (starts_with s (lit "0x") || starts_with s (lit "0X"))
      then (16%N, skipn 2 s) else (R, s) in
    match parse_digits R s None with
    | Some n => of_Z (if negative then - Z.of_N n else Z.of_N n)
    | None => NaN
    end.

(** ** JSON.parse

    A recursive-descent reader of the JSON grammar.  [Ok v rest] is a
    value and the text after it, [Bad] a syntax error, [Fuel] a
    recursion budget that ran out, which [JSON_parse_total] excludes for
    the budget [JSON_parse] gives. *)

Inductive parsed (A : Type) :=
| Ok (a : A) (rest : str)
| Bad
| Fuel.
Arguments Ok {A} a rest.
Arguments Bad {A}.
Arguments Fuel {A}.

(** JSON white space: tab, line feed, carriage return, space. *)
Definition is_json_space (c : char) : bool :=
  ((c =? 9) || (c =? 10) || (c =? 13) || (c =? 32))%N.

Definition skip_ws (s : str) : str := drop_while is_json_space s.

Definition hex_value (c : char) : option N :=
  match digit_value c with
  | Some d => if (d <? 16)%N then Some d else None
  | None => None
  end.

(** The characters of a string literal after its opening quote, up to
    the closing quote. *)
Fixpoint parse_string (s : str) : option (str * str) :=
  match s with
  | [] => None
  | c :: r =>
      if (c =? dquote)%N then Some ([], r)
      else if (c =? ch "\")%N then
        match r with
        | [] => None
        | e :: r' =>
            let simple (x : char) :=
              match parse_string r' with
              | Some (t, rest) => Some (x :: t, rest)
              | None => None
              end in
            if (e =? dquote)%N then simple dquote
            else if (e =? ch "\")%N then simple (ch "\")
            else if (e =? ch "/")%N then simple (ch "/")
            else if (e =? ch "b")%N then simple 8%N
            else if (e =? ch "f")%N then simple 12%N
            else if (e =? ch "n")%N then simple 10%N
            else if (e =? ch "r")%N then simple 13%N
            else if (e =? ch "t")%N then simple 9%N
            else if (e =? ch "u")%N then
              match r' with
              | h1 :: h2 :: h3 :: h4 :: r'' =>
                  match hex_value h1, hex_value h2, hex_value h3, hex_value h4 with
                  | Some a, Some b, Some c, Some d =>
                      match parse_string r'' with
                      | Some (t, rest) =>
                          Some ((((a * 16 + b) * 16 + c) * 16 + d)%N :: t, rest)
                      | None => None
                      end
                  | _, _, _, _ => None
                  end
              | _ => None
              end
            else None
        end
      else if (c <? 32)%N then None
      else
        match parse_string r with
        | Some (t, rest) => Some (c :: t, rest)
        | None => None
        end
  end.

Definition digits_to_Z (ds : str) : Z :=
  fold_left (fun acc d => (acc * 10 + Z.of_N (d - 48))%Z) ds 0%Z.

(** A number literal: an optional minus sign; a zero, or a digit from 1
    to 9 and further digits; optionally a point and one or more digits;
    optionally [e] or [E], an optional sign and one or more digits. *)
Definition number_sign (s : str) : bool * str :=
  match s with
  | c :: r => if (c =? ch "-")%N then (true, r) else (false, s)
  | [] => (false, s)
  end.

Definition number_int (s : str) : option (str * str) :=
  match s with
  | c :: r =>
      if is_digit c then
        if (c =? ch "0")%N then Some ([c], r)
        else Some (take_while is_digit s, drop_while is_digit s)
      else None
  | [] => None
  end.

Definition number_frac (s : str) : option (str * str) :=
  match s with
  | p :: r =>
      if (p =? ch ".")%N then
        match take_while is_digit r with
        | [] => None
        | d :: ds => Some (d :: ds, drop_while is_digit r)
        end
      else Some ([], s)
  | [] => Some ([], s)
  end.

Definition exponent_sign (s : str) : bool * str :=
  match s with
  | g :: r => if (g =? ch "-")%N then (true, r)
              else if (g =? ch "+")%N then (false, r) else (false, s)
  | [] => (false, s)
  end.

Definition number_exp (s : str) : option (Z * str) :=
  match s with
  | x :: r =>
      if ((x =? ch "e") || (x =? ch "E"))%N then
        let '(minus, r) := exponent_sign r in
        match take_while is_digit r with
        | [] => None
        | d :: ds =>
            Some (if minus then (- digits_to_Z (d :: ds))%Z
                  else digits_to_Z (d :: ds),
                  drop_while is_digit r)
        end
      else Some (0%Z, s)
  | [] => Some (0%Z, s)
  end.

Definition parse_number (s : str) : option (number * str) :=
  let '(negative, s) := number_sign s in
  match number_int s with
  | None => None
  | Some (int, s) =>
      match number_frac s with
      | None => None
      | Some (frac, s) =>
          match number_exp s with
          | None => None
          | Some (exp, s) =>
              Some (decimal_value negative (digits_to_Z (int ++ frac))
                                  (exp - Z.of_nat (length frac))%Z, s)
          end
      end
  end.

(** A repeated name keeps its place and takes the later value. *)
Fixpoint set_field (key : str) (v : value) (fields : list (str * value))
  : list (str * value) :=
  match fields with
  | [] => [(key, v)]
  | (k, x) :: rest =>
      if str_eqb k key then (k, v) :: rest else (k, x) :: set_field key v rest
  end.

Fixpoint parse_value (fuel : nat) (s : str) : parsed value :=
  match fuel with
  | O => Fuel
  | S fuel =>
      match skip_ws s with
      | [] => Bad
      | c :: r =>
          if (c =? ch "{")%N then
            match skip_ws r with
            | c' :: r' =>
                if (c' =? ch "}")%N then Ok (VObj []) r'
                else parse_members fuel (skip_ws r) []
            | [] => Bad
            end
          else if (c =? ch "[")%N then
            match skip_ws r with
            | c' :: r' =>
                if (c' =? ch "]")%N then Ok (VArr []) r'
                else parse_elements fuel (skip_ws r) []
            | [] => Bad
            end
          else if (c =? dquote)%N then
            match parse_string r with
            | Some (t, rest) => Ok (VStr t) rest
            | None => Bad
            end
          else if starts_with (c :: r) (lit "true") then Ok (VBool true) (skipn 3 r)
          else if starts_with (c :: r) (lit "false") then Ok (VBool false) (skipn 4 r)
          else if starts_with (c :: r) (lit "null") then Ok VNull (skipn 3 r)
          else
            match parse_number (c :: r) with
            | Some (n, rest) => Ok (VNum n) rest
            | None => Bad
            end
      end
  end

with parse_elements (fuel : nat) (s : str) (acc : list value) : parsed value :=
  match fuel with
  | O => Fuel
  | S fuel =>
      match parse_value fuel s with
      | Ok v rest =>
          match skip_ws rest with
          | c :: r =>
              if (c =? ch ",")%N then parse_elements fuel r (v :: acc)
              else if (c =? ch "]")%N then Ok (VArr (rev (v :: acc))) r
              else Bad
          | [] => Bad
          end
      | Bad => Bad
      | Fuel => Fuel
      end
  end

with parse_members (fuel : nat) (s : str) (acc : list (str * value))
  : parsed value :=
  match fuel with
  | O => Fuel
  | S fuel =>
      match skip_ws s with
      | q :: r =>
          if (q =? dquote)%N then
            match parse_string r with
            | Some (key, rest) =>
                match skip_ws rest with
                | c :: r1 =>
                    if (c =? ch ":")%N then
                      match parse_value fuel r1 with
                      | Ok v rest' =>
                          match skip_ws rest' with
                          | d :: r2 =>
                              if (d =? ch ",")%N
                              then parse_members fuel r2 (set_field key v acc)
                              else if (d =? ch "}")%N
                              then Ok (VObj (set_field key v acc)) r2
                              else Bad
                          | [] => Bad
                          end
                      | Bad => Bad
                      | Fuel => Fuel
                      end
                    else Bad
                | [] => Bad
                end
            | None => Bad
            end
          else Bad
      | [] => Bad
      end
  end.

(** [JSON.parse(s)]; [None] stands for the SyntaxError it throws. *)
Definition JSON_parse (s : str) : option value :=
  match parse_value (2 * length s + 1) s with
  | Ok v rest => match skip_ws rest with [] => Some v | _ :: _ => None end
  | _ => None
  end.

(** ** The expressions of the normalizer *)

(** [s.replace(/(\w+):/g, QUOTE $1 QUOTE :)]: every maximal run of word
    characters that a colon follows is wrapped in double quotes.  [w] is
    the run read so far, last character first. *)
Fixpoint quote_keys (s : str) (w : str) : str :=
  match s with
  | [] => rev w
  | c :: r =>
      if is_word c then quote_keys r (c :: w)
      else
        match w with
        | _ :: _ =>
            if (c =? ch ":")%N
            then dquote :: rev w ++ dquote :: ch ":" :: quote_keys r []
            else rev w ++ c :: quote_keys r []
        | [] => c :: quote_keys r []
        end
  end.

(** The text starts with the lower-case ASCII word [p], in either case
    (the [i] flag folds ASCII letters only onto ASCII letters). *)
Fixpoint starts_with_ci (s p : str) : bool :=
  match p, s with
  | [], _ => true
  | y :: p', x :: s' => ((x =? y) || (x =? y - 32))%N && starts_with_ci s' p'
  | _ :: _, [] => false
  end.

(** An optional quote character. *)
Definition skip_quote (s : str) : str :=
  match s with
  | c :: r => if is_quote c then r else s
  | [] => s
  end.

(** The shared head of both expressions: an optional quote, the field
    name in either case, an optional quote, spaces, a colon or an equals
    sign, spaces. *)
Definition field_head (name : str) (s : str) : option str :=
  let s := skip_quote s in
  if starts_with_ci s name then
    let s := skip_quote (skipn (length name) s) in
    match drop_while is_space s with
    | c :: r =>
        if ((c =? ch ":") || (c =? ch "="))%N
        then Some (drop_while is_space r)
        else None
    | [] => None
    end
  else None.

(** The keyword expression at a position: the head for [keyword], a quote,
    one or more characters that are not quotes (group 1), a quote. *)
Definition keyword_at (s : str) : option (str * str) :=
  match field_head (lit "keyword") s with
  | Some (q :: r) =>
      if is_quote q then
        let not_quote c := negb (is_quote c) in
        match take_while not_quote r, drop_while not_quote r with
        | g1 :: g, _ :: rest => Some (g1 :: g, rest)
        | _, _ => None
        end
      else None
  | _ => None
  end.

(** The limit expression at a position: the head for [limit], one or
    more digits (group 1). *)
Definition limit_at (s : str) : option (str * str) :=
  match field_head (lit "limit") s with
  | Some r =>
      match take_while is_digit r with
      | d :: ds => Some (d :: ds, drop_while is_digit r)
      | [] => None
      end
  | None => None
  end.

(** [s.match(re)]: group 1 of the leftmost match. *)
Definition group1 (re : str -> option (str * str)) (s : str) : option str :=
  match regex_exec re s with
  | Some (_, g, _) => Some g
  | None => None
  end.

End JS.

Import JS.

(** ** Data model *)

(** [SearchResult], as the scraper collaborator produces it: three
    optional texts. *)
Record SearchResult := mkResult {
  title : option str;
  image_url : option str;
  link : option str
}.

(** A JavaScript value is truthy when it is present and not empty. *)
Definition truthy_text (o : option str) : bool :=
  match o with
  | Some (_ :: _) => true
  | _ => false
  end.

(** ** Result sanitizer (lines 282-308) *)

Definition thumbnailPatterns : list str :=
  [lit "/60x60/"; lit "/236x/"; lit "/474x/"; lit "/736x/"].

Definition originals : str := lit "/originals/".

(** [url.match(/\/\d+x\d*\//)] is not null *)
Definition matches_thumb (url : str) : bool :=
  match regex_exec thumb_at url with
  | Some _ => true
  | None => false
  end.

(** [url.replace(/\/\d+x\d*\//, '/originals/')]: no [g] flag, the first
    match only. *)
Definition replace_thumb (url : str) : str :=
  match regex_exec thumb_at url with
  | Some (pre, _, post) => pre ++ originals ++ post
  | None => url
  end.

Definition needsFix (url : str) : bool :=
  let needsFix := existsb (fun pattern => includes url pattern) thumbnailPatterns in
  if negb needsFix && matches_thumb url then true else needsFix.

Definition sanitize_url (url : str) : str :=
  if needsFix url then replace_thumb url else url.

(** The body of the loop: [result.image_url] is rewritten in place, the
    other fields are not touched. *)
Definition sanitize_result (result : SearchResult) : SearchResult :=
  if truthy_text (image_url result) then
    match image_url result with
    | Some url => mkResult (title result) (Some (sanitize_url url)) (link result)
    | None => result
    end
  else result.

Definition sanitize (validResults : list SearchResult) : list SearchResult :=
  map sanitize_result validResults.

(** ** Argument normalizer (lines 145-265) *)

Definition DEFAULT_SEARCH_LIMIT : number := of_Z 10.
Definition DEFAULT_SEARCH_KEYWORD : str := lit "landscape".
Definition DEFAULT_HEADLESS_MODE : bool := true.

(** [CanonicalQuery]: the three local variables of the handler. *)
Record Query := mkQuery {
  keyword : str;
  limit : number;
  headless : bool
}.

Definition backtick (name : str) : str := ch "`" :: name ++ [ch "`"].

(** Lines 150-155: a text has its backticks replaced by double quotes. *)
Definition replace_backticks (args : value) : value :=
  match args with
  | VStr s => VStr (replace_char (ch "`") dquote s)
  | _ => args
  end.

(** Lines 163-170 *)
Definition object_keyword (args : value) (keyword : str) : completion str :=
  match has_property args (lit "keyword"), get args (lit "keyword") with
  | true, VStr s => Normal (trim s)
  | _, _ =>
      if has_property args (backtick (lit "keyword")) then
        s <- ToString (get args (backtick (lit "keyword"))) ;;
        Normal (trim s)
      else Normal keyword
  end.

(** [typeof v === 'number' ? v : parseInt(String(v), 10)] *)
Definition number_or_parse (v : value) : completion number :=
  match v with
  | VNum n => Normal n
  | _ => s <- ToString v ;; Normal (parseInt s (Some 10%N))
  end.

(** [typeof v === 'number' || !isNaN(parseInt(String(v)))] *)
Definition is_numeric (v : value) : completion bool :=
  match v with
  | VNum _ => Normal true
  | _ => s <- ToString v ;; Normal (negb (isNaN (parseInt s None)))
  end.

(** Lines 172-180 *)
Definition object_limit (args : value) (limit : number) : completion number :=
  found <- (if has_property args (lit "limit")
            then is_numeric (get args (lit "limit"))
            else Normal false) ;;
  if found then number_or_parse (get args (lit "limit"))
  else if has_property args (backtick (lit "limit"))
  then number_or_parse (get args (backtick (lit "limit")))
  else Normal limit.

(** Lines 182-189 *)
Definition object_headless (args : value) (headless : bool) : bool :=
  match has_property args (lit "headless"), get args (lit "headless") with
  | true, VBool b => b
  | _, _ =>
      if has_property args (backtick (lit "headless"))
      then truthy (get args (backtick (lit "headless")))
      else headless
  end.

(** Lines 197-212: the strict parse, then the parse of the repaired text;
    [None] when the second parse throws as well. *)
Definition fixedJson (args : str) : str :=
  quote_keys (replace_char (ch "'") dquote args) [].

Definition parse_with_repair (args : str) : option value :=
  match JSON_parse args with
  | Some parsed => Some parsed
  | None => JSON_parse (fixedJson args)
  end.

(** Lines 215-234 *)
Definition parsed_fields (parsed : value) (q : Query) : Query :=
  if truthy parsed then
    let keyword :=
      match get parsed (lit "keyword") with
      | VStr s => if truthy (VStr s) then trim s else keyword q
      | _ => keyword q
      end in
    let limit :=
      match get parsed (lit "limit") with
      | VUndefined => limit q
      | VNum n => n
      | VStr s => if negb (isNaN (parseInt s None))
                  then parseInt s (Some 10%N) else limit q
      | _ => limit q
      end in
    let headless :=
      match get parsed (lit "headless") with
      | VBool b => b
      | _ => headless q
      end in
    mkQuery keyword limit headless
  else q.

(** Lines 236-250 *)
Definition regex_fields (args : str) (q : Query) : Query :=
  let keyword :=
    match group1 keyword_at args with
    | Some g => if truthy (VStr g) then trim g else keyword q
    | None => keyword q
    end in
  let limit :=
    match group1 limit_at args with
    | Some g => if truthy (VStr g) then parseInt g (Some 10%N) else limit q
    | None => limit q
    end in
  mkQuery keyword limit (headless q).

(** Lines 145-253: what the handler reads out of its argument, before the
    defaults of lines 255-265 are applied. *)
Definition extract (args : value) : completion Query :=
  let q := mkQuery [] DEFAULT_SEARCH_LIMIT DEFAULT_HEADLESS_MODE in
  let args := replace_backticks args in
  if truthy args then
    match args with
    | VObj _ | VArr _ =>
        keyword <- object_keyword args (keyword q) ;;
        limit <- object_limit args (limit q) ;;
        Normal (mkQuery keyword limit (object_headless args (headless q)))
    | VStr s =>
        match parse_with_repair s with
        | Some parsed => Normal (parsed_fields parsed q)
        | None => Normal (regex_fields s q)
        end
    | _ => Normal q
    end
  else Normal q.

(** Lines 255-265 *)
Definition apply_defaults (q : Query) : Query :=
  let keyword :=
    if negb (truthy (VStr (keyword q))) then DEFAULT_SEARCH_KEYWORD else keyword q in
  let limit :=
    if isNaN (limit q) || le_zero (limit q) then DEFAULT_SEARCH_LIMIT else limit q in
  mkQuery keyword limit (headless q).

(** The normalizer: lines 145-265 of [handlePinterestSearch]. *)
Definition normalize (args : value) : completion Query :=
  q <- extract args ;; Normal (apply_defaults q).

(** ** Output shaping (lines 310-350) *)

Record ContentItem := mkItem {
  type : str;
  text : str
}.

Definition text_item (t : str) : ContentItem := mkItem (lit "text") t.

(** [a || fallback] on an optional text *)
Definition or_else (a : option str) (fallback : str) : str :=
  match a with
  | Some (c :: r) => c :: r
  | _ => fallback
  end.

(** A template literal prints an absent text as [undefined]. *)
Definition printed (a : option str) : str :=
  match a with
  | Some s => s
  | None => lit "undefined"
  end.

Definition same_text (a b : option str) : bool :=
  match a, b with
  | Some x, Some y => str_eqb x y
  | None, None => true
  | _, _ => false
  end.

Definition summary_item (count : nat) (keyword : str) : ContentItem :=
  text_item (lit "Found " ++ decimal (N.of_nat count) ++ lit " images related to "
             ++ dquote :: keyword ++ dquote :: lit " on Pinterest").

Definition title_item (index : nat) (result : SearchResult) : ContentItem :=
  text_item (lit "Image " ++ decimal (N.of_nat (index + 1)) ++ lit ": "
             ++ or_else (title result) (lit "No title")).

Definition link_item (result : SearchResult) : ContentItem :=
  text_item (lit "Link: " ++ or_else (image_url result) (lit "No link")).

Definition page_item (result : SearchResult) : ContentItem :=
  text_item (lit "Original page: " ++ printed (link result)).

Definition separator_item : ContentItem := text_item (lit "---").

(** [result.link && result.link !== result.image_url] *)
Definition has_page (result : SearchResult) : bool :=
  truthy_text (link result) && negb (same_text (link result) (image_url result)).

(** The callback of [validResults.forEach]: what one result pushes onto
    [contentItems]. *)
Definition push_result (length : nat) (contentItems : list ContentItem)
  (index : nat) (result : SearchResult) : list ContentItem :=
  let contentItems := contentItems ++ [title_item index result] in
  let contentItems := contentItems ++ [link_item result] in
  let contentItems :=
    if has_page result then contentItems ++ [page_item result] else contentItems in
  if index <? length - 1 then contentItems ++ [separator_item] else contentItems.

(** [forEach] from position [index] on. *)
Fixpoint forEach (length : nat) (rest : list SearchResult) (index : nat)
  (contentItems : list ContentItem) : list ContentItem :=
  match rest with
  | [] => contentItems
  | result :: rest' =>
      forEach length rest' (S index) (push_result length contentItems index result)
  end.

Definition contentItems (validResults : list SearchResult) (keyword : str)
  : list ContentItem :=
  forEach (length validResults) validResults 0
          [summary_item (length validResults) keyword].

(** ** The search handler *)

(** Modelled from the spec: the scraper collaborator
    [./pinterest-scraper.js] is not among the sources.  Its [search]
    takes the three fields of the query and returns a sequence of
    results; it may fail or return something that is not a sequence. *)
Inductive search_outcome :=
| Raises
| ReturnsOther
| ReturnsArray (results : list SearchResult).

Definition Scraper := str -> number -> bool -> search_outcome.

Record ToolResponse := mkResponse {
  content : list ContentItem
}.

(** Lines 269-279: a failure or a value that is not an array counts as
    no results. *)
Definition validResults (outcome : search_outcome) : list SearchResult :=
  match outcome with
  | ReturnsArray results => results
  | Raises | ReturnsOther => []
  end.

Definition search_response (scraper : Scraper) (q : Query) : ToolResponse :=
  let results := validResults (scraper (keyword q) (limit q) (headless q)) in
  mkResponse (contentItems (sanitize results) (keyword q)).

Definition error_response (e : exn) : ToolResponse :=
  mkResponse [text_item (lit "Error during search: " ++ message_of e)].

(** [handlePinterestSearch]: the outer [try] turns whatever is thrown
    into a response of one error text. *)
Definition handlePinterestSearch (scraper : Scraper) (args : value)
  : ToolResponse :=
  match normalize args with
  | Normal q => search_response scraper q
  | Throw e => error_response e
  end.

(** ** Tool dispatcher (lines 113-137) *)

Inductive ErrorCode := MethodNotFound | InternalError.

(** The numbers the protocol library gives the two codes. *)
Definition code_number (c : ErrorCode) : str :=
  match c with
  | MethodNotFound => lit "-32601"
  | InternalError => lit "-32603"
  end.

Record McpError := mkMcpError {
  code : ErrorCode;
  message : str
}.

(** [new McpError(code, message)]: the library prefixes the message with
    the code. *)
Definition new_McpError (c : ErrorCode) (m : str) : McpError :=
  mkMcpError c (lit "MCP error " ++ code_number c ++ lit ": " ++ m).

Record CallToolRequest := mkRequest {
  name : str;
  args : value;
  arguments : value
}.

Definition ToolResult := (McpError + ToolResponse)%type.

Section Dispatcher.

Variable scraper : Scraper.

(** [handlePinterestGetImageInfo] reads the clock and prints its
    argument; it returns a response on both paths of its [try] and no
    property below depends on which. *)
Variable handlePinterestGetImageInfo : value -> ToolResponse.

(** [request.params.args || request.params.arguments] *)
Definition tool_arguments (request : CallToolRequest) : value :=
  if truthy (args request) then args request else arguments request.

(** The [switch] inside the [try]. *)
Definition dispatch (request : CallToolRequest) : ToolResult :=
  if str_eqb (name request) (lit "pinterest_search") then
    inr (handlePinterestSearch scraper (tool_arguments request))
  else if str_eqb (name request) (lit "pinterest_get_image_info") then
    inr (handlePinterestGetImageInfo (tool_arguments request))
  else
    inl (new_McpError MethodNotFound (lit "Unknown tool: " ++ name request)).

(** The request handler: the [catch] around the [switch] receives every
    error thrown in it and throws an internal error in its place. *)
Definition call_tool (request : CallToolRequest) : ToolResult :=
  match dispatch request with
  | inr response => inr response
  | inl error =>
      inl (new_McpError InternalError (lit "Tool call failed: " ++ message error))
  end.

End Dispatcher.

(** ** Vocabulary of the statements *)

(** A thumbnail segment: a slash, one or more digits, an [x], digits,
    a slash. *)
Definition thumb_segment (seg : str) : Prop :=
  exists w h,
    seg = ch "/" :: w ++ ch "x" :: h ++ [ch "/"]
    /\ w <> [] /\ Forall (fun c => is_digit c = true) w
    /\ Forall (fun c => is_digit c = true) h.

(** The address holds one of the four literal markers or a segment of
    the generic form. *)
Definition thumbnail_detected (url : str) : bool :=
  existsb (fun marker => includes url marker) thumbnailPatterns
  || matches_thumb url.

(** No thumbnail segment starts in the text [pre] before a slash. *)
Definition no_segment_before (pre : str) : bool :=
  negb (matches_thumb (pre ++ [ch "/"])).

(** The address has no thumbnail segment, or none that starts at or after
    the closing slash of its leftmost one. *)
Definition single_thumbnail (url : str) : bool :=
  match regex_exec thumb_at url with
  | None => true
  | Some (_, _, post) => negb (matches_thumb (ch "/" :: post))
  end.

Definition single_thumbnail_result (result : SearchResult) : bool :=
  match image_url result with
  | Some url => single_thumbnail url
  | None => true
  end.

(** [String(v)] returns. *)
Definition convertible (v : value) : bool :=
  match ToString v with
  | Normal _ => true
  | Throw _ => false
  end.

(** A well-formed argument: every field of a mapping has a text form, as
    every value has whose objects carry no property named [toString]. *)
Definition well_formed (args : value) : bool :=
  forallb (fun field => convertible (snd field)) (properties args).


Definition is_string (v : value) : bool :=
  match v with VStr _ => true | _ => false end.

(** What [typeof] calls an object: a mapping or an array. *)
Definition is_mapping (v : value) : bool :=
  match v with VObj _ | VArr _ => true | _ => false end.

(** A number or a boolean: neither a mapping nor a text. *)
Definition is_scalar (v : value) : bool :=
  match v with VNum _ | VBool _ => true | _ => false end.

(** The text a value holds under the plain keyword field, when it holds
    a text there. *)
Definition keyword_text (v : value) : option str :=
  match lookup (lit "keyword") (properties v) with
  | Some (VStr s) => Some s
  | _ => None
  end.

Definition is_number (v : value) : bool :=
  match v with VNum _ => true | _ => false end.

(** Not a limit the handler keeps: NaN, zero or negative. *)
Definition invalid_limit (n : number) : bool := isNaN n || le_zero n.

(** The inputs without a usable limit.  No argument, or a number or a
    boolean.  A mapping without the field under either spelling; a
    mapping whose limit is numeric and is read as NaN, zero or a
    negative number; a mapping whose limit is not numeric, with nothing
    under the backtick-wrapped field; a mapping without a numeric limit
    whose value under the backtick-wrapped field is read as NaN, zero or
    a negative number.  A text that one of the two parses accepts, the
    result being falsy, holding neither a number nor a text as its
    limit, holding a number that is NaN, zero or negative, or a text
    that is not numeric or is read as zero or a negative number.  A text
    that neither parse accepts and in which the limit expression finds
    no digits, or digits that are read as zero. *)
Inductive no_usable_limit : value -> Prop :=
| limit_raw_absent raw :
    truthy raw = false ->
    no_usable_limit raw
| limit_raw_scalar raw :
    is_scalar raw = true ->
    no_usable_limit raw
| limit_missing args :
    is_mapping args = true ->
    lookup (lit "limit") (properties args) = None ->
    lookup (backtick (lit "limit")) (properties args) = None ->
    no_usable_limit args
| limit_invalid args v n :
    is_mapping args = true ->
    lookup (lit "limit") (properties args) = Some v ->
    is_numeric v = Normal true ->
    number_or_parse v = Normal n ->
    invalid_limit n = true ->
    no_usable_limit args
| limit_not_numeric args v :
    is_mapping args = true ->
    lookup (lit "limit") (properties args) = Some v ->
    is_numeric v = Normal false ->
    lookup (backtick (lit "limit")) (properties args) = None ->
    no_usable_limit args
| backtick_limit_invalid args v n :
    is_mapping args = true ->
    lookup (lit "limit") (properties args) = None
    \/ (exists u, lookup (lit "limit") (properties args) = Some u
                  /\ is_numeric u = Normal false) ->
    lookup (backtick (lit "limit")) (properties args) = Some v ->
    number_or_parse v = Normal n ->
    invalid_limit n = true ->
    no_usable_limit args
| text_without_limit s parsed :
    parse_with_repair (replace_char (ch "`") dquote s) = Some parsed ->
    truthy parsed = false
    \/ is_number (get parsed (lit "limit"))
       || is_string (get parsed (lit "limit")) = false ->
    no_usable_limit (VStr s)
| text_limit_invalid s parsed n :
    parse_with_repair (replace_char (ch "`") dquote s) = Some parsed ->
    get parsed (lit "limit") = VNum n ->
    invalid_limit n = true ->
    no_usable_limit (VStr s)
| text_limit_not_numeric s parsed t :
    parse_with_repair (replace_char (ch "`") dquote s) = Some parsed ->
    get parsed (lit "limit") = VStr t ->
    isNaN (parseInt t None) = true ->
    no_usable_limit (VStr s)
| text_limit_text_invalid s parsed t :
    parse_with_repair (replace_char (ch "`") dquote s) = Some parsed ->
    get parsed (lit "limit") = VStr t ->
    isNaN (parseInt t None) = false ->
    invalid_limit (parseInt t (Some 10%N)) = true ->
    no_usable_limit (VStr s)
| text_no_limit s :
    JSON_parse (replace_char (ch "`") dquote s) = None ->
    JSON_parse (fixedJson (replace_char (ch "`") dquote s)) = None ->
    group1 limit_at (replace_char (ch "`") dquote s) = None ->
    no_usable_limit (VStr s)
| text_limit_zero s g :
    JSON_parse (replace_char (ch "`") dquote s) = None ->
    JSON_parse (fixedJson (replace_char (ch "`") dquote s)) = None ->
    group1 limit_at (replace_char (ch "`") dquote s) = Some g ->
    invalid_limit (parseInt g (Some 10%N)) = true ->
    no_usable_limit (VStr s).

(** The inputs without a usable keyword.  No argument: [undefined],
    [null], or another falsy value, the empty text among them.  A number
    or a boolean.  A mapping with no text under the plain keyword field
    and nothing under the backtick-wrapped one; a mapping whose keyword
    text is blank; a mapping whose value under the backtick-wrapped
    field has a blank text form.  A text that one of the two parses
    accepts, the result being falsy or holding no text as its keyword,
    or a blank one.  A text that neither parse accepts and in which the
    keyword expression finds no match, or a blank one. *)
Inductive no_usable_keyword : value -> Prop :=
| raw_absent raw :
    truthy raw = false ->
    no_usable_keyword raw
| raw_scalar raw :
    is_scalar raw = true ->
    no_usable_keyword raw
| keyword_absent args :
    is_mapping args = true ->
    keyword_text args = None ->
    lookup (backtick (lit "keyword")) (properties args) = None ->
    no_usable_keyword args
| keyword_blank args s :
    is_mapping args = true ->
    keyword_text args = Some s ->
    trim s = [] ->
    no_usable_keyword args
| backtick_keyword_blank args v s :
    is_mapping args = true ->
    keyword_text args = None ->
    lookup (backtick (lit "keyword")) (properties args) = Some v ->
    ToString v = Normal s ->
    trim s = [] ->
    no_usable_keyword args
| text_without_keyword s parsed :
    parse_with_repair (replace_char (ch "`") dquote s) = Some parsed ->
    truthy parsed = false \/ keyword_text parsed = None ->
    no_usable_keyword (VStr s)
| text_keyword_blank s parsed k :
    parse_with_repair (replace_char (ch "`") dquote s) = Some parsed ->
    keyword_text parsed = Some k ->
    trim k = [] ->
    no_usable_keyword (VStr s)
| text_unparseable s :
    JSON_parse (replace_char (ch "`") dquote s) = None ->
    JSON_parse (fixedJson (replace_char (ch "`") dquote s)) = None ->
    group1 keyword_at (replace_char (ch "`") dquote s) = None ->
    no_usable_keyword (VStr s)
| text_match_blank s g :
    JSON_parse (replace_char (ch "`") dquote s) = None ->
    JSON_parse (fixedJson (replace_char (ch "`") dquote s)) = None ->
    group1 keyword_at (replace_char (ch "`") dquote s) = Some g ->
    trim g = [] ->
    no_usable_keyword (VStr s).

(** The layout the specification gives the response: the summary, then
    for each result a title, a link, a page block where [page] asks for
    one, and a separator after every result but the last. *)
Fixpoint entries (page : SearchResult -> bool) (index : nat)
  (results : list SearchResult) : list ContentItem :=
  match results with
  | [] => []
  | result :: rest =>
      [title_item index result; link_item result]
      ++ (if page result then [page_item result] else [])
      ++ match rest with
         | [] => []
         | _ :: _ => separator_item :: entries page (S index) rest
         end
  end.

Definition layout (page : SearchResult -> bool) (results : list SearchResult)
  (keyword : str) : list ContentItem :=
  summary_item (length results) keyword :: entries page 0 results.

(** The link differs from the image address. *)
Definition link_differs (result : SearchResult) : bool :=
  negb (same_text (link result) (image_url result)).

(** The collaborator throws or returns something that is not a sequence. *)
Definition collaborator_fails (outcome : search_outcome) : bool :=
  match outcome with
  | Raises | ReturnsOther => true
  | ReturnsArray _ => false
  end.

(** The collaborator returns nothing: no value, or an empty sequence. *)
Definition returns_nothing (outcome : search_outcome) : bool :=
  match outcome with
  | ReturnsOther | ReturnsArray [] => true
  | _ => false
  end.

(** ** Proof steps for the JSON reader *)

(** Case analysis on every test and match of the hypothesis [H]. *)
Ltac split_parse H :=
  repeat match type of H with
         | context [if ?b then _ else _] => destruct b
         | context [match ?x with _ => _ end] =>
             let E := fresh "E" in destruct x eqn:E
         end;
  try discriminate.

(** Turns what the scanners returned into bounds on the lengths, with the
    three lemmas on white space, string literals and number literals. *)
Ltac lengths_by space_lemma string_lemma number_lemma :=
  repeat match goal with
         | E : skip_ws _ = _ :: _ |- _ => apply space_lemma in E
         | E : parse_string _ = Some _ |- _ => apply string_lemma in E
         | E : parse_number _ = Some _ |- _ => apply number_lemma in E
         end.

(** ** JSON.stringify

    [JSON.stringify(v, null, gap)] on data: no value is callable, so no
    [toJSON] is called and no replacer applies. *)

(** One hexadecimal digit, in lower case. *)
Definition hex_char (d : N) : char :=
  if (d <? 10)%N then (48 + d)%N else (87 + d)%N.

(** The escape [\uXXXX] of a code unit. *)
Definition unicode_escape (c : char) : str :=
  [ch "\"; ch "u"; hex_char (c / 4096); hex_char ((c / 256) mod 16);
   hex_char ((c / 16) mod 16); hex_char (c mod 16)]%N.

Definition is_high_surrogate (c : char) : bool :=
  ((55296 <=? c) && (c <=? 56319))%N.

Definition is_low_surrogate (c : char) : bool :=
  ((56320 <=? c) && (c <=? 57343))%N.

(** The characters of a quoted string, between the quotes: the two-letter
    escapes, [\uXXXX] for the other control characters and for a
    surrogate without its partner, every other character as it is. *)
Fixpoint quote_body (s : str) : str :=
  match s with
  | [] => []
  | c :: r =>
      if (c =? 8)%N then ch "\" :: ch "b" :: quote_body r
      else if (c =? 9)%N then ch "\" :: ch "t" :: quote_body r
      else if (c =? 10)%N then ch "\" :: ch "n" :: quote_body r
      else if (c =? 12)%N then ch "\" :: ch "f" :: quote_body r
      else if (c =? 13)%N then ch "\" :: ch "r" :: quote_body r
      else if (c =? dquote)%N then ch "\" :: dquote :: quote_body r
      else if (c =? ch "\")%N then ch "\" :: ch "\" :: quote_body r
      else if (c <? 32)%N then unicode_escape c ++ quote_body r
      else if is_high_surrogate c then
        match r with
        | d :: r' =>
            if is_low_surrogate d then c :: d :: quote_body r'
            else unicode_escape c ++ quote_body r
        | [] => unicode_escape c
        end
      else if is_low_surrogate c then unicode_escape c ++ quote_body r
      else c :: quote_body r
  end.

(** [QuoteJSONString] *)
Definition quote (s : str) : str := dquote :: quote_body s ++ [dquote].

(** A property name that is an array index: the canonical decimal form
    of an integer below 2^32 - 1. *)
Definition array_index (key : str) : option N :=
  match key with
  | [] => None
  | c :: r =>
      if forallb is_digit key && (negb (c =? ch "0")%N || match r with [] => true | _ => false end)
      then
        let n := Z.to_N (digits_to_Z key) in
        if (n <? 4294967295)%N then Some n else None
      else None
  end.

Section Keys.

Context {A : Type}.

(** The first binding of every name, in the order of the list. *)
Fixpoint first_bindings (seen : list str) (fields : list (str * A))
  : list (str * A) :=
  match fields with
  | [] => []
  | (k, x) :: rest =>
      if existsb (str_eqb k) seen then first_bindings seen rest
      else (k, x) :: first_bindings (k :: seen) rest
  end.

Fixpoint insert_index (n : N) (entry : str * A) (sorted : list (N * (str * A)))
  : list (N * (str * A)) :=
  match sorted with
  | [] => [(n, entry)]
  | (m, e) :: rest =>
      if (n <? m)%N then (n, entry) :: sorted
      else (m, e) :: insert_index n entry rest
  end.

Fixpoint index_entries (fields : list (str * A)) : list (N * (str * A)) :=
  match fields with
  | [] => []
  | (k, x) :: rest =>
      match array_index k with
      | Some n => insert_index n (k, x) (index_entries rest)
      | None => index_entries rest
      end
  end.

Definition named_entries (fields : list (str * A)) : list (str * A) :=
  filter (fun entry => match array_index (fst entry) with
                       | Some _ => false
                       | None => true
                       end) fields.

(** The own properties in the order an engine enumerates them: array
    indices in ascending order, then the other names in the order of
    their creation. *)
Definition enumerate (fields : list (str * A)) : list (str * A) :=
  let own := first_bindings [] fields in
  map snd (index_entries own) ++ named_entries own.

End Keys.

(** [join(separator)] *)
Fixpoint join (separator : str) (parts : list str) : str :=
  match parts with
  | [] => []
  | [p] => p
  | p :: rest => p ++ separator ++ join separator rest
  end.

(** The brackets around the serialized parts: nothing between them when
    there is no part, the parts on one line when there is no gap,
    otherwise each part on a line of its own at the new indentation. *)
Definition bracket (open close : char) (gap indent : str) (parts : list str)
  : str :=
  match parts with
  | [] => [open; close]
  | _ :: _ =>
      match gap with
      | [] => open :: join [ch ","] parts ++ [close]
      | _ :: _ =>
          let inner := indent ++ gap in
          open :: 10%N :: inner ++ join (ch "," :: 10%N :: inner) parts
               ++ 10%N :: indent ++ [close]
      end
  end.

(** [SerializeJSONProperty]; [None] is the [undefined] of a value that
    has no JSON form. *)
Fixpoint serialize (gap indent : str) (v : value) : option str :=
  match v with
  | VUndefined => None
  | VNull => Some (lit "null")
  | VBool true => Some (lit "true")
  | VBool false => Some (lit "false")
  | VNum (Finite m e) => Some (number_to_string (Finite m e))
  | VNum _ => Some (lit "null")
  | VStr s => Some (quote s)
  | VArr elements =>
      Some (bracket (ch "[") (ch "]") gap indent
              ((fix items (l : list value) : list str :=
                  match l with
                  | [] => []
                  | x :: rest =>
                      match serialize gap (indent ++ gap) x with
                      | Some t => t
                      | None => lit "null"
                      end :: items rest
                  end) elements))
  | VObj fields =>
      let serialized :=
        (fix members (l : list (str * value)) : list (str * option str) :=
           match l with
           | [] => []
           | (k, x) :: rest =>
               (k, serialize gap (indent ++ gap) x) :: members rest
           end) fields in
      let member (entry : str * option str) : list str :=
        match snd entry with
        | Some t =>
            [quote (fst entry) ++ ch ":"
               :: match gap with [] => t | _ :: _ => ch " " :: t end]
        | None => []
        end in
      Some (bracket (ch "{") (ch "}") gap indent
              (flat_map member (enumerate serialized)))
  end.

(** [JSON.stringify(v, null, spaces)] *)
Definition JSON_stringify (v : value) (spaces : nat) : option str :=
  serialize (repeat (ch " ") (Nat.min spaces 10)) [] v.

(** ** The image information handler (lines 367-400) *)

(** What the engine says when a property of [undefined] or [null] is
    read: it names the value; the wording is the engine's. *)
Definition cannot_read (v : value) : exn :=
  TypeError (lit "Cannot read properties of "
               ++ (match v with VNull => lit "null" | _ => lit "undefined" end)
               ++ lit " (reading 'image_url')").

(** [args.image_url] *)
Definition read_image_url (args : value) : completion value :=
  match args with
  | VUndefined | VNull => Throw (cannot_read args)
  | _ => Normal (get args (lit "image_url"))
  end.

(** The record the handler prints; [timestamp] is what
    [new Date().toISOString()] returns. *)
Definition image_info (imageUrl : value) (timestamp : str) : value :=
  VObj [(lit "image_url", imageUrl);
        (lit "source", VStr (lit "Pinterest"));
        (lit "timestamp", VStr timestamp)].

(** [handlePinterestGetImageInfo], given the reading of the clock. *)
Definition handlePinterestGetImageInfo (timestamp : str) (args : value)
  : ToolResponse :=
  match read_image_url args with
  | Normal imageUrl =>
      mkResponse
        [text_item (lit "Pinterest Image Information");
         text_item (match JSON_stringify (image_info imageUrl timestamp) 2 with
                    | Some t => t
                    | None => lit "undefined"
                    end)]
  | Throw error =>
      mkResponse [text_item (lit "Error getting image info: " ++ message_of error)]
  end.

(** ** The tool list (lines 69-110) *)

Record SchemaProperty := mkProperty {
  property_name : str;
  property_type : str;
  property_description : str;
  property_default : option value
}.

Record Tool := mkTool {
  tool_name : str;
  tool_description : str;
  schema_type : str;
  tool_properties : list SchemaProperty;
  tool_required : list str
}.

Definition list_tools : list Tool :=
  [mkTool (lit "pinterest_search")
     (lit "Search for images on Pinterest by keyword")
     (lit "object")
     [mkProperty (lit "keyword") (lit "string") (lit "Search keyword") None;
      mkProperty (lit "limit") (lit "integer")
        (lit "Number of images to return (default: "
           ++ number_to_string DEFAULT_SEARCH_LIMIT ++ lit ")")
        (Some (VNum DEFAULT_SEARCH_LIMIT));
      mkProperty (lit "headless") (lit "boolean")
        (lit "Whether to use headless browser mode (default: "
           ++ (if DEFAULT_HEADLESS_MODE then lit "true" else lit "false") ++ lit ")")
        (Some (VBool DEFAULT_HEADLESS_MODE))]
     [lit "keyword"];
   mkTool (lit "pinterest_get_image_info")
     (lit "Get Pinterest image information")
     (lit "object")
     [mkProperty (lit "image_url") (lit "string") (lit "Image URL") None]
     [lit "image_url"]].

(** The server: the request handler with both tool handlers in place. *)
Definition server (scraper : Scraper) (timestamp : str)
  (request : CallToolRequest) : ToolResult :=
  call_tool scraper (handlePinterestGetImageInfo timestamp) request.

(** ** Vocabulary of the further properties *)

(** The text [JSON.stringify] prints for the record of a string address. *)
Definition image_info_text (imageUrl timestamp : str) : str :=
  lit "{" ++ 10%N :: lit "  " ++ quote (lit "image_url") ++ lit ": "
    ++ quote imageUrl
    ++ lit "," ++ 10%N :: lit "  " ++ quote (lit "source") ++ lit ": "
    ++ quote (lit "Pinterest")
    ++ lit "," ++ 10%N :: lit "  " ++ quote (lit "timestamp") ++ lit ": "
    ++ quote timestamp
    ++ 10%N :: lit "}".

(** No argument: [undefined] or [null]. *)
Definition is_nullish (v : value) : bool :=
  match v with
  | VUndefined | VNull => true
  | _ => false
  end.

(** Neither end of the text is white space. *)
Definition trimmed (s : str) : Prop :=
  (forall c, hd_error s = Some c -> is_space c = false)
  /\ (forall c, hd_error (rev s) = Some c -> is_space c = false).

(** The argument hands the number [n] over as its limit: a mapping that
    holds it under one of the two spellings, or a text whose parse holds
    it. *)
Definition passes_limit (raw : value) (n : number) : Prop :=
  match raw with
  | VObj fields =>
      lookup (lit "limit") fields = Some (VNum n)
      \/ lookup (backtick (lit "limit")) fields = Some (VNum n)
  | VStr s =>
      exists parsed,
        parse_with_repair (replace_char (ch "`") dquote s) = Some parsed
        /\ get parsed (lit "limit") = VNum n
  | _ => False
  end.

(** The number is the integer [z], with no rounding. *)
Definition is_exactly (x : number) (z : Z) : bool :=
  match x with
  | Finite m e =>
      if (0 <=? e)%Z then (m * 2 ^ e =? z)%Z else (m =? z * 2 ^ (- e))%Z
  | _ => false
  end.

(** A whole number or an infinity: what [parseInt] returns when it
    returns a number. *)
Definition whole_or_infinite (n : number) : bool :=
  match n with
  | Infinity _ => true
  | _ => is_integer n
  end.

(** The number of results that get a page block. *)
Definition pages (results : list SearchResult) : nat :=
  length (filter has_page results).

(** The three arguments written as JSON text, as a client prints them. *)
Definition json_arguments (k : str) (n : N) (b : bool) : str :=
  lit "{" ++ quote (lit "keyword") ++ lit ":" ++ quote k
    ++ lit "," ++ quote (lit "limit") ++ lit ":" ++ decimal n
    ++ lit "," ++ quote (lit "headless") ++ lit ":"
    ++ (if b then lit "true" else lit "false") ++ lit "}".

(** The same three arguments as a mapping. *)
Definition mapping_arguments (k : str) (n : N) (b : bool) : value :=
  VObj [(lit "keyword", VStr k);
        (lit "limit", VNum (of_Z (Z.of_N n)));
        (lit "headless", VBool b)].

(** The text holds no backtick. *)
Definition no_backtick (s : str) : bool :=
  forallb (fun c => negb (c =? ch "`")%N) s.

(** A keyword that can stand between quotes as it is: no quote of any
    kind, no backslash, no colon, no control character. *)
Definition plain_keyword (s : str) : bool :=
  forallb (fun c => negb (is_quote c) && negb (c =? ch "\")%N
                    && negb (c =? ch ":")%N && negb (c <? 32)%N) s.

(** The arguments as loose text: bare keys and single quotes. *)
Definition loose_arguments (k : str) (n : N) : str :=
  lit "{keyword: '" ++ k ++ lit "', limit: " ++ decimal n ++ lit "}".

(** The default the tool list declares for a property of a tool. *)
Definition declared_default (tool property : str) : option value :=
  match find (fun t => str_eqb (tool_name t) tool) list_tools with
  | Some t =>
      match find (fun p => str_eqb (property_name p) property)
                 (tool_properties t) with
      | Some p => property_default p
      | None => None
      end
  | None => None
  end.

(** A query written back as a mapping argument. *)
Definition query_arguments (q : Query) : value :=
  VObj [(lit "keyword", VStr (keyword q));
        (lit "limit", VNum (limit q));
        (lit "headless", VBool (headless q))].

(* ================================================================== *)
(** * Part II: properties                                              *)
(* ================================================================== *)

(** ** The built-ins on small inputs

    Texts with double quotes are written with backticks and passed
    through the replacement the handler itself applies. *)

Example trim_example : trim (lit "  red fox  ") = lit "red fox".
Proof. reflexivity. Qed.

Example binary64_rounds :
  of_Z 10 = Finite 5629499534213120 (-49)
  /\ of_Z 9007199254740993 = of_Z 9007199254740992
  /\ of_Z 9007199254740995 = of_Z 9007199254740996
  /\ decimal_value false 1 (-400) = of_Z 0
  /\ decimal_value false 5 (-324) = Finite 1 (-1074)
  /\ decimal_value false 17976931348623157 292 = Finite 9007199254740991 971
  /\ decimal_value false 17976931348623159 292 = Infinity false.
Proof. vm_compute; repeat split. Qed.

Example ToString_fraction :
  ToString (VNum (decimal_value false 25 (-1))) = Normal (lit "2.5").
Proof. vm_compute; reflexivity. Qed.

Example ToString_small :
  number_to_string (decimal_value false 123 (-9)) = lit "1.23e-7"
  /\ number_to_string (decimal_value false 1 (-1)) = lit "0.1"
  /\ number_to_string (decimal_value false 1 23) = lit "1e+23"
  /\ number_to_string (decimal_value true 5 (-324)) = lit "-5e-324"
  /\ number_to_string (of_Z 9007199254740993) = lit "9007199254740992".
Proof. vm_compute; repeat split. Qed.

Example ToString_array :
  ToString (VArr [VNum (decimal_value false 1200 (-2)); VNull; VStr (lit "a");
                  VArr [VBool true; VNum (decimal_value false 1 21)]])
  = Normal (lit "12,,a,true,1e+21").
Proof. vm_compute; reflexivity. Qed.

Example ToString_throws :
  ToString (VObj [(lit "toString", VNum (of_Z 1))]) = Throw no_primitive.
Proof. reflexivity. Qed.

Example parseInt_prefix : parseInt (lit "  -12.7px") (Some 10%N) = of_Z (-12).
Proof. reflexivity. Qed.

Example parseInt_rounds :
  parseInt (lit "9007199254740993") (Some 10%N) = of_Z 9007199254740992
  /\ parseInt (ch "1" :: repeat (ch "0") 309) (Some 10%N) = Infinity false.
Proof. vm_compute; repeat split. Qed.

Example parseInt_hex :
  parseInt (lit "0x1f") None = of_Z 31
  /\ parseInt (lit "0x1f") (Some 10%N) = of_Z 0
  /\ parseInt (lit "0x") None = NaN.
Proof. repeat split. Qed.

Example JSON_parse_object :
  JSON_parse (replace_char (ch "`") dquote
                (lit "{`a`: [1, 2.50, -3e2, true, null, `x\ny`], `a`: {}, `b`:`A`}"))
  = Some (VObj [(lit "a", VObj []); (lit "b", VStr (lit "A"))]).
Proof. reflexivity. Qed.

Example JSON_parse_array :
  JSON_parse (replace_char (ch "`") dquote (lit " [1, 2.50, -3e2, true, null, `x\ny`] "))
  = Some (VArr [VNum (of_Z 1); VNum (decimal_value false 25 (-1));
                VNum (of_Z (-300)); VBool true; VNull;
                VStr [ch "x"; 10%N; ch "y"]]).
Proof. vm_compute; reflexivity. Qed.

Example JSON_parse_rounds :
  JSON_parse (lit "9007199254740993") = Some (VNum (of_Z 9007199254740992))
  /\ JSON_parse (lit "1e-400") = Some (VNum (of_Z 0))
  /\ JSON_parse (lit "1e400") = Some (VNum (Infinity false)).
Proof. vm_compute; repeat split. Qed.

Example JSON_parse_rejects :
  JSON_parse (lit "[1,]") = None
  /\ JSON_parse (lit "01") = None
  /\ JSON_parse (lit "{'a': 1}") = None
  /\ JSON_parse (replace_char (ch "`") dquote (lit "{`a`:1,}")) = None.
Proof. repeat split. Qed.

Example fixedJson_example :
  fixedJson (lit "{keyword: 'cat', limit: 5}")
  = replace_char (ch "`") dquote (lit "{`keyword`: `cat`, `limit`: 5}").
Proof. reflexivity. Qed.

Example keyword_match_example :
  group1 keyword_at (lit "please KeyWord =  'sun set', limit:  57a") = Some (lit "sun set")
  /\ group1 limit_at (lit "please KeyWord =  'sun set', limit:  57a") = Some (lit "57").
Proof. split; reflexivity. Qed.

Example normalize_repaired_text :
  normalize (VStr (lit "{keyword: 'cat ', limit: '7', headless: false}"))
  = Normal (mkQuery (lit "cat") (of_Z 7) false).
Proof. reflexivity. Qed.

Example sanitize_example :
  sanitize_url (lit "https://example.com/236x/abc.jpg")
  = lit "https://example.com/originals/abc.jpg".
Proof. reflexivity. Qed.

Example handler_example :
  handlePinterestSearch
    (fun _ _ _ =>
       ReturnsArray
         [mkResult (Some (lit "a")) (Some (lit "http://x/236x/a.jpg")) None;
          mkResult None None (Some (lit "http://p"))])
    (VObj [])
  = mkResponse
      (map text_item
         [replace_char (ch "`") dquote
            (lit "Found 2 images related to `landscape` on Pinterest");
          lit "Image 1: a"; lit "Link: http://x/originals/a.jpg"; lit "---";
          lit "Image 2: No title"; lit "Link: No link";
          lit "Original page: http://p"]).
Proof. reflexivity. Qed.

(** ** Binary64 values *)

Lemma log2_ratio_whole (a : Z) : (0 < a)%Z -> log2_ratio a 1 = Z.log2 a.
Proof.
  intros Ha; unfold log2_ratio.
  change (Z.log2 1) with 0%Z; rewrite Z.sub_0_r.
  pose proof (Z.log2_nonneg a) as Hn.
  destruct (Z.leb_spec 0 (Z.log2 a)); [|lia].
  destruct (Z.log2_spec a Ha) as [Hlo _].
  destruct (Z.leb_spec (1 * 2 ^ Z.log2 a) a); [reflexivity | lia].
Qed.

Lemma binary64_not_NaN (negative : bool) (a b : Z) :
  isNaN (binary64 negative a b) = false.
Proof.
  unfold binary64; destruct (a =? 0)%Z; [reflexivity|]; cbv zeta.
  match goal with
  | |- context [if ?c then (_, _) else (_, _)] => destruct c
  end; destruct (emax <? _)%Z; reflexivity.
Qed.

(** The Number value for a positive integer is an infinity or a positive
    whole number. *)
Lemma binary64_whole (negative : bool) (a : Z) :
  (0 < a)%Z ->
  binary64 negative a 1 = Infinity negative
  \/ exists m e,
       binary64 negative a 1 = Finite (if negative then (- m)%Z else m) e
       /\ (0 < m)%Z /\ ((0 <= e)%Z \/ (m mod 2 ^ (- e) = 0)%Z).
Proof.
  intros Ha; unfold binary64.
  destruct (Z.eqb_spec a 0); [lia|]; cbv zeta.
  rewrite (log2_ratio_whole a Ha).
  destruct (Z.log2_spec a Ha) as [Hlo Hhi].
  pose proof (Z.log2_nonneg a) as Hl.
  set (l := Z.log2 a) in *.
  rewrite Z.max_l by (unfold emin; lia).
  destruct (Z.leb_spec 0 (l - 52)) as [He|He].
  - assert (Hq : (2 ^ 52 <= a / (1 * 2 ^ (l - 52)))%Z).
    { rewrite Z.mul_1_l; apply Z.div_le_lower_bound; [apply Z.pow_pos_nonneg; lia|].
      rewrite <- Z.pow_add_r by lia.
      replace (l - 52 + 52)%Z with l by lia; exact Hlo. }
    set (q := (a / (1 * 2 ^ (l - 52)))%Z) in *.
    assert (H52 : (0 < 2 ^ 52)%Z) by (apply Z.pow_pos_nonneg; lia).
    match goal with
    | |- context [if ?c then (_, _) else (_, _)] => destruct c
    end; destruct (emax <? _)%Z; try (left; reflexivity); right.
    + exists (2 ^ 52)%Z, (l - 52 + 1)%Z;
        split; [reflexivity | split; [lia | left; lia]].
    + eexists _, (l - 52)%Z; split; [reflexivity|]; split; [|left; lia].
      destruct (_ || _); lia.
  - rewrite Z.div_1_r, Z.mod_1_r.
    change ((1 <? 2 * 0)%Z || (1 =? 2 * 0)%Z && Z.odd (a * 2 ^ (- (l - 52))))
      with false; cbv iota.
    assert (Hp : (0 < 2 ^ (- (l - 52)))%Z) by (apply Z.pow_pos_nonneg; lia).
    match goal with
    | |- context [if ?c then (_, _) else (_, _)] => destruct c eqn:E
    end.
    + exfalso; apply Z.eqb_eq in E.
      assert ((2 ^ (l + 1) * 2 ^ (- (l - 52)) = 2 ^ 53)%Z).
      { rewrite <- Z.pow_add_r by lia; f_equal; lia. }
      nia.
    + destruct (emax <? _)%Z; [left; reflexivity | right].
      exists (a * 2 ^ (- (l - 52)))%Z, (l - 52)%Z;
        split; [reflexivity | split; [nia|]].
      right; apply Z.mod_mul; lia.
Qed.

(** The integers up to [2^53] are binary64 values. *)
Lemma binary64_exact (negative : bool) (a : Z) :
  (0 < a < 2 ^ 53)%Z ->
  binary64 negative a 1
  = Finite (if negative then (- (a * 2 ^ (52 - Z.log2 a)))%Z
            else (a * 2 ^ (52 - Z.log2 a))%Z) (Z.log2 a - 52).
Proof.
  intros [Ha Hb]; unfold binary64.
  destruct (Z.eqb_spec a 0); [lia|]; cbv zeta.
  rewrite (log2_ratio_whole a Ha).
  destruct (Z.log2_spec a Ha) as [Hlo Hhi].
  pose proof (Z.log2_nonneg a) as Hl.
  assert (Hl52 : (Z.log2 a <= 52)%Z).
  { destruct (Z.le_gt_cases (Z.log2 a) 52) as [H|H]; [exact H|exfalso].
    assert (2 ^ 53 <= 2 ^ Z.log2 a)%Z by (apply Z.pow_le_mono_r; lia). lia. }
  set (l := Z.log2 a) in *.
  rewrite Z.max_l by (unfold emin; lia).
  assert (Hp : (0 < 2 ^ (52 - l))%Z) by (apply Z.pow_pos_nonneg; lia).
  assert (Hm : (a * 2 ^ (52 - l) < 2 ^ 53)%Z).
  { assert ((2 ^ (l + 1) * 2 ^ (52 - l) = 2 ^ 53)%Z)
      by (rewrite <- Z.pow_add_r by lia; f_equal; lia).
    nia. }
  assert (Hfin : (emax <? l - 52)%Z = false) by (apply Z.ltb_ge; unfold emax; lia).
  destruct (Z.leb_spec 0 (l - 52)) as [He|He].
  - assert (El : l = 52%Z) by lia.
    rewrite El in *; change (52 - 52)%Z with 0%Z in *.
    change (1 * 2 ^ 0)%Z with 1%Z.
    rewrite Z.div_1_r, Z.mod_1_r.
    change ((1 <? 2 * 0)%Z || (1 =? 2 * 0)%Z && Z.odd a) with false; cbv iota.
    change (2 ^ 0)%Z with 1%Z in *; rewrite Z.mul_1_r in *.
    destruct (Z.eqb_spec a (2 ^ 53)); [lia|].
    rewrite Hfin; reflexivity.
  - rewrite Z.div_1_r, Z.mod_1_r.
    change ((1 <? 2 * 0)%Z || (1 =? 2 * 0)%Z && Z.odd (a * 2 ^ (- (l - 52))))
      with false; cbv iota.
    replace (- (l - 52))%Z with (52 - l)%Z by lia.
    destruct (Z.eqb_spec (a * 2 ^ (52 - l)) (2 ^ 53)); [lia|].
    rewrite Hfin; reflexivity.
Qed.

Lemma of_Z_exact (z : Z) : (Z.abs z <= 2 ^ 53)%Z -> is_exactly (of_Z z) z = true.
Proof.
  intros Hz.
  destruct (Z.eq_dec z 0) as [->|H0]; [reflexivity|].
  destruct (Z.eq_dec (Z.abs z) (2 ^ 53)) as [E|E].
  { destruct (Z.abs_eq_or_opp z) as [A|A]; rewrite A in E.
    - rewrite E; vm_compute; reflexivity.
    - replace z with (- 2 ^ 53)%Z by lia; vm_compute; reflexivity. }
  unfold of_Z; rewrite binary64_exact by lia.
  pose proof (Z.log2_nonneg (Z.abs z)) as Hl.
  assert (Hl52 : (Z.log2 (Z.abs z) <= 52)%Z).
  { destruct (Z.le_gt_cases (Z.log2 (Z.abs z)) 52) as [H|H]; [exact H|exfalso].
    destruct (Z.log2_spec (Z.abs z)) as [Hlo _]; [lia|].
    assert (2 ^ 53 <= 2 ^ Z.log2 (Z.abs z))%Z by (apply Z.pow_le_mono_r; lia). lia. }
  cbn [is_exactly].
  destruct (Z.leb_spec 0 (Z.log2 (Z.abs z) - 52)) as [He|He].
  - replace (Z.log2 (Z.abs z)) with 52%Z by lia.
    change (52 - 52)%Z with 0%Z; change (2 ^ 0)%Z with 1%Z.
    apply Z.eqb_eq; destruct (Z.ltb_spec z 0); lia.
  - replace (- (Z.log2 (Z.abs z) - 52))%Z with (52 - Z.log2 (Z.abs z))%Z by lia.
    apply Z.eqb_eq; destruct (Z.ltb_spec z 0); [|rewrite Z.abs_eq by lia; reflexivity].
    rewrite Z.abs_neq by lia; lia.
Qed.

Lemma decimal_value_whole (n : N) :
  decimal_value false (Z.of_N n) 0 = of_Z (Z.of_N n).
Proof.
  unfold decimal_value, of_Z; cbn [Z.leb Z.compare].
  rewrite Z.pow_0_r, Z.mul_1_r, Z.abs_eq by lia.
  destruct (Z.ltb_spec (Z.of_N n) 0); [lia | reflexivity].
Qed.

Lemma of_Z_positive (z : Z) : (0 < z)%Z -> positive (of_Z z) = true.
Proof.
  intros Hz; unfold of_Z.
  destruct (Z.ltb_spec z 0); [lia|]; rewrite Z.abs_eq by lia.
  destruct (binary64_whole false z Hz) as [-> | (m & e & -> & Hm & _)];
    [reflexivity | apply Z.ltb_lt; exact Hm].
Qed.

Lemma of_Z_not_NaN (z : Z) : isNaN (of_Z z) = false.
Proof. apply binary64_not_NaN. Qed.

Lemma positive_valid (x : number) :
  positive x = true -> isNaN x || le_zero x = false.
Proof.
  destruct x as [|negative|m e]; cbn [positive isNaN le_zero orb].
  - discriminate.
  - destruct negative; [discriminate | reflexivity].
  - intros H; apply Z.ltb_lt in H; apply Z.leb_gt; exact H.
Qed.

(** The Number value for a natural number is not a valid limit exactly
    when the number is zero. *)
Lemma of_N_invalid (n : N) :
  isNaN (of_Z (Z.of_N n)) || le_zero (of_Z (Z.of_N n)) = (n =? 0)%N.
Proof.
  destruct n as [|p]; [reflexivity|].
  apply positive_valid, of_Z_positive; reflexivity.
Qed.

Lemma of_Z_negative (z : Z) : (z <= 0)%Z -> le_zero (of_Z z) = true.
Proof.
  intros Hz; unfold of_Z.
  destruct (Z.eq_dec z 0) as [->|Hne]; [reflexivity|].
  destruct (Z.ltb_spec z 0); [|lia].
  destruct (binary64_whole true (Z.abs z)) as [-> | (m & e & -> & Hm & _)];
    [lia | reflexivity | apply Z.leb_le; lia].
Qed.

Lemma of_Z_whole (z : Z) :
  is_integer (of_Z z) = true \/ of_Z z = Infinity (z <? 0)%Z.
Proof.
  unfold of_Z; destruct (Z.eq_dec z 0) as [->|Hne]; [left; reflexivity|].
  destruct (binary64_whole (z <? 0)%Z (Z.abs z)) as [-> | (m & e & -> & Hm & He)];
    [lia | right; reflexivity | left].
  cbn [is_integer]; apply orb_true_iff.
  destruct He as [He|He]; [left; apply Z.leb_le; exact He | right].
  apply Z.eqb_eq; destruct (z <? 0)%Z; [|exact He].
  assert (Hp : (2 ^ (- e) <> 0)%Z).
  { destruct (Z.leb_spec 0 (- e)).
    - assert (0 < 2 ^ (- e))%Z by (apply Z.pow_pos_nonneg; lia). lia.
    - rewrite Z.pow_neg_r in He by lia; rewrite Z.mod_0_r in He; lia. }
  apply Z.mod_opp_l_z; assumption.
Qed.

(** ** Lists of characters *)

Lemma take_drop_while (f : char -> bool) (s : str) :
  take_while f s ++ drop_while f s = s.
Proof.
  induction s as [|c r IH]; simpl; [reflexivity|].
  destruct (f c); simpl; [now rewrite IH | reflexivity].
Qed.

Lemma take_while_all (f : char -> bool) (s : str) :
  Forall (fun c => f c = true) (take_while f s).
Proof.
  induction s as [|c r IH]; simpl; [constructor|].
  destruct (f c) eqn:E; constructor; assumption.
Qed.

Lemma drop_while_head (f : char -> bool) (s : str) (c : char) (r : str) :
  drop_while f s = c :: r -> f c = false.
Proof.
  induction s as [|d t IH]; simpl; [discriminate|].
  destruct (f d) eqn:E; [exact IH|].
  intros H; injection H as -> _; exact E.
Qed.

Lemma take_while_app (f : char -> bool) (w : str) (c : char) (r : str) :
  Forall (fun x => f x = true) w -> f c = false ->
  take_while f (w ++ c :: r) = w /\ drop_while f (w ++ c :: r) = c :: r.
Proof.
  intros Hw Hc; induction Hw as [|x w Hx Hw IH]; simpl.
  - now rewrite Hc.
  - rewrite Hx; destruct IH as [-> ->]; split; reflexivity.
Qed.

Lemma str_eqb_eq (a b : str) : str_eqb a b = true <-> a = b.
Proof.
  revert b; induction a as [|x a IH]; intros [|y b]; simpl;
    try (split; [discriminate | discriminate]); [tauto|].
  rewrite andb_true_iff, N.eqb_eq, IH; split.
  - intros [-> ->]; reflexivity.
  - intros H; injection H as -> ->; split; reflexivity.
Qed.

Lemma starts_with_app (s p : str) :
  starts_with s p = true -> exists b, s = p ++ b.
Proof.
  revert s; induction p as [|y p IH]; intros s; simpl.
  - exists s; reflexivity.
  - destruct s as [|x s]; [discriminate|]; simpl.
    rewrite andb_true_iff, N.eqb_eq; intros [-> H].
    destruct (IH _ H) as [b ->]; exists b; reflexivity.
Qed.

Lemma includes_app (s p : str) :
  includes s p = true -> exists a b, s = a ++ p ++ b.
Proof.
  induction s as [|x s IH]; cbn [includes]; rewrite orb_true_iff; intros [H|H].
  - destruct (starts_with_app _ _ H) as [b Hb]; exists [], b; exact Hb.
  - discriminate.
  - destruct (starts_with_app _ _ H) as [b Hb]; exists [], b; exact Hb.
  - destruct (IH H) as (a & b & ->); exists (x :: a), b; reflexivity.
Qed.

(** ** Leftmost matches *)

Section Exec.

Context {A : Type} (at_pos : str -> option (A * str)).

Lemma regex_exec_some (s pre : str) (a : A) (post : str) :
  regex_exec at_pos s = Some (pre, a, post) ->
  exists rest,
    s = pre ++ rest /\ at_pos rest = Some (a, post)
    /\ forall p1 p2, pre = p1 ++ p2 -> p2 <> [] -> at_pos (p2 ++ rest) = None.
Proof.
  revert pre; induction s as [|c t IH]; intros pre; simpl.
  - destruct (at_pos []) as [[a' post']|] eqn:E; [|discriminate].
    intros H; injection H as <- <- <-.
    exists []; repeat split; [exact E|].
    intros p1 p2 H; symmetry in H; apply app_eq_nil in H as [_ ->]; congruence.
  - destruct (at_pos (c :: t)) as [[a' post']|] eqn:E.
    + intros H; injection H as <- <- <-.
      exists (c :: t); repeat split; [exact E|].
      intros p1 p2 H; symmetry in H; apply app_eq_nil in H as [_ ->]; congruence.
    + destruct (regex_exec at_pos t) as [[[pre' a'] post']|] eqn:R; [|discriminate].
      intros H; injection H as <- <- <-.
      destruct (IH _ eq_refl) as (rest & -> & Hat & Hleft).
      exists rest; repeat split; [exact Hat|].
      intros [|x p1] p2 Hp Hne; simpl in Hp.
      * subst p2; exact E.
      * injection Hp as _ Hp; exact (Hleft _ _ Hp Hne).
Qed.

Lemma regex_exec_none (s : str) :
  regex_exec at_pos s = None -> forall p r, s = p ++ r -> at_pos r = None.
Proof.
  induction s as [|c t IH]; simpl.
  - destruct (at_pos []) as [[a post]|] eqn:E; [discriminate|].
    intros _ p r H; symmetry in H; apply app_eq_nil in H as [_ ->]; exact E.
  - destruct (at_pos (c :: t)) as [[a post]|] eqn:E; [discriminate|].
    destruct (regex_exec at_pos t) as [[[pre a] post]|] eqn:R; [discriminate|].
    intros _ [|x p] r H; simpl in H.
    + subst r; exact E.
    + injection H as _ H; exact (IH eq_refl _ _ H).
Qed.

Lemma regex_exec_app_none (l1 l2 : str) :
  (forall p1 p2, l1 = p1 ++ p2 -> p2 <> [] -> at_pos (p2 ++ l2) = None) ->
  regex_exec at_pos l2 = None ->
  regex_exec at_pos (l1 ++ l2) = None.
Proof.
  induction l1 as [|c l1 IH]; intros Hl H2; [exact H2|].
  assert (E : at_pos (c :: l1 ++ l2) = None)
    by (apply (Hl [] (c :: l1) eq_refl); discriminate).
  simpl; rewrite E.
  rewrite IH; [reflexivity| |exact H2].
  intros p1 p2 -> Hne; apply (Hl (c :: p1) p2); [reflexivity | exact Hne].
Qed.

Lemma regex_exec_found (p r : str) (x : A * str) :
  at_pos r = Some x -> regex_exec at_pos (p ++ r) <> None.
Proof.
  intros Hr; induction p as [|c p IH]; simpl.
  - destruct r; simpl; rewrite Hr; destruct x; discriminate.
  - destruct (at_pos (c :: p ++ r)) as [[a post]|]; [discriminate|].
    destruct (regex_exec at_pos (p ++ r)) as [[[pre a] post]|];
      [discriminate | contradiction].
Qed.

End Exec.

Lemma regex_exec_cons_none {A : Type} (at_pos : str -> option (A * str))
  (c : char) (t : str) :
  at_pos (c :: t) = None -> regex_exec at_pos t = None ->
  regex_exec at_pos (c :: t) = None.
Proof. intros H1 H2; simpl; rewrite H1, H2; reflexivity. Qed.

Lemma app_cons_split (c : char) (l1 r1 l2 r2 : str) :
  ~ In c l1 -> l1 ++ c :: r1 = l2 ++ c :: r2 ->
  (l2 = l1 /\ r1 = r2) \/ exists l', l2 = l1 ++ c :: l' /\ r1 = l' ++ c :: r2.
Proof.
  revert l2; induction l1 as [|a l1 IH]; intros l2 Hin H.
  - destruct l2 as [|b l2]; simpl in H.
    + left; injection H as ->; split; reflexivity.
    + right; injection H as <- ->; exists l2; split; reflexivity.
  - destruct l2 as [|b l2]; simpl in H.
    + injection H as -> _; exfalso; apply Hin; left; reflexivity.
    + injection H as <- H.
      destruct (IH l2) as [[-> ->]|(l' & -> & ->)];
        [intros Hc; apply Hin; right; exact Hc | exact H | |].
      * left; split; reflexivity.
      * right; exists l'; split; reflexivity.
Qed.

(** ** The thumbnail expression *)

Lemma thumb_at_sound (s seg post : str) :
  thumb_at s = Some (seg, post) -> s = seg ++ post /\ thumb_segment seg.
Proof.
  unfold thumb_at; destruct s as [|c r]; [discriminate|].
  destruct (N.eqb_spec c (ch "/")) as [->|]; [|discriminate].
  pose proof (take_drop_while is_digit r) as Hr.
  pose proof (take_while_all is_digit r) as Hw.
  destruct (take_while is_digit r) as [|w1 w]; [discriminate|].
  destruct (drop_while is_digit r) as [|x r2]; [discriminate|].
  destruct (N.eqb_spec x (ch "x")) as [->|]; [|discriminate].
  pose proof (take_drop_while is_digit r2) as Hr2.
  pose proof (take_while_all is_digit r2) as Hh.
  set (h := take_while is_digit r2) in *; clearbody h.
  destruct (drop_while is_digit r2) as [|c' r4]; [discriminate|].
  destruct (N.eqb_spec c' (ch "/")) as [->|]; [|discriminate].
  intros H; injection H as <- <-; split.
  - rewrite <- Hr, <- Hr2; simpl; rewrite <- !app_assoc; simpl.
    rewrite <- !app_assoc; reflexivity.
  - exists (w1 :: w), h; repeat split;
      [discriminate | exact Hw | exact Hh].
Qed.

Lemma thumb_at_complete (seg post : str) :
  thumb_segment seg -> thumb_at (seg ++ post) = Some (seg, post).
Proof.
  intros (w & h & -> & Hne & Hw & Hh).
  assert (E : (ch "/" :: w ++ ch "x" :: h ++ [ch "/"]) ++ post
              = ch "/" :: w ++ ch "x" :: h ++ ch "/" :: post).
  { simpl; rewrite <- !app_assoc; simpl; rewrite <- !app_assoc; reflexivity. }
  rewrite E; unfold thumb_at; rewrite N.eqb_refl.
  destruct (take_while_app is_digit w (ch "x") (h ++ ch "/" :: post) Hw eq_refl)
    as [-> ->].
  destruct w as [|w1 w]; [congruence|].
  rewrite N.eqb_refl.
  destruct (take_while_app is_digit h (ch "/") post Hh eq_refl) as [-> ->].
  rewrite N.eqb_refl; reflexivity.
Qed.

Lemma thumb_segment_inner (w h : str) :
  Forall (fun c => is_digit c = true) w ->
  Forall (fun c => is_digit c = true) h ->
  ~ In (ch "/") (w ++ ch "x" :: h).
Proof.
  intros Hw Hh Hin; apply in_app_or in Hin as [Hin|[Hin|Hin]].
  - rewrite Forall_forall in Hw; specialize (Hw _ Hin); discriminate.
  - discriminate.
  - rewrite Forall_forall in Hh; specialize (Hh _ Hin); discriminate.
Qed.

(** A match that starts before a slash ends at that slash or before it:
    it does not depend on the text after the slash. *)
Lemma thumb_at_local (p t seg post : str) :
  p <> [] -> thumb_at (p ++ ch "/" :: t) = Some (seg, post) ->
  forall t', exists post', thumb_at (p ++ ch "/" :: t') = Some (seg, post').
Proof.
  intros Hp H t'.
  destruct (thumb_at_sound _ _ _ H) as [Hs Hseg].
  pose proof Hseg as (w & h & -> & Hne & Hw & Hh).
  destruct p as [|c p]; [congruence|].
  simpl in Hs; injection Hs as -> Hs.
  rewrite <- !app_assoc in Hs; simpl in Hs.
  rewrite <- !app_assoc in Hs; simpl in Hs.
  assert (Hs' : (w ++ ch "x" :: h) ++ ch "/" :: post = p ++ ch "/" :: t)
    by (rewrite <- app_assoc; simpl; symmetry; exact Hs).
  destruct (app_cons_split _ _ _ _ _ (thumb_segment_inner w h Hw Hh) Hs')
    as [[-> _]|(l' & -> & _)].
  - exists t'.
    rewrite <- (thumb_at_complete _ t' Hseg); f_equal.
    simpl; rewrite <- !app_assoc; simpl; rewrite <- !app_assoc; reflexivity.
  - exists (l' ++ ch "/" :: t').
    rewrite <- (thumb_at_complete _ (l' ++ ch "/" :: t') Hseg); f_equal.
    simpl; rewrite <- !app_assoc; simpl; rewrite <- !app_assoc; reflexivity.
Qed.

(** The four literal markers are segments of the generic form, so the
    literal test of the loop finds nothing the expression misses. *)
Lemma marker_is_segment (marker : str) :
  In marker thumbnailPatterns -> thumb_segment marker.
Proof.
  unfold thumbnailPatterns; simpl.
  intros [<-|[<-|[<-|[<-|[]]]]].
  - exists (lit "60"), (lit "60"); repeat split;
      [discriminate | repeat constructor | repeat constructor].
  - exists (lit "236"), []; repeat split;
      [discriminate | repeat constructor | constructor].
  - exists (lit "474"), []; repeat split;
      [discriminate | repeat constructor | constructor].
  - exists (lit "736"), []; repeat split;
      [discriminate | repeat constructor | constructor].
Qed.

Lemma needsFix_matches (url : str) : needsFix url = matches_thumb url.
Proof.
  unfold needsFix.
  destruct (existsb (fun pattern => includes url pattern) thumbnailPatterns) eqn:E.
  - simpl. apply existsb_exists in E as (marker & Hin & Hinc).
    destruct (includes_app _ _ Hinc) as (a & b & ->).
    pose proof (thumb_at_complete marker b (marker_is_segment _ Hin)) as Hat.
    pose proof (regex_exec_found thumb_at a _ _ Hat) as Hex.
    unfold matches_thumb.
    destruct (regex_exec thumb_at (a ++ marker ++ b)); [reflexivity | contradiction].
  - simpl. destruct (matches_thumb url); reflexivity.
Qed.

Lemma thumbnail_detected_matches (url : str) :
  thumbnail_detected url = matches_thumb url.
Proof.
  unfold thumbnail_detected.
  pose proof (needsFix_matches url) as H; unfold needsFix in H.
  destruct (existsb (fun marker => includes url marker) thumbnailPatterns);
    simpl in *; [exact H | reflexivity].
Qed.

Lemma sanitize_url_replace (url : str) : sanitize_url url = replace_thumb url.
Proof.
  unfold sanitize_url; rewrite needsFix_matches.
  unfold matches_thumb, replace_thumb.
  destruct (regex_exec thumb_at url) as [[[pre seg] post]|]; reflexivity.
Qed.

Lemma sanitize_result_eq (r : SearchResult) :
  sanitize_result r =
  match image_url r with
  | Some url => mkResult (title r) (Some (sanitize_url url)) (link r)
  | None => r
  end.
Proof.
  unfold sanitize_result; destruct r as [t [[|c u]|] l]; reflexivity.
Qed.

(** ** The sanitizer *)

(** After the leftmost segment is rewritten, a further segment can only
    start at the closing slash of the rewritten one or after it. *)
Lemma rewritten_has_no_thumb (url pre seg post : str) :
  regex_exec thumb_at url = Some (pre, seg, post) ->
  matches_thumb (ch "/" :: post) = false ->
  regex_exec thumb_at (pre ++ originals ++ post) = None.
Proof.
  intros Hex Hpost.
  destruct (regex_exec_some _ _ _ _ _ Hex) as (rest & -> & Hat & Hleft).
  destruct (thumb_at_sound _ _ _ Hat) as [-> Hseg].
  apply regex_exec_app_none.
  - intros p1 p2 Hp Hne.
    destruct (thumb_at (p2 ++ originals ++ post)) as [[sg pt]|] eqn:E;
      [|reflexivity].
    exfalso.
    pose proof Hseg as (w & h & -> & _).
    destruct (thumb_at_local p2 (lit "originals/" ++ post) sg pt Hne E
                ((w ++ ch "x" :: h ++ [ch "/"]) ++ post)) as [post' E'].
    assert (Hn : thumb_at (p2 ++ ch "/" :: (w ++ ch "x" :: h ++ [ch "/"]) ++ post)
                 = None) by exact (Hleft p1 p2 Hp Hne).
    rewrite Hn in E'; discriminate.
  - unfold matches_thumb in Hpost.
    destruct (regex_exec thumb_at (ch "/" :: post)) eqn:E; [discriminate|].
    unfold originals; cbn [lit app].
    repeat (apply regex_exec_cons_none; [reflexivity|]).
    exact E.
Qed.

Lemma sanitize_url_idempotent_iff (url : str) :
  sanitize_url (sanitize_url url) = sanitize_url url
  <-> single_thumbnail url = true.
Proof.
  rewrite !sanitize_url_replace; unfold single_thumbnail.
  unfold replace_thumb at 2 3.
  destruct (regex_exec thumb_at url) as [[[pre seg] post]|] eqn:Hex.
  - destruct (matches_thumb (ch "/" :: post)) eqn:Hpost; cbn [negb]; split;
      try discriminate; try reflexivity.
    + (* a second segment is rewritten by the second pass *)
      intros Heq; exfalso.
      unfold matches_thumb in Hpost.
      destruct (regex_exec thumb_at (ch "/" :: post))
        as [[[pre2 seg2] post2]|] eqn:E; [|discriminate].
      destruct (regex_exec_some _ _ _ _ _ E) as (rest2 & Hsplit & Hat2 & _).
      assert (Hfound : regex_exec thumb_at (pre ++ originals ++ post) <> None).
      { replace (pre ++ originals ++ post)
          with ((pre ++ lit "/originals" ++ pre2) ++ rest2).
        - apply (regex_exec_found thumb_at _ _ _ Hat2).
        - rewrite <- !app_assoc; f_equal.
          change originals with (lit "/originals" ++ [ch "/"]).
          rewrite <- !app_assoc; f_equal; simpl; rewrite <- Hsplit; reflexivity. }
      unfold replace_thumb in Heq.
      destruct (regex_exec thumb_at (pre ++ originals ++ post))
        as [[[pre1 seg1] post1]|] eqn:E1; [|congruence].
      destruct (regex_exec_some _ _ _ _ _ E1) as (rest1 & Hs1 & Hat1 & _).
      destruct (thumb_at_sound _ _ _ Hat1) as [-> (w & h & -> & Hne & Hw & _)].
      rewrite Hs1 in Heq; apply app_inv_head in Heq.
      destruct w as [|w1 w]; [congruence|].
      inversion Hw as [|? ? Hd _]; subst.
      unfold originals in Heq; simpl in Heq.
      injection Heq as Hc _; rewrite <- Hc in Hd; discriminate.
    + intros _; unfold replace_thumb.
      rewrite (rewritten_has_no_thumb _ _ _ _ Hex Hpost); reflexivity.
  - split; [reflexivity|]; intros _.
    unfold replace_thumb; rewrite Hex; reflexivity.
Qed.

Lemma sanitize_result_idempotent_iff (r : SearchResult) :
  sanitize_result (sanitize_result r) = sanitize_result r
  <-> single_thumbnail_result r = true.
Proof.
  rewrite !sanitize_result_eq; unfold single_thumbnail_result.
  destruct r as [t [url|] l]; simpl; [|tauto].
  rewrite <- sanitize_url_idempotent_iff; split.
  - intros H; injection H as H; exact H.
  - intros ->; reflexivity.
Qed.

(** The leftmost match is the match [exec] returns. *)
Lemma regex_exec_leftmost {A : Type} (at_pos : str -> option (A * str))
  (pre rest : str) (a : A) (post : str) :
  (forall p1 p2, pre = p1 ++ p2 -> p2 <> [] -> at_pos (p2 ++ rest) = None) ->
  at_pos rest = Some (a, post) ->
  regex_exec at_pos (pre ++ rest) = Some (pre, a, post).
Proof.
  induction pre as [|c pre IH]; intros Hleft Hat.
  - destruct rest; simpl; rewrite Hat; reflexivity.
  - assert (E : at_pos (c :: pre ++ rest) = None)
      by (apply (Hleft [] (c :: pre) eq_refl); discriminate).
    simpl; rewrite E, IH; [reflexivity| |exact Hat].
    intros p1 p2 -> Hne; apply (Hleft (c :: p1) p2); [reflexivity | exact Hne].
Qed.

Lemma no_segment_before_leftmost (pre seg post : str) :
  thumb_segment seg -> no_segment_before pre = true ->
  forall p1 p2, pre = p1 ++ p2 -> p2 <> [] ->
    thumb_at (p2 ++ seg ++ post) = None.
Proof.
  intros (w & h & -> & _) Hno p1 p2 -> Hne.
  destruct (thumb_at (p2 ++ (ch "/" :: w ++ ch "x" :: h ++ [ch "/"]) ++ post))
    as [[seg post']|] eqn:E; [exfalso | reflexivity].
  cbn [app] in E.
  destruct (thumb_at_local _ _ _ _ Hne E []) as [post'' H].
  unfold no_segment_before, matches_thumb in Hno.
  destruct (regex_exec thumb_at ((p1 ++ p2) ++ [ch "/"])) eqn:R;
    [discriminate Hno|].
  rewrite (regex_exec_none thumb_at _ R p1 (p2 ++ [ch "/"])) in H;
    [discriminate H | rewrite app_assoc; reflexivity].
Qed.

(** C6, as stated, fails: the segment that is replaced is the leftmost
    one of the generic form, not the literal marker the loop detected.
    Here the marker [/236x/] is detected, the segment [/1x/] before it
    is replaced, and the marker stays. *)
Lemma detected_marker_kept :
  let url := lit "https://x/1x/236x/z" in
  In (lit "/236x/") thumbnailPatterns
  /\ includes url (lit "/236x/") = true
  /\ thumbnail_detected url = true
  /\ sanitize_url url = lit "https://x/originals/236x/z"
  /\ includes (sanitize_url url) (lit "/236x/") = true
  /\ sanitize_url url <> lit "https://x/1x/originals/z".
Proof.
  repeat split; [right; left; reflexivity | discriminate].
Qed.

(** C6, amended.  An address that holds one of the four literal markers
    or a segment of the generic form is rewritten by replacing the
    leftmost segment of the generic form with [/originals/]; the text
    before and after it is kept, and the title and the link are not
    touched.  A detected literal marker is the segment replaced when no
    segment of the generic form starts before it, in the text up to its
    opening slash.  An address with no such segment is left as it is. *)
Theorem sanitizer_replaces_segment (result : SearchResult) (url : str) :
  image_url result = Some url ->
  title (sanitize_result result) = title result
  /\ link (sanitize_result result) = link result
  /\ (thumbnail_detected url = true ->
      exists pre seg post,
        url = pre ++ seg ++ post /\ thumb_segment seg
        /\ (forall p1 p2, pre = p1 ++ p2 -> p2 <> [] ->
            thumb_at (p2 ++ seg ++ post) = None)
        /\ image_url (sanitize_result result) = Some (pre ++ originals ++ post))
  /\ (forall marker pre post,
        In marker thumbnailPatterns ->
        url = pre ++ marker ++ post ->
        no_segment_before pre = true ->
        image_url (sanitize_result result) = Some (pre ++ originals ++ post))
  /\ (thumbnail_detected url = false ->
      image_url (sanitize_result result) = Some url).
Proof.
  intros Hurl; rewrite sanitize_result_eq, Hurl; simpl.
  rewrite thumbnail_detected_matches, sanitize_url_replace.
  unfold matches_thumb, replace_thumb.
  split; [reflexivity|split; [reflexivity|split; [|split]]].
  - destruct (regex_exec thumb_at url) as [[[pre seg] post]|] eqn:E;
      [intros _ | discriminate].
    destruct (regex_exec_some _ _ _ _ _ E) as (rest & -> & Hat & Hleft).
    destruct (thumb_at_sound _ _ _ Hat) as [-> Hseg].
    exists pre, seg, post; repeat split; assumption.
  - intros marker pre post Hin -> Hno.
    rewrite (regex_exec_leftmost thumb_at pre (marker ++ post) marker post
               (no_segment_before_leftmost pre marker post
                  (marker_is_segment _ Hin) Hno)
               (thumb_at_complete marker post (marker_is_segment _ Hin))).
    reflexivity.
  - destruct (regex_exec thumb_at url) as [[[pre seg] post]|];
      [discriminate | reflexivity].
Qed.

Lemma sanitizer_replaces_segment_witness :
  (exists pre seg post,
     lit "https://example.com/236x/abc.jpg" = pre ++ seg ++ post
     /\ thumb_segment seg
     /\ (forall p1 p2, pre = p1 ++ p2 -> p2 <> [] ->
         thumb_at (p2 ++ seg ++ post) = None)
     /\ image_url (sanitize_result
                     (mkResult None (Some (lit "https://example.com/236x/abc.jpg")) None))
        = Some (pre ++ originals ++ post))
  /\ image_url (sanitize_result
                  (mkResult None (Some (lit "https://example.com/236x/abc.jpg")) None))
     = Some (lit "https://example.com" ++ originals ++ lit "abc.jpg").
Proof.
  split.
  - apply (sanitizer_replaces_segment
             (mkResult None (Some (lit "https://example.com/236x/abc.jpg")) None)
             (lit "https://example.com/236x/abc.jpg") eq_refl).
    reflexivity.
  - apply (proj1 (proj2 (proj2 (proj2 (sanitizer_replaces_segment
             (mkResult None (Some (lit "https://example.com/236x/abc.jpg")) None)
             (lit "https://example.com/236x/abc.jpg") eq_refl))))
             (lit "/236x/") (lit "https://example.com") (lit "abc.jpg")).
    + right; left; reflexivity.
    + reflexivity.
    + reflexivity.
Defined.

(** C2, as stated, fails: only the leftmost segment is rewritten in one
    pass, so an address with two segments changes again in the second. *)
Lemma sanitize_twice_differs :
  let results :=
    [mkResult (Some (lit "pin")) (Some (lit "https://i.pinimg.com/236x/ab/736x/c.jpg"))
              None] in
  map image_url (sanitize results)
    = [Some (lit "https://i.pinimg.com/originals/ab/736x/c.jpg")]
  /\ map image_url (sanitize (sanitize results))
    = [Some (lit "https://i.pinimg.com/originals/ab/originals/c.jpg")]
  /\ sanitize (sanitize results) <> sanitize results.
Proof.
  split; [reflexivity|split; [reflexivity|]].
  intros H; apply (f_equal (map image_url)) in H.
  vm_compute in H; discriminate.
Qed.

(** C2, amended.  Sanitizing twice equals sanitizing once exactly for
    the lists in which no address has a second thumbnail segment, one
    that starts at or after the closing slash of the leftmost. *)
Theorem sanitize_idempotent_single (results : list SearchResult) :
  forallb single_thumbnail_result results = true <->
  sanitize (sanitize results) = sanitize results.
Proof.
  unfold sanitize; induction results as [|r rs IH]; simpl; [tauto|].
  rewrite andb_true_iff, IH, <- sanitize_result_idempotent_iff; split.
  - intros [-> ->]; reflexivity.
  - intros H; injection H as H1 H2; split; assumption.
Qed.

Lemma sanitize_idempotent_single_witness :
  let results :=
    [mkResult None (Some (lit "https://example.com/236x/abc.jpg")) None;
     mkResult (Some (lit "t")) (Some (lit "https://example.com/abc.jpg")) None] in
  sanitize (sanitize results) = sanitize results.
Proof.
  apply (proj1 (sanitize_idempotent_single _)); reflexivity.
Defined.

(** ** The normalizer *)

Lemma normalize_inv (raw : value) (q : Query) :
  normalize raw = Normal q ->
  exists q0, extract raw = Normal q0 /\ q = apply_defaults q0.
Proof.
  unfold normalize; destruct (extract raw) as [q0|e]; simpl; [|discriminate].
  intros H; injection H as <-; exists q0; split; reflexivity.
Qed.

Lemma apply_defaults_positive (q0 : Query) :
  positive (limit (apply_defaults q0)) = true.
Proof.
  unfold apply_defaults; simpl.
  destruct (limit q0) as [|negative|m e]; simpl; try reflexivity.
  - destruct negative; reflexivity.
  - destruct (Z.leb_spec m 0); simpl; [reflexivity|].
    apply Z.ltb_lt; assumption.
Qed.

Lemma apply_defaults_invalid (q0 : Query) :
  isNaN (limit q0) || le_zero (limit q0) = true ->
  limit (apply_defaults q0) = DEFAULT_SEARCH_LIMIT.
Proof. unfold apply_defaults; simpl; intros ->; reflexivity. Qed.

Lemma apply_defaults_keyword (q0 : Query) :
  keyword (apply_defaults q0) =
  match keyword q0 with [] => DEFAULT_SEARCH_KEYWORD | _ :: _ => keyword q0 end.
Proof. unfold apply_defaults; simpl; destruct (keyword q0); reflexivity. Qed.

Lemma apply_defaults_headless (q0 : Query) :
  headless (apply_defaults q0) = headless q0.
Proof. reflexivity. Qed.

Lemma extract_object (fields : list (str * value)) :
  extract (VObj fields) =
  (k <- object_keyword (VObj fields) [] ;;
   l <- object_limit (VObj fields) DEFAULT_SEARCH_LIMIT ;;
   Normal (mkQuery k l (object_headless (VObj fields) DEFAULT_HEADLESS_MODE))).
Proof. reflexivity. Qed.

Lemma extract_object_inv (fields : list (str * value)) (q0 : Query) :
  extract (VObj fields) = Normal q0 ->
  object_keyword (VObj fields) [] = Normal (keyword q0)
  /\ object_limit (VObj fields) DEFAULT_SEARCH_LIMIT = Normal (limit q0)
  /\ object_headless (VObj fields) DEFAULT_HEADLESS_MODE = headless q0.
Proof.
  rewrite extract_object.
  destruct (object_keyword (VObj fields) []) as [k|]; simpl; [|discriminate].
  destruct (object_limit (VObj fields) DEFAULT_SEARCH_LIMIT) as [l|]; simpl;
    [|discriminate].
  intros H; injection H as <-; repeat split.
Qed.

(** *** Completion *)

Lemma get_convertible (args : value) (key : str) :
  well_formed args = true -> exists s, ToString (get args key) = Normal s.
Proof.
  unfold well_formed, get; generalize (properties args) as fields.
  induction fields as [|[k v] rest IH]; simpl; [eexists; reflexivity|].
  rewrite andb_true_iff; intros [Hv Hrest].
  destruct (str_eqb k key); [|exact (IH Hrest)].
  unfold convertible in Hv; destruct (ToString v) as [s|]; [|discriminate].
  exists s; reflexivity.
Qed.

Lemma number_or_parse_completes (v : value) (s : str) :
  ToString v = Normal s -> exists n, number_or_parse v = Normal n.
Proof.
  intros H; unfold number_or_parse; rewrite H.
  destruct v; simpl; eexists; reflexivity.
Qed.

Lemma is_numeric_completes (v : value) (s : str) :
  ToString v = Normal s -> exists b, is_numeric v = Normal b.
Proof.
  intros H; unfold is_numeric; rewrite H.
  destruct v; simpl; eexists; reflexivity.
Qed.

Lemma object_keyword_completes (args : value) (k0 : str) :
  well_formed args = true -> exists k, object_keyword args k0 = Normal k.
Proof.
  intros Hwf; unfold object_keyword.
  destruct (get_convertible args (backtick (lit "keyword")) Hwf) as [s ->];
    cbn [bind].
  destruct (has_property args (lit "keyword"));
    destruct (get args (lit "keyword"));
    try (eexists; reflexivity);
    destruct (has_property args (backtick (lit "keyword"))); eexists; reflexivity.
Qed.

Lemma object_limit_completes (args : value) (l0 : number) :
  well_formed args = true -> exists l, object_limit args l0 = Normal l.
Proof.
  intros Hwf; unfold object_limit.
  destruct (get_convertible args (lit "limit") Hwf) as [s Hs].
  destruct (get_convertible args (backtick (lit "limit")) Hwf) as [s' Hs'].
  destruct (is_numeric_completes _ _ Hs) as [b ->].
  destruct (number_or_parse_completes _ _ Hs) as [n ->].
  destruct (number_or_parse_completes _ _ Hs') as [n' ->].
  destruct (has_property args (lit "limit")); cbn [bind].
  - destruct b; [eexists; reflexivity|].
    destruct (has_property args (backtick (lit "limit"))); eexists; reflexivity.
  - destruct (has_property args (backtick (lit "limit"))); eexists; reflexivity.
Qed.

(** The normalizer returns on every well-formed argument, and on every
    argument that is not a mapping. *)
Lemma normalize_completes (raw : value) :
  well_formed raw = true -> exists q, normalize raw = Normal q.
Proof.
  intros Hwf; unfold normalize.
  assert (H : exists q0, extract raw = Normal q0).
  { destruct raw as [| |b|n|s|elements|fields].
    - eexists; reflexivity.
    - eexists; reflexivity.
    - destruct b; eexists; reflexivity.
    - unfold extract; cbn [replace_backticks].
      destruct (truthy (VNum n)); eexists; reflexivity.
    - unfold extract; cbn [replace_backticks].
      destruct (truthy (VStr _)); [|eexists; reflexivity].
      destruct (parse_with_repair _); eexists; reflexivity.
    - eexists; reflexivity.
    - rewrite extract_object.
      destruct (object_keyword_completes (VObj fields) [] Hwf) as [k ->].
      destruct (object_limit_completes (VObj fields) DEFAULT_SEARCH_LIMIT Hwf)
        as [l ->].
      eexists; reflexivity. }
  destruct H as [q0 ->]; eexists; reflexivity.
Qed.

Lemma object_keyword_plain (fields : list (str * value)) (s k0 : str) :
  lookup (lit "keyword") fields = Some (VStr s) ->
  object_keyword (VObj fields) k0 = Normal (trim s).
Proof.
  intros H; unfold object_keyword, has_property, get; cbn [properties].
  rewrite H; reflexivity.
Qed.

Lemma object_keyword_none (fields : list (str * value)) (k0 : str) :
  lookup (lit "keyword") fields = None ->
  lookup (backtick (lit "keyword")) fields = None ->
  object_keyword (VObj fields) k0 = Normal k0.
Proof.
  intros H1 H2; unfold object_keyword, has_property, get; cbn [properties].
  rewrite H1, H2; reflexivity.
Qed.

Lemma object_limit_none (args : value) (l0 : number) :
  has_property args (lit "limit") = false ->
  has_property args (backtick (lit "limit")) = false ->
  object_limit args l0 = Normal l0.
Proof. intros H1 H2; unfold object_limit; rewrite H1, H2; reflexivity. Qed.

Lemma object_limit_number (fields : list (str * value)) (n l0 : number) :
  lookup (lit "limit") fields = Some (VNum n) ->
  object_limit (VObj fields) l0 = Normal n.
Proof.
  intros H; unfold object_limit, has_property, get; cbn [properties].
  rewrite H; reflexivity.
Qed.

Lemma extract_mapping (args : value) :
  is_mapping args = true ->
  extract args =
  (k <- object_keyword args [] ;;
   l <- object_limit args DEFAULT_SEARCH_LIMIT ;;
   Normal (mkQuery k l (object_headless args DEFAULT_HEADLESS_MODE))).
Proof. destruct args; try discriminate; reflexivity. Qed.

Lemma extract_mapping_inv (args : value) (q0 : Query) :
  is_mapping args = true ->
  extract args = Normal q0 ->
  object_keyword args [] = Normal (keyword q0)
  /\ object_limit args DEFAULT_SEARCH_LIMIT = Normal (limit q0)
  /\ object_headless args DEFAULT_HEADLESS_MODE = headless q0.
Proof.
  intros Hm; rewrite (extract_mapping _ Hm).
  destruct (object_keyword args []) as [k|]; simpl; [|discriminate].
  destruct (object_limit args DEFAULT_SEARCH_LIMIT) as [l|]; simpl;
    [|discriminate].
  intros H; injection H as <-; repeat split.
Qed.

Lemma extract_other (raw : value) :
  truthy raw = false \/ is_scalar raw = true ->
  extract raw = Normal (mkQuery [] DEFAULT_SEARCH_LIMIT DEFAULT_HEADLESS_MODE).
Proof.
  intros [H|H]; destruct raw as [| |b|n|s|l|f]; try discriminate H;
    try reflexivity;
    try (destruct b; reflexivity);
    try (destruct s; [reflexivity | discriminate H]);
    unfold extract; cbn [replace_backticks];
    destruct (truthy (VNum n)); reflexivity.
Qed.

Lemma object_keyword_text (args : value) (s k0 : str) :
  keyword_text args = Some s -> object_keyword args k0 = Normal (trim s).
Proof.
  unfold keyword_text, object_keyword, has_property, get.
  destruct (lookup (lit "keyword") (properties args)) as [[]|];
    try discriminate.
  intros H; injection H as ->; reflexivity.
Qed.

Lemma object_keyword_other (args : value) (k0 : str) :
  keyword_text args = None ->
  object_keyword args k0 =
  match lookup (backtick (lit "keyword")) (properties args) with
  | Some v => s <- ToString v ;; Normal (trim s)
  | None => Normal k0
  end.
Proof.
  unfold keyword_text, object_keyword, has_property, get.
  destruct (lookup (lit "keyword") (properties args)) as [[]|];
    try discriminate; intros _;
    destruct (lookup (backtick (lit "keyword")) (properties args));
    reflexivity.
Qed.

Lemma parse_with_repair_none (s : str) :
  parse_with_repair s = None <->
  JSON_parse s = None /\ JSON_parse (fixedJson s) = None.
Proof.
  unfold parse_with_repair; destruct (JSON_parse s); split.
  - discriminate.
  - intros [H _]; discriminate H.
  - intros H; split; [reflexivity | exact H].
  - intros [_ H]; exact H.
Qed.

Lemma parsed_keyword (parsed : value) (q : Query) :
  keyword (parsed_fields parsed q) =
  if truthy parsed then
    match keyword_text parsed with
    | Some (c :: r) => trim (c :: r)
    | _ => keyword q
    end
  else keyword q.
Proof.
  unfold parsed_fields, keyword_text, get.
  destruct (truthy parsed); [|reflexivity]; cbn [keyword].
  destruct (lookup (lit "keyword") (properties parsed)) as [[| | | |[|c r]| |]|];
    reflexivity.
Qed.

Lemma regex_keyword (s : str) (q : Query) :
  keyword (regex_fields s q) =
  match group1 keyword_at s with
  | Some (c :: r) => trim (c :: r)
  | _ => keyword q
  end.
Proof.
  unfold regex_fields; cbn [keyword].
  destruct (group1 keyword_at s) as [[|c r]|]; reflexivity.
Qed.

(** C3, as stated, fails on the integer part: a fractional limit is
    positive and is passed through as it is, from a mapping and from a
    text alike. *)
Lemma fractional_limit_kept :
  normalize (VObj [(lit "keyword", VStr (lit "cat"));
                   (lit "limit", VNum (decimal_value false 25 (-1)))])
    = Normal (mkQuery (lit "cat") (decimal_value false 25 (-1)) true)
  /\ normalize (VStr (lit "{'keyword': 'cat', 'limit': 2.5}"))
    = Normal (mkQuery (lit "cat") (decimal_value false 25 (-1)) true)
  /\ is_integer (decimal_value false 25 (-1)) = false.
Proof. vm_compute; repeat split. Qed.

Lemma lookup_some (args : value) (key : str) (v : value) :
  lookup key (properties args) = Some v ->
  has_property args key = true /\ get args key = v.
Proof. unfold has_property, get; intros ->; split; reflexivity. Qed.

Lemma lookup_none (args : value) (key : str) :
  lookup key (properties args) = None ->
  has_property args key = false /\ get args key = VUndefined.
Proof. unfold has_property, get; intros ->; split; reflexivity. Qed.

Lemma parsed_limit (parsed : value) (q : Query) :
  limit (parsed_fields parsed q) =
  if truthy parsed then
    match get parsed (lit "limit") with
    | VNum n => n
    | VStr t => if isNaN (parseInt t None) then limit q
                else parseInt t (Some 10%N)
    | _ => limit q
    end
  else limit q.
Proof.
  unfold parsed_fields; destruct (truthy parsed); [|reflexivity]; cbn [limit].
  destruct (get parsed (lit "limit")); try reflexivity.
  destruct (isNaN (parseInt s None)); reflexivity.
Qed.

Lemma regex_limit (s : str) (q : Query) :
  limit (regex_fields s q) =
  match group1 limit_at s with
  | Some (c :: r) => parseInt (c :: r) (Some 10%N)
  | _ => limit q
  end.
Proof.
  unfold regex_fields; cbn [limit].
  destruct (group1 limit_at s) as [[|c r]|]; reflexivity.
Qed.

Lemma apply_defaults_default (q0 : Query) :
  limit q0 = DEFAULT_SEARCH_LIMIT \/ invalid_limit (limit q0) = true ->
  limit (apply_defaults q0) = DEFAULT_SEARCH_LIMIT.
Proof.
  unfold apply_defaults, invalid_limit; cbn [limit]; intros [H|H].
  - destruct (isNaN (limit q0) || le_zero (limit q0)); [reflexivity | exact H].
  - rewrite H; reflexivity.
Qed.

(** What the handler reads from an input without a usable limit is the
    default, or a number the defaults replace. *)
Lemma no_usable_limit_extract (raw : value) (q0 : Query) :
  no_usable_limit raw -> extract raw = Normal q0 ->
  limit q0 = DEFAULT_SEARCH_LIMIT \/ invalid_limit (limit q0) = true.
Proof.
  intros Hraw H0.
  destruct Hraw as [raw Hf|raw Hs|args Hm Hp Hb|args v n Hm Hp Hn Hv Hi
                   |args v Hm Hp Hn Hb|args v n Hm Hp Hb Hv Hi
                   |s parsed Hj Hk|s parsed n Hj Hg Hi|s parsed t Hj Hg Hn
                   |s parsed t Hj Hg Hn Hi|s Hj Hf Hg|s g Hj Hf Hg Hi].
  - rewrite extract_other in H0 by (left; exact Hf).
    injection H0 as <-; left; reflexivity.
  - rewrite extract_other in H0 by (right; exact Hs).
    injection H0 as <-; left; reflexivity.
  - destruct (extract_mapping_inv _ _ Hm H0) as (_ & Hl & _).
    destruct (lookup_none _ _ Hp) as [Hp1 _].
    destruct (lookup_none _ _ Hb) as [Hb1 _].
    rewrite (object_limit_none _ _ Hp1 Hb1) in Hl.
    injection Hl as <-; left; reflexivity.
  - destruct (extract_mapping_inv _ _ Hm H0) as (_ & Hl & _).
    destruct (lookup_some _ _ _ Hp) as [Hp1 Hp2].
    unfold object_limit in Hl; rewrite Hp1, Hp2, Hn in Hl; cbn [bind] in Hl.
    rewrite Hv in Hl; injection Hl as <-; right; exact Hi.
  - destruct (extract_mapping_inv _ _ Hm H0) as (_ & Hl & _).
    destruct (lookup_some _ _ _ Hp) as [Hp1 Hp2].
    destruct (lookup_none _ _ Hb) as [Hb1 _].
    unfold object_limit in Hl; rewrite Hp1, Hp2, Hn, Hb1 in Hl; cbn [bind] in Hl.
    injection Hl as <-; left; reflexivity.
  - destruct (extract_mapping_inv _ _ Hm H0) as (_ & Hl & _).
    destruct (lookup_some _ _ _ Hb) as [Hb1 Hb2].
    assert (E : object_limit args DEFAULT_SEARCH_LIMIT = Normal n).
    { unfold object_limit; destruct Hp as [Hp|(u & Hp & Hu)].
      - destruct (lookup_none _ _ Hp) as [-> _]; cbn [bind].
        rewrite Hb1, Hb2; exact Hv.
      - destruct (lookup_some _ _ _ Hp) as [-> ->]; rewrite Hu; cbn [bind].
        rewrite Hb1, Hb2; exact Hv. }
    rewrite E in Hl; injection Hl as <-; right; exact Hi.
  - unfold extract in H0; cbn [replace_backticks] in H0.
    destruct (truthy (VStr _)); [|injection H0 as <-; left; reflexivity].
    rewrite Hj in H0; injection H0 as <-.
    rewrite parsed_limit; left.
    destruct Hk as [-> | Hk]; [reflexivity|].
    destruct (truthy parsed); [|reflexivity].
    destruct (get parsed (lit "limit")); try reflexivity; discriminate Hk.
  - unfold extract in H0; cbn [replace_backticks] in H0.
    destruct (truthy (VStr _)); [|injection H0 as <-; left; reflexivity].
    rewrite Hj in H0; injection H0 as <-.
    rewrite parsed_limit, Hg.
    destruct (truthy parsed); [right; exact Hi | left; reflexivity].
  - unfold extract in H0; cbn [replace_backticks] in H0.
    destruct (truthy (VStr _)); [|injection H0 as <-; left; reflexivity].
    rewrite Hj in H0; injection H0 as <-.
    rewrite parsed_limit, Hg, Hn; left.
    destruct (truthy parsed); reflexivity.
  - unfold extract in H0; cbn [replace_backticks] in H0.
    destruct (truthy (VStr _)); [|injection H0 as <-; left; reflexivity].
    rewrite Hj in H0; injection H0 as <-.
    rewrite parsed_limit, Hg, Hn.
    destruct (truthy parsed); [right; exact Hi | left; reflexivity].
  - unfold extract in H0; cbn [replace_backticks] in H0.
    destruct (truthy (VStr _)); [|injection H0 as <-; left; reflexivity].
    rewrite (proj2 (parse_with_repair_none _) (conj Hj Hf)) in H0.
    injection H0 as <-; change 96%N with (ch "`").
    rewrite regex_limit, Hg; left; reflexivity.
  - unfold extract in H0; cbn [replace_backticks] in H0.
    destruct (truthy (VStr _)); [|injection H0 as <-; left; reflexivity].
    rewrite (proj2 (parse_with_repair_none _) (conj Hj Hf)) in H0.
    injection H0 as <-; change 96%N with (ch "`").
    rewrite regex_limit, Hg.
    destruct g; [left; reflexivity | right; exact Hi].
Qed.

(** The class is complete: every input from which the handler reads
    NaN, zero or a negative number is one of its shapes. *)
Lemma no_usable_limit_complete (raw : value) (q0 : Query) :
  extract raw = Normal q0 -> invalid_limit (limit q0) = true ->
  no_usable_limit raw.
Proof.
  intros H0 Hi.
  assert (Hm : forall args, is_mapping args = true ->
                 extract args = Normal q0 -> no_usable_limit args).
  { intros args Hm H.
    destruct (extract_mapping_inv _ _ Hm H) as (_ & Hl & _).
    unfold object_limit in Hl.
    destruct (lookup (lit "limit") (properties args)) as [v|] eqn:P.
    - destruct (lookup_some _ _ _ P) as [Hp1 Hp2]; rewrite Hp1, Hp2 in Hl.
      destruct (is_numeric v) as [[|]|] eqn:N; try discriminate Hl;
        cbn [bind] in Hl.
      + apply (limit_invalid args v (limit q0) Hm P N Hl Hi).
      + destruct (lookup (backtick (lit "limit")) (properties args))
          as [w|] eqn:B.
        * destruct (lookup_some _ _ _ B) as [Hb1 Hb2]; rewrite Hb1, Hb2 in Hl.
          apply (backtick_limit_invalid args w (limit q0) Hm); try assumption.
          right; exists v; split; [exact P | exact N].
        * apply (limit_not_numeric args v Hm P N B).
    - destruct (lookup_none _ _ P) as [Hp1 _]; rewrite Hp1 in Hl;
        cbn [bind] in Hl.
      destruct (lookup (backtick (lit "limit")) (properties args))
        as [w|] eqn:B.
      + destruct (lookup_some _ _ _ B) as [Hb1 Hb2]; rewrite Hb1, Hb2 in Hl.
        apply (backtick_limit_invalid args w (limit q0) Hm); try assumption.
        left; exact P.
      + apply (limit_missing args Hm P B). }
  destruct raw as [| |b|n|s|l|f];
    try (apply limit_raw_absent; reflexivity);
    try (apply limit_raw_scalar; reflexivity);
    try (apply Hm; [reflexivity | exact H0]).
  unfold extract in H0; cbn [replace_backticks] in H0.
  destruct s as [|c s]; [apply limit_raw_absent; reflexivity|].
  change (truthy (VStr (replace_char (ch "`") dquote (c :: s)))) with true in H0.
  cbv iota in H0.
  remember (replace_char (ch "`") dquote (c :: s)) as s' eqn:Es'.
  destruct (parse_with_repair s') as [parsed|] eqn:P; injection H0 as <-.
  - rewrite parsed_limit in Hi.
    destruct (truthy parsed) eqn:T;
      [|subst s'; apply (text_without_limit _ parsed P); left; exact T].
    destruct (get parsed (lit "limit")) as [| |b|n|t|l|f] eqn:G;
      try (subst s'; apply (text_without_limit _ parsed P); right;
           rewrite G; reflexivity).
    + subst s'; apply (text_limit_invalid _ parsed n P G Hi).
    + destruct (isNaN (parseInt t None)) eqn:N.
      * subst s'; apply (text_limit_not_numeric _ parsed t P G N).
      * subst s'; apply (text_limit_text_invalid _ parsed t P G N Hi).
  - apply parse_with_repair_none in P as [Hj Hf].
    rewrite regex_limit in Hi.
    destruct (group1 limit_at s') as [g|] eqn:G;
      [|subst s'; apply text_no_limit; assumption].
    subst s'; apply (text_limit_zero _ g Hj Hf G).
    destruct g; [discriminate Hi | exact Hi].
Qed.

(** C3, amended.  Whenever the normalizer returns, its limit is a
    positive number, not necessarily a whole one; whenever the limit
    read from the argument is NaN, zero or negative, the limit is the
    default 10; so it is on every input without a usable limit, a
    mapping or a text alike: one that carries no limit, or one whose
    limit is not numeric, zero or negative; and the normalizer returns
    on every well-formed argument. *)
Theorem normalized_limit_positive (raw : value) :
  (forall q, normalize raw = Normal q -> positive (limit q) = true)
  /\ (forall q0, extract raw = Normal q0 ->
      isNaN (limit q0) || le_zero (limit q0) = true ->
      exists q, normalize raw = Normal q /\ limit q = DEFAULT_SEARCH_LIMIT)
  /\ (no_usable_limit raw ->
      forall q, normalize raw = Normal q -> limit q = DEFAULT_SEARCH_LIMIT)
  /\ (well_formed raw = true -> exists q, normalize raw = Normal q).
Proof.
  split; [|split; [|split]].
  - intros q H; destruct (normalize_inv _ _ H) as (q0 & _ & ->).
    apply apply_defaults_positive.
  - intros q0 H Hbad; exists (apply_defaults q0); split.
    + unfold normalize; rewrite H; reflexivity.
    + apply apply_defaults_invalid; exact Hbad.
  - intros Hraw q H; destruct (normalize_inv _ _ H) as (q0 & H0 & ->).
    apply apply_defaults_default, (no_usable_limit_extract raw q0 Hraw H0).
  - apply normalize_completes.
Qed.

Lemma normalized_limit_positive_witness :
  (exists q, normalize (VObj [(backtick (lit "limit"), VStr (lit "abc"))]) = Normal q
             /\ limit q = DEFAULT_SEARCH_LIMIT)
  /\ (forall q, normalize (VObj [(lit "limit", VNum (of_Z (-3)))]) = Normal q ->
      limit q = DEFAULT_SEARCH_LIMIT)
  /\ (forall q, normalize (VObj [(lit "keyword", VStr (lit "cat"))]) = Normal q ->
      limit q = DEFAULT_SEARCH_LIMIT)
  /\ (forall q, normalize (VObj [(lit "limit", VStr (lit "many"))]) = Normal q ->
      limit q = DEFAULT_SEARCH_LIMIT)
  /\ (forall q, normalize (VStr (lit "{'keyword': 'cat'}")) = Normal q ->
      limit q = DEFAULT_SEARCH_LIMIT)
  /\ (forall q, normalize (VStr (lit "{'keyword': 'cat', 'limit': 'many'}"))
                = Normal q ->
      limit q = DEFAULT_SEARCH_LIMIT)
  /\ (forall q, normalize (VStr (lit "{'keyword': 'cat', 'limit': -2}"))
                = Normal q ->
      limit q = DEFAULT_SEARCH_LIMIT)
  /\ (forall q, normalize (VStr (lit "{'keyword': 'cat', 'limit': 1e-400}"))
                = Normal q ->
      limit q = DEFAULT_SEARCH_LIMIT)
  /\ (forall q, normalize (VStr (lit "keyword = 'cat'")) = Normal q ->
      limit q = DEFAULT_SEARCH_LIMIT)
  /\ (forall q, normalize (VStr (lit "keyword = 'cat', limit = 0")) = Normal q ->
      limit q = DEFAULT_SEARCH_LIMIT)
  /\ (forall q, normalize (VObj [(lit "limit", VNum (of_Z 7))]) = Normal q ->
      positive (limit q) = true).
Proof.
  repeat split.
  - apply (proj1 (proj2 (normalized_limit_positive
                           (VObj [(backtick (lit "limit"), VStr (lit "abc"))])))
             (mkQuery [] NaN true)); reflexivity.
  - apply (proj1 (proj2 (proj2 (normalized_limit_positive
                                  (VObj [(lit "limit", VNum (of_Z (-3)))]))))).
    apply (limit_invalid _ (VNum (of_Z (-3))) (of_Z (-3))); reflexivity.
  - apply (proj1 (proj2 (proj2 (normalized_limit_positive
                                  (VObj [(lit "keyword", VStr (lit "cat"))]))))).
    apply limit_missing; reflexivity.
  - apply (proj1 (proj2 (proj2 (normalized_limit_positive
                                  (VObj [(lit "limit", VStr (lit "many"))]))))).
    apply (limit_not_numeric _ (VStr (lit "many"))); reflexivity.
  - apply (proj1 (proj2 (proj2 (normalized_limit_positive
                                  (VStr (lit "{'keyword': 'cat'}")))))).
    apply (text_without_limit _ (VObj [(lit "keyword", VStr (lit "cat"))]));
      [vm_compute; reflexivity | right; reflexivity].
  - apply (proj1 (proj2 (proj2 (normalized_limit_positive
             (VStr (lit "{'keyword': 'cat', 'limit': 'many'}")))))).
    apply (text_limit_not_numeric _
             (VObj [(lit "keyword", VStr (lit "cat"));
                    (lit "limit", VStr (lit "many"))]) (lit "many"));
      [vm_compute; reflexivity | reflexivity | reflexivity].
  - apply (proj1 (proj2 (proj2 (normalized_limit_positive
             (VStr (lit "{'keyword': 'cat', 'limit': -2}")))))).
    apply (text_limit_invalid _
             (VObj [(lit "keyword", VStr (lit "cat"));
                    (lit "limit", VNum (of_Z (-2)))]) (of_Z (-2)));
      [vm_compute; reflexivity | reflexivity | reflexivity].
  - apply (proj1 (proj2 (proj2 (normalized_limit_positive
             (VStr (lit "{'keyword': 'cat', 'limit': 1e-400}")))))).
    apply (text_limit_invalid _
             (VObj [(lit "keyword", VStr (lit "cat"));
                    (lit "limit", VNum (of_Z 0))]) (of_Z 0));
      [vm_compute; reflexivity | reflexivity | reflexivity].
  - apply (proj1 (proj2 (proj2 (normalized_limit_positive
                                  (VStr (lit "keyword = 'cat'")))))).
    apply text_no_limit; reflexivity.
  - apply (proj1 (proj2 (proj2 (normalized_limit_positive
                                  (VStr (lit "keyword = 'cat', limit = 0")))))).
    apply (text_limit_zero _ (lit "0")); reflexivity.
  - apply (proj1 (normalized_limit_positive (VObj [(lit "limit", VNum (of_Z 7))]))).
Defined.

(** C4, as stated, fails: a keyword of white space only is a non-empty
    text, and the output is the default keyword, not the trimmed text. *)
Lemma blank_keyword_defaulted :
  let fields := [(lit "keyword", VStr (lit "  "))] in
  lookup (lit "keyword") fields = Some (VStr (lit "  "))
  /\ lit "  " <> []
  /\ well_formed (VObj fields) = true
  /\ normalize (VObj fields) = Normal (mkQuery (lit "landscape") (of_Z 10) true)
  /\ lit "landscape" <> trim (lit "  ").
Proof. repeat split; discriminate. Qed.

(** C4, amended.  For a mapping whose keyword field is a text that is
    not empty once trimmed, the output keyword is the trimmed text; the
    normalizer returns it whenever the mapping is well-formed. *)
Theorem keyword_is_trimmed (fields : list (str * value)) (s : str) :
  lookup (lit "keyword") fields = Some (VStr s) ->
  trim s <> [] ->
  (forall q, normalize (VObj fields) = Normal q -> keyword q = trim s)
  /\ (well_formed (VObj fields) = true ->
      exists q, normalize (VObj fields) = Normal q /\ keyword q = trim s).
Proof.
  intros Hk Hne.
  assert (Hall : forall q, normalize (VObj fields) = Normal q -> keyword q = trim s).
  { intros q H; destruct (normalize_inv _ _ H) as (q0 & H0 & ->).
    destruct (extract_object_inv _ _ H0) as (Hkw & _).
    rewrite (object_keyword_plain _ _ _ Hk) in Hkw; injection Hkw as Hkw.
    rewrite apply_defaults_keyword, <- Hkw.
    destruct (trim s); [contradiction | reflexivity]. }
  split; [exact Hall|].
  intros Hwf; destruct (normalize_completes _ Hwf) as [q Hq].
  exists q; split; [exact Hq | exact (Hall q Hq)].
Qed.

Lemma keyword_is_trimmed_witness :
  exists q,
    normalize (VObj [(lit "keyword", VStr (lit "  red fox "));
                     (lit "limit", VNum (of_Z 3))]) = Normal q
    /\ keyword q = trim (lit "  red fox ").
Proof.
  apply (keyword_is_trimmed
           [(lit "keyword", VStr (lit "  red fox ")); (lit "limit", VNum (of_Z 3))]
           (lit "  red fox ")); [reflexivity | discriminate | reflexivity].
Defined.

Lemma normalize_string (s : str) :
  normalize (VStr s) =
  Normal (apply_defaults
    (let s' := replace_char (ch "`") dquote s in
     let q := mkQuery [] DEFAULT_SEARCH_LIMIT DEFAULT_HEADLESS_MODE in
     match s' with
     | [] => q
     | _ :: _ =>
         match parse_with_repair s' with
         | Some parsed => parsed_fields parsed q
         | None => regex_fields s' q
         end
     end)).
Proof.
  unfold normalize, extract; cbn [replace_backticks truthy].
  destruct (replace_char (ch "`") dquote s); [reflexivity|].
  cbn [truthy]; destruct (parse_with_repair _); reflexivity.
Qed.

(** What the handler reads from an input without a usable keyword is
    the empty keyword. *)
Lemma no_usable_keyword_extract (raw : value) (q0 : Query) :
  no_usable_keyword raw -> extract raw = Normal q0 -> keyword q0 = [].
Proof.
  intros Hraw H0.
  destruct Hraw as [raw Hf|raw Hs|args Hm Hp Hb|args s Hm Hp Ht
                   |args v s Hm Hp Hb Hv Ht|s parsed Hj Hk|s parsed k Hj Hk Ht
                   |s Hj Hf Hg|s g Hj Hf Hg Ht].
  - rewrite extract_other in H0 by (left; exact Hf).
    injection H0 as <-; reflexivity.
  - rewrite extract_other in H0 by (right; exact Hs).
    injection H0 as <-; reflexivity.
  - destruct (extract_mapping_inv _ _ Hm H0) as (Hkw & _).
    rewrite (object_keyword_other _ _ Hp), Hb in Hkw.
    injection Hkw as <-; reflexivity.
  - destruct (extract_mapping_inv _ _ Hm H0) as (Hkw & _).
    rewrite (object_keyword_text _ _ _ Hp) in Hkw.
    injection Hkw as <-; exact Ht.
  - destruct (extract_mapping_inv _ _ Hm H0) as (Hkw & _).
    rewrite (object_keyword_other _ _ Hp), Hb, Hv in Hkw; cbn [bind] in Hkw.
    injection Hkw as <-; exact Ht.
  - unfold extract in H0; cbn [replace_backticks] in H0.
    destruct (truthy (VStr _)); [|injection H0 as <-; reflexivity].
    rewrite Hj in H0; injection H0 as <-.
    rewrite parsed_keyword.
    destruct Hk as [-> | ->]; [reflexivity|].
    destruct (truthy parsed); reflexivity.
  - unfold extract in H0; cbn [replace_backticks] in H0.
    destruct (truthy (VStr _)); [|injection H0 as <-; reflexivity].
    rewrite Hj in H0; injection H0 as <-.
    rewrite parsed_keyword, Hk.
    destruct (truthy parsed); [|reflexivity].
    destruct k; [reflexivity | exact Ht].
  - unfold extract in H0; cbn [replace_backticks] in H0.
    destruct (truthy (VStr _)); [|injection H0 as <-; reflexivity].
    rewrite (proj2 (parse_with_repair_none _) (conj Hj Hf)) in H0.
    injection H0 as <-; change 96%N with (ch "`").
    rewrite regex_keyword, Hg; reflexivity.
  - unfold extract in H0; cbn [replace_backticks] in H0.
    destruct (truthy (VStr _)); [|injection H0 as <-; reflexivity].
    rewrite (proj2 (parse_with_repair_none _) (conj Hj Hf)) in H0.
    injection H0 as <-; change 96%N with (ch "`").
    rewrite regex_keyword, Hg.
    destruct g; [reflexivity | exact Ht].
Qed.

(** The class is complete: every input from which the handler reads the
    empty keyword is one of its shapes. *)
Lemma no_usable_keyword_complete (raw : value) (q0 : Query) :
  extract raw = Normal q0 -> keyword q0 = [] -> no_usable_keyword raw.
Proof.
  intros H0 Hk.
  destruct raw as [| |b|n|s|l|f];
    try (apply raw_absent; reflexivity);
    try (apply raw_scalar; reflexivity).
  - unfold extract in H0; cbn [replace_backticks] in H0.
    destruct s as [|c s]; [apply raw_absent; reflexivity|].
    change (truthy (VStr (replace_char (ch "`") dquote (c :: s)))) with true in H0.
    cbv iota in H0.
    remember (replace_char (ch "`") dquote (c :: s)) as s' eqn:Es'.
    destruct (parse_with_repair s') as [parsed|] eqn:P; injection H0 as <-.
    + rewrite parsed_keyword in Hk.
      destruct (truthy parsed) eqn:T;
        [|subst s'; apply (text_without_keyword _ parsed P); left; exact T].
      destruct (keyword_text parsed) as [k|] eqn:K;
        [|subst s'; apply (text_without_keyword _ parsed P); right; exact K].
      subst s'; apply (text_keyword_blank _ parsed k P K).
      destruct k; [reflexivity | exact Hk].
    + apply parse_with_repair_none in P as [Hj Hf].
      rewrite regex_keyword in Hk.
      destruct (group1 keyword_at s') as [g|] eqn:G;
        [|subst s'; apply text_unparseable; assumption].
      subst s'; apply (text_match_blank _ g Hj Hf G).
      destruct g; [reflexivity | exact Hk].
  - destruct (extract_mapping_inv (VArr l) _ eq_refl H0) as (Hkw & _).
    apply keyword_absent; reflexivity.
  - destruct (extract_mapping_inv (VObj f) _ eq_refl H0) as (Hkw & _).
    destruct (keyword_text (VObj f)) as [s|] eqn:K.
    + rewrite (object_keyword_text _ _ _ K) in Hkw; injection Hkw as Hkw.
      apply (keyword_blank (VObj f) s eq_refl K); congruence.
    + rewrite (object_keyword_other _ _ K) in Hkw.
      destruct (lookup (backtick (lit "keyword")) (properties (VObj f)))
        as [v|] eqn:B; [|apply keyword_absent; [reflexivity | exact K | exact B]].
      destruct (ToString v) as [s|] eqn:V; [|discriminate Hkw].
      cbn [bind] in Hkw; injection Hkw as Hkw.
      apply (backtick_keyword_blank (VObj f) v s eq_refl K B V); congruence.
Qed.

(** C7.  An input without a usable keyword gets the default keyword
    [landscape], and the normalizer returns on it whenever it is
    well-formed.  The inputs are: no argument ([undefined], [null], a
    falsy value) or a number or boolean; a mapping with no text under
    the keyword field and nothing under the backtick-wrapped one; a
    mapping whose keyword, under either spelling, is blank once trimmed;
    a text that parses to a value with no text as its keyword, or a
    blank one; a text that neither parse accepts and in which the
    keyword expression finds nothing, or a blank text. *)
Theorem default_keyword (raw : value) :
  no_usable_keyword raw ->
  (forall q, normalize raw = Normal q -> keyword q = DEFAULT_SEARCH_KEYWORD)
  /\ (well_formed raw = true ->
      exists q, normalize raw = Normal q /\ keyword q = DEFAULT_SEARCH_KEYWORD).
Proof.
  intros Hraw.
  assert (Hall : forall q, normalize raw = Normal q ->
                           keyword q = DEFAULT_SEARCH_KEYWORD).
  { intros q H; destruct (normalize_inv _ _ H) as (q0 & H0 & ->).
    rewrite apply_defaults_keyword.
    rewrite (no_usable_keyword_extract raw q0 Hraw H0); reflexivity. }
  split; [exact Hall|].
  intros Hwf; destruct (normalize_completes _ Hwf) as [q Hq].
  exists q; split; [exact Hq | exact (Hall q Hq)].
Qed.

Lemma default_keyword_witness :
  (exists q, normalize (VStr (lit "show me some cats")) = Normal q
             /\ keyword q = DEFAULT_SEARCH_KEYWORD)
  /\ (exists q, normalize (VObj [(lit "limit", VNum (of_Z 4))]) = Normal q
                /\ keyword q = DEFAULT_SEARCH_KEYWORD)
  /\ (exists q, normalize (VObj [(lit "keyword", VNum (of_Z 42))]) = Normal q
                /\ keyword q = DEFAULT_SEARCH_KEYWORD)
  /\ (exists q, normalize (VObj [(backtick (lit "keyword"), VStr (lit "  "))])
                = Normal q
                /\ keyword q = DEFAULT_SEARCH_KEYWORD)
  /\ (exists q, normalize (VStr (lit "{'limit': 3}")) = Normal q
                /\ keyword q = DEFAULT_SEARCH_KEYWORD)
  /\ (exists q, normalize (VStr (lit "{'keyword': ' ', 'limit': 3}")) = Normal q
                /\ keyword q = DEFAULT_SEARCH_KEYWORD)
  /\ (exists q, normalize (VStr (lit "keyword = ' '")) = Normal q
                /\ keyword q = DEFAULT_SEARCH_KEYWORD)
  /\ (exists q, normalize (VNum (of_Z 7)) = Normal q
                /\ keyword q = DEFAULT_SEARCH_KEYWORD)
  /\ (exists q, normalize (VArr [VStr (lit "cat")]) = Normal q
                /\ keyword q = DEFAULT_SEARCH_KEYWORD).
Proof.
  repeat split.
  - apply (default_keyword (VStr (lit "show me some cats")));
      [apply text_unparseable; reflexivity | reflexivity].
  - apply (default_keyword (VObj [(lit "limit", VNum (of_Z 4))]));
      [apply keyword_absent; reflexivity | reflexivity].
  - apply (default_keyword (VObj [(lit "keyword", VNum (of_Z 42))]));
      [apply keyword_absent; reflexivity | reflexivity].
  - apply (default_keyword (VObj [(backtick (lit "keyword"), VStr (lit "  "))]));
      [apply (backtick_keyword_blank _ (VStr (lit "  ")) (lit "  ")); reflexivity
      | reflexivity].
  - apply (default_keyword (VStr (lit "{'limit': 3}")));
      [apply (text_without_keyword _ (VObj [(lit "limit", VNum (of_Z 3))]));
         [vm_compute; reflexivity | right; reflexivity]
      | reflexivity].
  - apply (default_keyword (VStr (lit "{'keyword': ' ', 'limit': 3}")));
      [apply (text_keyword_blank _
                (VObj [(lit "keyword", VStr (lit " "));
                       (lit "limit", VNum (of_Z 3))]) (lit " "));
         [vm_compute; reflexivity | reflexivity | reflexivity]
      | reflexivity].
  - apply (default_keyword (VStr (lit "keyword = ' '")));
      [apply (text_match_blank _ (lit " ")); reflexivity | reflexivity].
  - apply (default_keyword (VNum (of_Z 7)));
      [apply raw_scalar; reflexivity | reflexivity].
  - apply (default_keyword (VArr [VStr (lit "cat")]));
      [apply keyword_absent; reflexivity | reflexivity].
Defined.

(** C8.  On the text with backtick-wrapped keys and keyword, every
    backtick is first replaced by a double quote; the strict parse and
    the parse of the repaired text both fail; the two expressions then
    find [sunset] and [5], and the result is the keyword [sunset], the
    limit 5 and the default headless flag. *)
Theorem backtick_text_example :
  let input := lit "`keyword`: `sunset`, `limit`: 5" in
  let replaced :=
    dquote :: lit "keyword" ++ dquote :: lit ": " ++ dquote :: lit "sunset"
      ++ dquote :: lit ", " ++ dquote :: lit "limit" ++ dquote :: lit ": 5" in
  replace_backticks (VStr input) = VStr replaced
  /\ JSON_parse replaced = None
  /\ fixedJson replaced = replaced
  /\ group1 keyword_at replaced = Some (lit "sunset")
  /\ group1 limit_at replaced = Some (lit "5")
  /\ normalize (VStr input) = Normal (mkQuery (lit "sunset") (of_Z 5) true).
Proof. repeat split. Qed.

(** Replacing leaves no backtick and changes no other character. *)
Lemma replace_backticks_spec (s : str) :
  ~ In (ch "`") (replace_char (ch "`") dquote s)
  /\ length (replace_char (ch "`") dquote s) = length s
  /\ forall i c, nth_error s i = Some c ->
       nth_error (replace_char (ch "`") dquote s) i
       = Some (if (c =? ch "`")%N then dquote else c).
Proof.
  unfold replace_char; repeat split.
  - rewrite in_map_iff; intros (x & Hx & _).
    destruct (N.eqb_spec x (ch "`")); [discriminate | congruence].
  - apply length_map.
  - induction s as [|x s IH]; intros [|i] c H; simpl in *; try discriminate.
    + injection H as ->; reflexivity.
    + exact (IH i c H).
Qed.



(** ** Output shaping *)

Lemma forEach_entries (total : nat) (rest : list SearchResult) :
  forall index acc,
    index + length rest = total ->
    forEach total rest index acc = acc ++ entries has_page index rest.
Proof.
  induction rest as [|r rest IH]; intros index acc Hlen; simpl.
  - rewrite app_nil_r; reflexivity.
  - simpl in Hlen.
    rewrite IH by lia.
    unfold push_result.
    destruct rest as [|r' rest].
    + simpl in Hlen.
      replace (index <? total - 1) with false
        by (symmetry; apply Nat.ltb_ge; lia).
      destruct (has_page r); simpl; rewrite <- ?app_assoc; simpl;
        rewrite ?app_nil_r; reflexivity.
    + simpl in Hlen.
      replace (index <? total - 1) with true
        by (symmetry; apply Nat.ltb_lt; lia).
      destruct (has_page r); rewrite <- !app_assoc; reflexivity.
Qed.

(** C9, as stated, fails: a result without a link has a link that
    differs from its image address, and gets no page block. *)
Lemma page_block_needs_link :
  let result := mkResult (Some (lit "a")) (Some (lit "http://x/a.jpg")) None in
  link_differs result = true
  /\ contentItems (sanitize [result]) (lit "cat")
     = [summary_item 1 (lit "cat"); title_item 0 result; link_item result]
  /\ contentItems (sanitize [result]) (lit "cat")
     <> layout link_differs (sanitize [result]) (lit "cat").
Proof.
  split; [reflexivity|split; [reflexivity|]].
  intros H; apply (f_equal (@length ContentItem)) in H; discriminate.
Qed.

(** C9, amended.  The content is the summary block, then for each result
    in order a title block, a link block, a page block exactly when the
    result has a non-empty link that differs from its image address, and
    a separator between two results, none after the last; this holds for
    every list, the sanitized list the handler shapes among them. *)
Theorem content_layout (results : list SearchResult) (kw : str) :
  contentItems results kw = layout has_page results kw
  /\ (forall result,
        has_page result = truthy_text (link result) && link_differs result)
  /\ (forall scraper q,
        content (search_response scraper q)
        = layout has_page
            (sanitize (validResults (scraper (keyword q) (limit q) (headless q))))
            (keyword q)).
Proof.
  assert (H : forall rs kw, contentItems rs kw = layout has_page rs kw).
  { intros rs k; unfold contentItems, layout.
    rewrite forEach_entries by reflexivity; reflexivity. }
  split; [apply H | split; [reflexivity|]].
  intros scraper q; unfold search_response; cbn [content]; apply H.
Qed.

(** ** The search handler *)

Lemma starts_with_prefix (p b : str) : starts_with (p ++ b) p = true.
Proof.
  induction p as [|x p IH]; simpl; [destruct b; reflexivity|].
  rewrite N.eqb_refl; exact IH.
Qed.

(** C5, as stated, fails on the wording of the summary: the text goes on
    after the keyword. *)
Lemma empty_summary_text :
  let scraper : Scraper := fun _ _ _ => ReturnsOther in
  map text (content (handlePinterestSearch scraper (VObj [])))
    = [lit "Found 0 images related to " ++ dquote :: lit "landscape"
         ++ dquote :: lit " on Pinterest"]
  /\ map text (content (handlePinterestSearch scraper (VObj [])))
     <> [lit "Found 0 images related to " ++ dquote :: lit "landscape"
           ++ [dquote]].
Proof. split; [reflexivity|]. intros H; vm_compute in H; discriminate. Qed.

(** C5, amended.  When the collaborator throws or returns something that
    is not a sequence, the handler answers with the summary of an empty
    result set and nothing else; with empty arguments and a collaborator
    that returns nothing the summary reads
    [Found 0 images related to "landscape" on Pinterest]. *)
Theorem failed_search_gives_empty_summary (scraper : Scraper) (args : value)
  (q : Query) :
  normalize args = Normal q ->
  (collaborator_fails (scraper (keyword q) (limit q) (headless q)) = true ->
   handlePinterestSearch scraper args = mkResponse [summary_item 0 (keyword q)]
   /\ text (summary_item 0 (keyword q))
      = lit "Found 0 images related to " ++ dquote :: keyword q
          ++ dquote :: lit " on Pinterest"
   /\ starts_with (text (summary_item 0 (keyword q)))
        (lit "Found 0 images related to " ++ dquote :: keyword q ++ [dquote])
      = true)
  /\ (args = VObj [] ->
      returns_nothing (scraper (keyword q) (limit q) (headless q)) = true ->
      handlePinterestSearch scraper args
      = mkResponse
          [text_item (lit "Found 0 images related to " ++ dquote :: lit "landscape"
                        ++ dquote :: lit " on Pinterest")]).
Proof.
  intros Hq; unfold handlePinterestSearch; rewrite Hq; unfold search_response.
  split.
  - intros Hf.
    destruct (scraper (keyword q) (limit q) (headless q)); try discriminate;
      (split; [reflexivity|split; [reflexivity|]]);
      (replace (text (summary_item 0 (keyword q)))
         with ((lit "Found 0 images related to " ++ dquote :: keyword q ++ [dquote])
               ++ lit " on Pinterest");
       [apply starts_with_prefix
       |simpl; rewrite <- app_assoc; reflexivity]).
  - intros -> Hn; injection Hq as <-.
    destruct (scraper _ _ _) as [| |[|r rs]]; try discriminate; reflexivity.
Qed.

Lemma failed_search_gives_empty_summary_witness :
  handlePinterestSearch (fun _ _ _ => Raises) (VObj [(lit "keyword", VStr (lit "cat"))])
  = mkResponse [summary_item 0 (lit "cat")]
  /\ handlePinterestSearch (fun _ _ _ => ReturnsArray []) (VObj [])
     = mkResponse
         [text_item (lit "Found 0 images related to " ++ dquote :: lit "landscape"
                       ++ dquote :: lit " on Pinterest")].
Proof.
  split.
  - apply (proj1 (failed_search_gives_empty_summary
                    (fun _ _ _ => Raises) (VObj [(lit "keyword", VStr (lit "cat"))])
                    (mkQuery (lit "cat") (of_Z 10) true) eq_refl)).
    reflexivity.
  - apply (proj2 (failed_search_gives_empty_summary
                    (fun _ _ _ => ReturnsArray []) (VObj [])
                    (mkQuery (lit "landscape") (of_Z 10) true) eq_refl));
      reflexivity.
Defined.

(** ** The dispatcher *)

(** C1.  The error thrown for an unknown tool name is caught by the
    handler's own [catch] and replaced: what reaches the caller carries
    the internal-error code, with the method-not-found error quoted in
    its message, and no response. *)
Theorem unknown_tool_surfaces_internal_error (scraper : Scraper)
  (info : value -> ToolResponse) :
  dispatch scraper info (mkRequest (lit "unknown_tool") VUndefined (VObj []))
  = inl (new_McpError MethodNotFound (lit "Unknown tool: unknown_tool"))
  /\ call_tool scraper info (mkRequest (lit "unknown_tool") VUndefined (VObj []))
    = inl (mkMcpError InternalError
             (lit "MCP error -32603: Tool call failed: MCP error -32601: Unknown tool: unknown_tool"))
  /\ forall request,
       match call_tool scraper info request with
       | inl error =>
           code error = InternalError
           /\ str_eqb (name request) (lit "pinterest_search") = false
           /\ str_eqb (name request) (lit "pinterest_get_image_info") = false
       | inr _ =>
           str_eqb (name request) (lit "pinterest_search")
           || str_eqb (name request) (lit "pinterest_get_image_info") = true
       end.
Proof.
  split; [reflexivity|split; [reflexivity|]].
  intros request; unfold call_tool, dispatch.
  destruct (str_eqb (name request) (lit "pinterest_search")); [reflexivity|].
  destruct (str_eqb (name request) (lit "pinterest_get_image_info"));
    [reflexivity|].
  repeat split.
Qed.

(** ** JSON.parse: the recursion budget suffices *)

Lemma drop_while_length (f : char -> bool) (s : str) :
  length (drop_while f s) <= length s.
Proof.
  induction s as [|c r IH]; simpl; [lia|].
  destruct (f c); simpl; lia.
Qed.

Lemma skip_ws_cons (s : str) (c : char) (r : str) :
  skip_ws s = c :: r -> length r < length s.
Proof.
  intros H; pose proof (drop_while_length is_json_space s) as L.
  unfold skip_ws in H; rewrite H in L; simpl in L; lia.
Qed.

Lemma parse_string_length (n : nat) :
  forall s t rest,
    length s <= n -> parse_string s = Some (t, rest) -> length rest < length s.
Proof.
  induction n as [|n IH]; intros s t rest Hn H.
  - destruct s; [discriminate | simpl in Hn; lia].
  - destruct s as [|c r]; [discriminate|].
    simpl in Hn; cbn [parse_string] in H.
    repeat match type of H with
           | context [if ?b then _ else _] => destruct b
           | context [match ?x with _ => _ end] =>
               lazymatch x with
               | parse_string ?u =>
                   let E := fresh "E" in
                   destruct x as [[? ?]|] eqn:E;
                   [apply IH in E; [|simpl in *; lia] | discriminate]
               | _ => destruct x; try discriminate
               end
           end;
      try discriminate;
      injection H as <- <-; simpl in *; lia.
Qed.

Lemma number_sign_length (s : str) :
  length (snd (number_sign s)) <= length s.
Proof.
  destruct s as [|c r]; cbn [number_sign]; [simpl; lia|].
  destruct (c =? ch "-")%N; simpl; lia.
Qed.

Lemma number_int_length (s int rest : str) :
  number_int s = Some (int, rest) -> length rest < length s.
Proof.
  destruct s as [|c r]; [discriminate|]; cbn [number_int].
  destruct (is_digit c) eqn:Hd; [|discriminate].
  destruct (c =? ch "0")%N; intros H; injection H as <- <-; simpl; [lia|].
  rewrite Hd; pose proof (drop_while_length is_digit r); lia.
Qed.

Lemma number_frac_length (s frac rest : str) :
  number_frac s = Some (frac, rest) -> length rest <= length s.
Proof.
  destruct s as [|p r]; cbn [number_frac].
  - intros H; injection H as <- <-; lia.
  - destruct (p =? ch ".")%N.
    + destruct (take_while is_digit r); [discriminate|].
      intros H; injection H as <- <-.
      pose proof (drop_while_length is_digit r); simpl; lia.
    + intros H; injection H as <- <-; lia.
Qed.

Lemma number_exp_length (s : str) (exp : Z) (rest : str) :
  number_exp s = Some (exp, rest) -> length rest <= length s.
Proof.
  destruct s as [|x r]; cbn [number_exp].
  - intros H; injection H as <- <-; lia.
  - destruct ((x =? ch "e") || (x =? ch "E"))%N.
    + assert (L : length (snd (exponent_sign r)) <= length r).
      { destruct r as [|g r]; cbn [exponent_sign]; [simpl; lia|].
        destruct (g =? ch "-")%N; [simpl; lia|].
        destruct (g =? ch "+")%N; simpl; lia. }
      destruct (exponent_sign r) as [minus r']; simpl in L.
      destruct (take_while is_digit r'); [discriminate|].
      intros H; injection H as <- <-.
      pose proof (drop_while_length is_digit r'); simpl; lia.
    + intros H; injection H as <- <-; lia.
Qed.

Lemma parse_number_length (s : str) (n : number) (rest : str) :
  parse_number s = Some (n, rest) -> length rest < length s.
Proof.
  unfold parse_number.
  pose proof (number_sign_length s) as L0.
  destruct (number_sign s) as [negative s0]; simpl in L0.
  destruct (number_int s0) as [[int s1]|] eqn:E1; [|discriminate].
  destruct (number_frac s1) as [[frac s2]|] eqn:E2; [|discriminate].
  destruct (number_exp s2) as [[exp s3]|] eqn:E3; [|discriminate].
  intros H; injection H as <- <-.
  apply number_int_length in E1; apply number_frac_length in E2.
  apply number_exp_length in E3; lia.
Qed.

Lemma parse_string_shorter (s t rest : str) :
  parse_string s = Some (t, rest) -> length rest < length s.
Proof. apply (parse_string_length (length s)); apply le_n. Qed.

(** Every value read consumes at least one character. *)
Lemma parse_consumes (fuel : nat) :
  (forall s v rest, parse_value fuel s = Ok v rest -> length rest < length s)
  /\ (forall s acc v rest,
        parse_elements fuel s acc = Ok v rest -> length rest < length s)
  /\ (forall s acc v rest,
        parse_members fuel s acc = Ok v rest -> length rest < length s).
Proof.
  induction fuel as [|fuel (IHv & IHe & IHm)];
    [repeat split; intros; discriminate|].
  assert (W : forall u, length (skip_ws u) <= length u)
    by (intros u; apply drop_while_length).
  repeat split.
  - intros s v rest H; cbn [parse_value] in H.
    split_parse H;
      try (apply IHm in H); try (apply IHe in H);
      repeat match type of H with
             | context [skipn ?n ?u] =>
                 pose proof (length_skipn n u);
                 generalize dependent (skipn n u); intros
             end;
      try (injection H as <- <-);
      lengths_by skip_ws_cons parse_string_shorter parse_number_length;
      repeat match goal with
             | H : context [skip_ws ?u] |- _ =>
                 pose proof (W u); generalize dependent (skip_ws u); intros
             end;
      simpl in *; lia.
  - intros s acc v rest H; cbn [parse_elements] in H.
    split_parse H;
      try (apply IHe in H); try (injection H as <- <-);
      repeat match goal with
             | E : parse_value _ _ = Ok _ _ |- _ => apply IHv in E
             end;
      lengths_by skip_ws_cons parse_string_shorter parse_number_length; simpl in *; lia.
  - intros s acc v rest H; cbn [parse_members] in H.
    split_parse H;
      try (apply IHm in H); try (injection H as <- <-);
      repeat match goal with
             | E : parse_value _ _ = Ok _ _ |- _ => apply IHv in E
             end;
      lengths_by skip_ws_cons parse_string_shorter parse_number_length; simpl in *; lia.
Qed.

Lemma parse_fuel (fuel : nat) :
  (forall s, 2 * length s + 1 <= fuel -> parse_value fuel s <> Fuel)
  /\ (forall s acc, 2 * length s + 2 <= fuel -> parse_elements fuel s acc <> Fuel)
  /\ (forall s acc, 2 * length s + 2 <= fuel -> parse_members fuel s acc <> Fuel).
Proof.
  induction fuel as [|fuel (IHv & IHe & IHm)]; [repeat split; intros; lia|].
  assert (W : forall u, length (skip_ws u) <= length u)
    by (intros u; apply drop_while_length).
  destruct (parse_consumes fuel) as (Cv & _ & _).
  repeat split.
  - intros s Hf H; cbn [parse_value] in H.
    split_parse H;
      (apply IHm in H || apply IHe in H); try exact H;
      lengths_by skip_ws_cons parse_string_shorter parse_number_length;
      repeat match goal with
             | H : context [skip_ws ?u] |- _ =>
                 pose proof (W u); generalize dependent (skip_ws u); intros
             | |- context [skip_ws ?u] =>
                 pose proof (W u); generalize dependent (skip_ws u); intros
             end;
      simpl in *; lia.
  - intros s acc Hf H; cbn [parse_elements] in H.
    split_parse H.
    + apply IHe in H; [exact H|].
      apply Cv in E; lengths_by skip_ws_cons parse_string_shorter parse_number_length;
      simpl in *; lia.
    + apply IHv in E; [exact E | lia].
  - intros s acc Hf H; cbn [parse_members] in H.
    split_parse H.
    + apply IHm in H; [exact H|].
      repeat match goal with
             | E : parse_value _ _ = Ok _ _ |- _ => apply Cv in E
             end;
      lengths_by skip_ws_cons parse_string_shorter parse_number_length; simpl in *; lia.
    + match goal with
      | E : parse_value _ _ = Fuel |- _ => apply IHv in E; [exact E|]
      end.
      lengths_by skip_ws_cons parse_string_shorter parse_number_length; simpl in *; lia.
Qed.

(** [JSON_parse] never runs out of its budget: [None] is a syntax error. *)
Theorem JSON_parse_total (s : str) :
  parse_value (2 * length s + 1) s <> Fuel.
Proof. apply (proj1 (parse_fuel _)); lia. Qed.

(** * Part III: further properties of the handlers *)

Example stringify_example :
  JSON_stringify
    (VObj [(lit "b", VArr [VNum (of_Z 1); VUndefined; VStr [ch "a"; 10%N; dquote]]);
           (lit "10", VNull); (lit "u", VUndefined); (lit "2", VObj []);
           (lit "b", VBool true)]) 2
  = Some (lit "{" ++ 10%N :: lit "  " ++ replace_char (ch "`") dquote (lit "`2`: {},")
          ++ 10%N :: lit "  " ++ replace_char (ch "`") dquote (lit "`10`: null,")
          ++ 10%N :: lit "  " ++ replace_char (ch "`") dquote (lit "`b`: [")
          ++ 10%N :: lit "    1,"
          ++ 10%N :: lit "    null,"
          ++ 10%N :: lit "    " ++ dquote :: lit "a\n\" ++ dquote :: [dquote]
          ++ 10%N :: lit "  ]"
          ++ 10%N :: lit "}").
Proof. reflexivity. Qed.

Example stringify_compact :
  JSON_stringify (VObj [(lit "a", VArr [VNum (of_Z 1); VBool false]); (lit "c", VStr [])]) 0
  = Some (replace_char (ch "`") dquote (lit "{`a`:[1,false],`c`:``}")).
Proof. reflexivity. Qed.

(** ** Quoted strings are read back *)

Lemma hex_value_char (d : N) : (d < 16)%N -> hex_value (hex_char d) = Some d.
Proof.
  intros H.
  assert (E : (d = 0 \/ d = 1 \/ d = 2 \/ d = 3 \/ d = 4 \/ d = 5 \/ d = 6
               \/ d = 7 \/ d = 8 \/ d = 9 \/ d = 10 \/ d = 11 \/ d = 12
               \/ d = 13 \/ d = 14 \/ d = 15)%N) by lia.
  repeat (destruct E as [->|E]; [reflexivity|]); subst; reflexivity.
Qed.

Lemma parse_string_plain (c : char) (rest t r : str) :
  (c =? dquote)%N = false -> (c =? ch "\")%N = false -> (c <? 32)%N = false ->
  parse_string rest = Some (t, r) ->
  parse_string (c :: rest) = Some (c :: t, r).
Proof.
  intros H1 H2 H3 H; cbn [parse_string]; rewrite H1, H2, H3, H; reflexivity.
Qed.

Lemma parse_string_hex (h1 h2 h3 h4 : char) (a b c d : N) (rest t r : str) :
  hex_value h1 = Some a -> hex_value h2 = Some b ->
  hex_value h3 = Some c -> hex_value h4 = Some d ->
  parse_string rest = Some (t, r) ->
  parse_string (ch "\" :: ch "u" :: h1 :: h2 :: h3 :: h4 :: rest)
  = Some ((((a * 16 + b) * 16 + c) * 16 + d)%N :: t, r).
Proof.
  intros Ha Hb Hc Hd H; cbn [parse_string].
  change (ch "\" =? dquote)%N with false.
  change (ch "\" =? ch "\")%N with true.
  change (ch "u" =? dquote)%N with false.
  change (ch "u" =? ch "\")%N with false.
  change (ch "u" =? ch "/")%N with false.
  change (ch "u" =? ch "b")%N with false.
  change (ch "u" =? ch "f")%N with false.
  change (ch "u" =? ch "n")%N with false.
  change (ch "u" =? ch "r")%N with false.
  change (ch "u" =? ch "t")%N with false.
  change (ch "u" =? ch "u")%N with true.
  cbv iota; rewrite Ha, Hb, Hc, Hd, H; reflexivity.
Qed.

Lemma parse_unicode_escape (c : char) (rest t r : str) :
  (c < 65536)%N -> parse_string rest = Some (t, r) ->
  parse_string (unicode_escape c ++ rest) = Some (c :: t, r).
Proof.
  intros Hc H; unfold unicode_escape; cbn [app].
  assert (V : ((((c / 4096) * 16 + (c / 256) mod 16) * 16 + (c / 16) mod 16) * 16
               + c mod 16 = c)%N).
  { pose proof (N.div_mod' c 16) as E1.
    pose proof (N.div_mod' (c / 16) 16) as E2.
    pose proof (N.div_mod' (c / 256) 16) as E3.
    assert (D2 : (c / 16 / 16 = c / 256)%N)
      by (rewrite N.Div0.div_div; reflexivity).
    assert (D3 : (c / 256 / 16 = c / 4096)%N)
      by (rewrite N.Div0.div_div; reflexivity).
    rewrite D2 in E2; rewrite D3 in E3; lia. }
  rewrite (parse_string_hex _ _ _ _ (c / 4096) ((c / 256) mod 16)
             ((c / 16) mod 16) (c mod 16) rest t r);
    try (apply hex_value_char); try exact H;
    try (apply N.mod_lt; discriminate).
  - rewrite V; reflexivity.
  - apply N.Div0.div_lt_upper_bound; lia.
Qed.

(** What [quote_body] writes, [parse_string] reads back, up to the
    closing quote. *)
Lemma parse_quote_body (n : nat) :
  forall s rest,
    length s <= n ->
    parse_string (quote_body s ++ dquote :: rest) = Some (s, rest).
Proof.
  induction n as [|n IH]; intros s rest Hn.
  - destruct s; [|simpl in Hn; lia].
    cbn [quote_body app parse_string]; rewrite N.eqb_refl; reflexivity.
  - destruct s as [|c r].
    { cbn [quote_body app parse_string]; rewrite N.eqb_refl; reflexivity. }
    simpl in Hn.
    assert (IHr : parse_string (quote_body r ++ dquote :: rest) = Some (r, rest))
      by (apply IH; lia).
    cbn [quote_body].
    destruct (N.eqb_spec c 8) as [->|N8];
      [cbn [app parse_string]; simpl; rewrite IHr; reflexivity|].
    destruct (N.eqb_spec c 9) as [->|N9];
      [cbn [app parse_string]; simpl; rewrite IHr; reflexivity|].
    destruct (N.eqb_spec c 10) as [->|N10];
      [cbn [app parse_string]; simpl; rewrite IHr; reflexivity|].
    destruct (N.eqb_spec c 12) as [->|N12];
      [cbn [app parse_string]; simpl; rewrite IHr; reflexivity|].
    destruct (N.eqb_spec c 13) as [->|N13];
      [cbn [app parse_string]; simpl; rewrite IHr; reflexivity|].
    destruct (N.eqb_spec c dquote) as [->|Nq];
      [cbn [app parse_string]; simpl; rewrite IHr; reflexivity|].
    destruct (N.eqb_spec c (ch "\")) as [->|Nb];
      [cbn [app parse_string]; simpl; rewrite IHr; reflexivity|].
    assert (Eq : (c =? dquote)%N = false) by (apply N.eqb_neq; exact Nq).
    assert (Eb : (c =? ch "\")%N = false) by (apply N.eqb_neq; exact Nb).
    destruct (N.ltb_spec c 32) as [L|L].
    { rewrite <- app_assoc; apply parse_unicode_escape; [lia | exact IHr]. }
    assert (El : (c <? 32)%N = false) by (apply N.ltb_ge; exact L).
    unfold is_high_surrogate, is_low_surrogate.
    destruct ((55296 <=? c) && (c <=? 56319))%N eqn:Hh.
    + apply andb_true_iff in Hh as [H1 H2].
      apply N.leb_le in H1, H2.
      destruct r as [|d r'].
      * cbn [app]; rewrite <- (app_nil_l (dquote :: rest)) at 1.
        change (unicode_escape c ++ [] ++ dquote :: rest)
          with (unicode_escape c ++ quote_body [] ++ dquote :: rest).
        apply parse_unicode_escape; [lia | exact IHr].
      * destruct ((56320 <=? d) && (d <=? 57343))%N eqn:Hd.
        -- apply andb_true_iff in Hd as [H3 H4].
           apply N.leb_le in H3, H4.
           cbn [app].
           apply parse_string_plain; try assumption.
           apply parse_string_plain;
             try (apply N.eqb_neq; unfold dquote, ch; simpl; lia);
             try (apply N.ltb_ge; lia).
           apply IH; simpl in Hn; lia.
        -- rewrite <- app_assoc; apply parse_unicode_escape; [lia | exact IHr].
    + destruct ((56320 <=? c) && (c <=? 57343))%N eqn:Hlow.
      * apply andb_true_iff in Hlow as [H3 H4].
        apply N.leb_le in H3, H4.
        rewrite <- app_assoc; apply parse_unicode_escape; [lia | exact IHr].
      * cbn [app]; apply parse_string_plain; assumption.
Qed.

Lemma parse_quoted (s rest : str) :
  parse_string (quote_body s ++ dquote :: rest) = Some (s, rest).
Proof. apply (parse_quote_body (length s)); apply le_n. Qed.

(** ** The reading does not depend on the budget *)

Lemma parse_fuel_stable (fuel : nat) :
  (forall s fuel', parse_value fuel s <> Fuel -> fuel <= fuel' ->
                   parse_value fuel' s = parse_value fuel s)
  /\ (forall s acc fuel', parse_elements fuel s acc <> Fuel -> fuel <= fuel' ->
                          parse_elements fuel' s acc = parse_elements fuel s acc)
  /\ (forall s acc fuel', parse_members fuel s acc <> Fuel -> fuel <= fuel' ->
                          parse_members fuel' s acc = parse_members fuel s acc).
Proof.
  induction fuel as [|fuel (IHv & IHe & IHm)];
    [repeat split; intros; cbn in *; congruence|].
  repeat split.
  - intros s [|fuel'] H Hle; [lia|].
    cbn [parse_value] in *.
    repeat match goal with
           | |- context [if ?b then _ else _] => destruct b
           | |- context [match ?x with _ => _ end] => destruct x
           end; try reflexivity;
      (apply IHm || apply IHe); try exact H; lia.
  - intros s acc [|fuel'] H Hle; [lia|].
    cbn [parse_elements] in *.
    destruct (parse_value fuel s) as [v rest| |] eqn:E.
    + rewrite (IHv s fuel') by (rewrite ?E; try discriminate; lia).
      rewrite E.
      repeat match goal with
             | |- context [if ?b then _ else _] => destruct b
             | |- context [match ?x with _ => _ end] => destruct x
             end; try reflexivity.
      apply IHe; [exact H | lia].
    + rewrite (IHv s fuel') by (rewrite ?E; try discriminate; lia).
      rewrite E; reflexivity.
    + congruence.
  - intros s acc [|fuel'] H Hle; [lia|].
    cbn [parse_members] in *.
    repeat match goal with
           | |- context [if ?b then _ else _] => destruct b
           | |- context [match ?x with _ => _ end] =>
               lazymatch x with
               | parse_value _ _ => fail
               | _ => destruct x
               end
           end; try reflexivity.
    match goal with
    | |- context [parse_value fuel ?u] =>
        destruct (parse_value fuel u) as [v rest| |] eqn:E;
        [| |congruence];
        rewrite (IHv u fuel') by (rewrite ?E; try discriminate; lia);
        rewrite E; [|reflexivity]
    end.
    repeat match goal with
           | |- context [if ?b then _ else _] => destruct b
           | |- context [match ?x with _ => _ end] => destruct x
           end; try reflexivity.
    apply IHm; [exact H | lia].
Qed.

(** A reading obtained with any budget is the reading of [JSON.parse]. *)
Lemma JSON_parse_intro (fuel : nat) (s : str) (v : value) (rest : str) :
  parse_value fuel s = Ok v rest -> skip_ws rest = [] -> JSON_parse s = Some v.
Proof.
  intros H Hrest; unfold JSON_parse.
  destruct (parse_fuel_stable fuel) as (Sv & _ & _).
  destruct (parse_fuel_stable (2 * length s + 1)) as (Sv' & _ & _).
  pose proof (JSON_parse_total s) as Ht.
  assert (E : parse_value (2 * length s + 1) s = Ok v rest).
  { rewrite <- (Sv' s (Nat.max fuel (2 * length s + 1)) Ht (Nat.le_max_r _ _)).
    rewrite (Sv s (Nat.max fuel (2 * length s + 1)));
      [exact H | rewrite H; discriminate | apply Nat.le_max_l]. }
  rewrite E, Hrest; reflexivity.
Qed.

(** ** The image information handler *)

Lemma image_info_stringify (u t : str) :
  JSON_stringify (image_info (VStr u) t) 2 = Some (image_info_text u t).
Proof.
  unfold JSON_stringify, image_info, image_info_text, quote; simpl.
  repeat (rewrite <- app_assoc; simpl); reflexivity.
Qed.

Lemma image_info_parse (u t : str) :
  JSON_parse (image_info_text u t) = Some (image_info (VStr u) t).
Proof.
  apply (JSON_parse_intro 6 _ _ []); [|reflexivity].
  unfold image_info_text, quote; simpl.
  repeat (rewrite <- app_assoc; simpl).
  rewrite parse_quoted; simpl.
  rewrite parse_quoted; reflexivity.
Qed.

(** X1.  Given a string address, the handler answers with the heading and
    a JSON text that parses back to the record of that very address, the
    source label and the reading of the clock: whatever characters the
    address holds, none is lost or altered. *)
Theorem image_info_round_trip (timestamp : str) (args : value) (imageUrl : str) :
  get args (lit "image_url") = VStr imageUrl ->
  exists body,
    handlePinterestGetImageInfo timestamp args
    = mkResponse [text_item (lit "Pinterest Image Information"); text_item body]
    /\ JSON_parse body
       = Some (VObj [(lit "image_url", VStr imageUrl);
                     (lit "source", VStr (lit "Pinterest"));
                     (lit "timestamp", VStr timestamp)]).
Proof.
  intros Hget; exists (image_info_text imageUrl timestamp); split.
  - unfold handlePinterestGetImageInfo, read_image_url.
    destruct args; try discriminate Hget;
      rewrite Hget, image_info_stringify; reflexivity.
  - apply image_info_parse.
Qed.

Lemma image_info_round_trip_witness :
  exists body,
    handlePinterestGetImageInfo (lit "2025-01-01T00:00:00.000Z")
      (VObj [(lit "image_url", VStr (lit "https://x/a\b.jpg" ++ [dquote; 9%N]))])
    = mkResponse [text_item (lit "Pinterest Image Information"); text_item body]
    /\ JSON_parse body
       = Some (VObj [(lit "image_url", VStr (lit "https://x/a\b.jpg" ++ [dquote; 9%N]));
                     (lit "source", VStr (lit "Pinterest"));
                     (lit "timestamp", VStr (lit "2025-01-01T00:00:00.000Z"))]).
Proof.
  apply (image_info_round_trip (lit "2025-01-01T00:00:00.000Z")
           (VObj [(lit "image_url", VStr (lit "https://x/a\b.jpg" ++ [dquote; 9%N]))])).
  reflexivity.
Defined.

(** X2.  The address is not required: arguments that are present but
    hold no [image_url] (a mapping without the key, an array, a text, a
    number) get the two blocks all the same, and the JSON text leaves the
    field out. *)
Theorem image_info_without_address (timestamp : str) (args : value) :
  is_nullish args = false ->
  get args (lit "image_url") = VUndefined ->
  exists body,
    handlePinterestGetImageInfo timestamp args
    = mkResponse [text_item (lit "Pinterest Image Information"); text_item body]
    /\ JSON_parse body
       = Some (VObj [(lit "source", VStr (lit "Pinterest"));
                     (lit "timestamp", VStr timestamp)]).
Proof.
  intros Hn Hget.
  exists (lit "{" ++ 10%N :: lit "  " ++ quote (lit "source") ++ lit ": "
            ++ quote (lit "Pinterest")
            ++ lit "," ++ 10%N :: lit "  " ++ quote (lit "timestamp") ++ lit ": "
            ++ quote timestamp ++ 10%N :: lit "}").
  split.
  - unfold handlePinterestGetImageInfo, read_image_url.
    destruct args; try discriminate Hn; rewrite Hget;
      unfold JSON_stringify, image_info, quote; simpl;
      repeat (rewrite <- app_assoc; simpl); reflexivity.
  - apply (JSON_parse_intro 6 _ _ []); [|reflexivity].
    unfold quote; simpl; repeat (rewrite <- app_assoc; simpl).
    rewrite parse_quoted; reflexivity.
Qed.

Lemma image_info_without_address_witness :
  exists body,
    handlePinterestGetImageInfo (lit "T") (VObj [(lit "url", VStr (lit "u"))])
    = mkResponse [text_item (lit "Pinterest Image Information"); text_item body]
    /\ JSON_parse body
       = Some (VObj [(lit "source", VStr (lit "Pinterest"));
                     (lit "timestamp", VStr (lit "T"))]).
Proof.
  apply (image_info_without_address (lit "T") (VObj [(lit "url", VStr (lit "u"))]));
    reflexivity.
Defined.

(** ** The server *)

(** X3.  A call is answered with a response exactly when its name is one
    of the names the tool list advertises; any other name gets an error,
    and that error carries the internal-error code. *)
Theorem advertised_tools_are_served (scraper : Scraper) (timestamp : str)
  (request : CallToolRequest) :
  (In (name request) (map tool_name list_tools) <->
   exists response, server scraper timestamp request = inr response)
  /\ (~ In (name request) (map tool_name list_tools) <->
      exists error, server scraper timestamp request = inl error
                    /\ code error = InternalError).
Proof.
  unfold server, call_tool, dispatch, list_tools; cbn [map tool_name In].
  destruct (str_eqb (name request) (lit "pinterest_search")) eqn:E1.
  { apply str_eqb_eq in E1; split; split.
    - intros _; eexists; reflexivity.
    - intros _; left; symmetry; exact E1.
    - intros H; exfalso; apply H; left; symmetry; exact E1.
    - intros (error & H & _); discriminate H. }
  destruct (str_eqb (name request) (lit "pinterest_get_image_info")) eqn:E2.
  { apply str_eqb_eq in E2; split; split.
    - intros _; eexists; reflexivity.
    - intros _; right; left; symmetry; exact E2.
    - intros H; exfalso; apply H; right; left; symmetry; exact E2.
    - intros (error & H & _); discriminate H. }
  assert (N1 : lit "pinterest_search" <> name request).
  { intros H; symmetry in H; apply str_eqb_eq in H; congruence. }
  assert (N2 : lit "pinterest_get_image_info" <> name request).
  { intros H; symmetry in H; apply str_eqb_eq in H; congruence. }
  split; split.
  - intros [H|[H|[]]]; contradiction.
  - intros (response & H); discriminate H.
  - intros _; eexists; split; reflexivity.
  - intros _ [H|[H|[]]]; contradiction.
Qed.

Lemma advertised_tools_are_served_witness :
  exists response,
    server (fun _ _ _ => Raises) (lit "T")
      (mkRequest (lit "pinterest_search") VUndefined VUndefined)
    = inr response.
Proof.
  apply (proj1 (proj1 (advertised_tools_are_served (fun _ _ _ => Raises) (lit "T")
                         (mkRequest (lit "pinterest_search") VUndefined VUndefined)))).
  left; reflexivity.
Defined.

(** X4.  The handler reads [args] when it is truthy and [arguments]
    otherwise; a call to the image information tool that carries neither
    is answered with a response of one text that begins
    [Error getting image info: ], not with a protocol error. *)
Theorem image_info_without_arguments (scraper : Scraper) (timestamp : str)
  (request : CallToolRequest) :
  name request = lit "pinterest_get_image_info" ->
  truthy (args request) = false ->
  is_nullish (arguments request) = true ->
  exists body,
    server scraper timestamp request = inr (mkResponse [text_item body])
    /\ starts_with body (lit "Error getting image info: ") = true.
Proof.
  intros Hname Hargs Hnull.
  unfold server, call_tool, dispatch, tool_arguments; rewrite Hname, Hargs.
  cbn [str_eqb]; simpl str_eqb.
  exists (lit "Error getting image info: "
            ++ message_of (cannot_read (arguments request))); split.
  - destruct (arguments request); try discriminate Hnull; reflexivity.
  - apply starts_with_prefix.
Qed.

Lemma image_info_without_arguments_witness :
  exists body,
    server (fun _ _ _ => Raises) (lit "T")
      (mkRequest (lit "pinterest_get_image_info") (VStr []) VUndefined)
    = inr (mkResponse [text_item body])
    /\ starts_with body (lit "Error getting image info: ") = true.
Proof.
  apply (image_info_without_arguments (fun _ _ _ => Raises) (lit "T")
           (mkRequest (lit "pinterest_get_image_info") (VStr []) VUndefined));
    reflexivity.
Defined.

Lemma contentItems_entries (results : list SearchResult) (kw : str) :
  contentItems results kw
  = summary_item (length results) kw :: entries has_page 0 results.
Proof.
  unfold contentItems; rewrite forEach_entries by reflexivity; reflexivity.
Qed.

(** X5.  A search call never ends in a protocol error, whatever the
    arguments and whatever the collaborator does: the answer is a
    response whose first block is a text, either the summary, which
    begins [Found ], or the report of a failed conversion, which begins
    [Error during search: ]. *)
Theorem search_always_answers (scraper : Scraper) (timestamp : str)
  (request : CallToolRequest) :
  name request = lit "pinterest_search" ->
  exists first rest,
    server scraper timestamp request = inr (mkResponse (first :: rest))
    /\ type first = lit "text"
    /\ (starts_with (text first) (lit "Found ") = true
        \/ starts_with (text first) (lit "Error during search: ") = true).
Proof.
  intros Hname; unfold server, call_tool, dispatch; rewrite Hname.
  simpl str_eqb; cbv iota.
  unfold handlePinterestSearch.
  destruct (normalize (tool_arguments request)) as [q|e].
  - unfold search_response; rewrite contentItems_entries.
    eexists; eexists; split; [reflexivity|split; [reflexivity|left]].
    apply starts_with_prefix.
  - eexists; eexists; split; [reflexivity|split; [reflexivity|right]].
    apply starts_with_prefix.
Qed.

Lemma search_always_answers_witness :
  exists first rest,
    server (fun _ _ _ => Raises) (lit "T")
      (mkRequest (lit "pinterest_search")
         (VObj [(lit "limit", VObj [(lit "toString", VNull)])]) VUndefined)
    = inr (mkResponse (first :: rest))
    /\ type first = lit "text"
    /\ (starts_with (text first) (lit "Found ") = true
        \/ starts_with (text first) (lit "Error during search: ") = true).
Proof.
  apply (search_always_answers (fun _ _ _ => Raises) (lit "T")
           (mkRequest (lit "pinterest_search")
              (VObj [(lit "limit", VObj [(lit "toString", VNull)])]) VUndefined)).
  reflexivity.
Defined.

(** ** More on the normalizer *)

Lemma get_lookup (fields : list (str * value)) (key : str) (v : value) :
  get (VObj fields) key = v -> v <> VUndefined -> lookup key fields = Some v.
Proof.
  unfold get; cbn [properties].
  destruct (lookup key fields); [intros ->; reflexivity | congruence].
Qed.

Lemma ToString_throws_lookup (fields : list (str * value)) (key : str) (e : exn) :
  ToString (get (VObj fields) key) = Throw e ->
  exists v, lookup key fields = Some v /\ convertible v = false.
Proof.
  intros H; exists (get (VObj fields) key); split.
  - apply get_lookup; [reflexivity|].
    intros E; rewrite E in H; discriminate H.
  - unfold convertible; rewrite H; reflexivity.
Qed.

(** X6.  The normalizer throws only on a mapping that holds, under the
    backtick-wrapped keyword key or under the limit key in either
    spelling, a value without a text form; on a text, an array, a
    primitive or no argument at all it always returns. *)
Theorem normalizer_throws_only_on_fields (raw : value) (e : exn) :
  normalize raw = Throw e ->
  exists fields key v,
    raw = VObj fields
    /\ In key [backtick (lit "keyword"); lit "limit"; backtick (lit "limit")]
    /\ lookup key fields = Some v
    /\ convertible v = false.
Proof.
  unfold normalize; destruct (extract raw) as [q|e'] eqn:E; [discriminate|].
  intros _.
  destruct raw as [| |b|n|s|elements|fields];
    try (match type of E with
         | extract ?r = _ =>
             destruct (normalize_completes r eq_refl) as [q Hq];
             unfold normalize in Hq; rewrite E in Hq; discriminate Hq
         end).
  exists fields.
  rewrite extract_object in E.
  destruct (object_keyword (VObj fields) []) as [k|ek] eqn:Ek.
  - destruct (object_limit (VObj fields) DEFAULT_SEARCH_LIMIT) as [l|el] eqn:El;
      [discriminate E|].
    unfold object_limit in El.
    destruct (has_property (VObj fields) (lit "limit")).
    + unfold is_numeric, number_or_parse in El.
      destruct (get (VObj fields) (lit "limit")) eqn:G;
        try (cbn in El;
             destruct (has_property (VObj fields) (backtick (lit "limit")));
             discriminate El).
      all: try discriminate El.
      all: destruct (ToString (get (VObj fields) (lit "limit"))) as [t|et] eqn:T;
        [|destruct (ToString_throws_lookup _ _ _ T) as (v & Hv & Hc);
          exists (lit "limit"), v; cbn [In]; tauto].
      all: rewrite G in T; rewrite T in El; cbn [bind] in El.
      all: destruct (negb (isNaN (parseInt t None))); [discriminate El|].
      all: destruct (has_property (VObj fields) (backtick (lit "limit")));
        [|discriminate El].
      all: unfold number_or_parse in El.
      all: destruct (ToString (get (VObj fields) (backtick (lit "limit"))))
        as [t'|et'] eqn:T';
        [destruct (get (VObj fields) (backtick (lit "limit")));
         rewrite ?T' in El; discriminate El|].
      all: destruct (ToString_throws_lookup _ _ _ T') as (v & Hv & Hc);
        exists (backtick (lit "limit")), v; cbn [In]; tauto.
    + cbn [bind] in El.
      destruct (has_property (VObj fields) (backtick (lit "limit")));
        [|discriminate El].
      unfold number_or_parse in El.
      destruct (ToString (get (VObj fields) (backtick (lit "limit"))))
        as [t'|et'] eqn:T';
        [destruct (get (VObj fields) (backtick (lit "limit")));
         rewrite ?T' in El; discriminate El|].
      destruct (ToString_throws_lookup _ _ _ T') as (v & Hv & Hc);
        exists (backtick (lit "limit")), v; cbn [In]; tauto.
  - unfold object_keyword in Ek.
    destruct (ToString (get (VObj fields) (backtick (lit "keyword"))))
      as [t|et] eqn:T.
    + cbn [bind] in Ek.
      destruct (has_property (VObj fields) (lit "keyword"));
        destruct (get (VObj fields) (lit "keyword"));
        try discriminate Ek;
        destruct (has_property (VObj fields) (backtick (lit "keyword")));
        discriminate Ek.
    + destruct (ToString_throws_lookup _ _ _ T) as (v & Hv & Hc).
      exists (backtick (lit "keyword")), v; cbn [In]; tauto.
Qed.

Lemma normalizer_throws_only_on_fields_witness :
  exists fields key v,
    VObj [(backtick (lit "keyword"), VArr [VObj [(lit "toString", VBool true)]])]
    = VObj fields
    /\ In key [backtick (lit "keyword"); lit "limit"; backtick (lit "limit")]
    /\ lookup key fields = Some v
    /\ convertible v = false.
Proof.
  apply (normalizer_throws_only_on_fields
           (VObj [(backtick (lit "keyword"),
                   VArr [VObj [(lit "toString", VBool true)]])])
           no_primitive).
  reflexivity.
Defined.

Lemma hd_rev_drop_while (f : char -> bool) (l : str) (c : char) :
  hd_error (rev (drop_while f l)) = Some c -> hd_error (rev l) = Some c.
Proof.
  intros H.
  rewrite <- (take_drop_while f l) at 1.
  rewrite rev_app_distr.
  destruct (rev (drop_while f l)); [discriminate | exact H].
Qed.

Lemma hd_drop_while (f : char -> bool) (l : str) (c : char) :
  hd_error (drop_while f l) = Some c -> f c = false.
Proof.
  destruct (drop_while f l) as [|d r] eqn:E; [discriminate|].
  intros H; injection H as ->; exact (drop_while_head _ _ _ _ E).
Qed.

Lemma trim_trimmed (s : str) : trimmed (trim s).
Proof.
  unfold trimmed, trim; split; intros c H.
  - apply hd_rev_drop_while in H; rewrite rev_involutive in H.
    exact (hd_drop_while _ _ _ H).
  - rewrite rev_involutive in H; exact (hd_drop_while _ _ _ H).
Qed.

Lemma nil_trimmed : trimmed [].
Proof. split; intros c H; discriminate H. Qed.

Lemma extract_trimmed (raw : value) (q0 : Query) :
  extract raw = Normal q0 -> trimmed (keyword q0).
Proof.
  unfold extract.
  destruct (truthy (replace_backticks raw)); [|intros H; injection H as <-; apply nil_trimmed].
  destruct (replace_backticks raw) as [| |b|n|s|elements|fields] eqn:R;
    try (intros H; injection H as <-; apply nil_trimmed).
  - destruct (parse_with_repair s) as [parsed|]; intros H; injection H as <-.
    + unfold parsed_fields.
      destruct (truthy parsed); [|apply nil_trimmed]; cbn [keyword].
      destruct (get parsed (lit "keyword")); try apply nil_trimmed.
      destruct (truthy (VStr s0)); [apply trim_trimmed | apply nil_trimmed].
    + unfold regex_fields; cbn [keyword].
      destruct (group1 keyword_at s) as [g|]; [|apply nil_trimmed].
      destruct (truthy (VStr g)); [apply trim_trimmed | apply nil_trimmed].
  - cbn [keyword limit headless].
    destruct (object_keyword (VObj fields) []) as [k|] eqn:Ek; [|discriminate].
    destruct (object_limit (VObj fields) DEFAULT_SEARCH_LIMIT); [|discriminate].
    intros H; injection H as <-; cbn [keyword].
    unfold object_keyword in Ek.
    destruct (has_property (VObj fields) (lit "keyword"));
      destruct (get (VObj fields) (lit "keyword"));
      try (injection Ek as <-; apply trim_trimmed);
      (destruct (has_property (VObj fields) (backtick (lit "keyword")));
       [destruct (ToString (get (VObj fields) (backtick (lit "keyword"))));
        [injection Ek as <-; apply trim_trimmed | discriminate Ek]
       |injection Ek as <-; apply nil_trimmed]).
Qed.

Lemma apply_defaults_keyword_shape (q0 : Query) :
  trimmed (keyword q0) ->
  keyword (apply_defaults q0) <> [] /\ trimmed (keyword (apply_defaults q0)).
Proof.
  intros Ht; rewrite apply_defaults_keyword.
  destruct (keyword q0) as [|c k].
  - split; [discriminate|].
    split; intros d Hd; vm_compute in Hd; injection Hd as <-; reflexivity.
  - split; [discriminate | exact Ht].
Qed.

(** X7.  Whatever the argument, the keyword the normalizer hands to the
    collaborator is never empty and has no white space at either end. *)
Theorem normalized_keyword_trimmed (raw : value) (q : Query) :
  normalize raw = Normal q ->
  keyword q <> [] /\ trimmed (keyword q).
Proof.
  intros H; destruct (normalize_inv _ _ H) as (q0 & H0 & ->).
  apply apply_defaults_keyword_shape.
  exact (extract_trimmed _ _ H0).
Qed.

Lemma normalized_keyword_trimmed_witness :
  keyword (mkQuery (lit "red fox") (of_Z 10) true) <> []
  /\ trimmed (keyword (mkQuery (lit "red fox") (of_Z 10) true)).
Proof.
  apply (normalized_keyword_trimmed
           (VStr (lit "{keyword: '  red fox  '}"))).
  reflexivity.
Defined.

Lemma replace_char_idempotent (c d : char) (s : str) :
  replace_char c d (replace_char c d s) = replace_char c d s.
Proof.
  unfold replace_char; rewrite map_map; apply map_ext; intros x.
  destruct (N.eqb_spec x c) as [->|Hx].
  - destruct (d =? c)%N; reflexivity.
  - destruct (N.eqb_spec x c); [contradiction | reflexivity].
Qed.

(** X8.  In a text argument a backtick counts as a double quote: the
    text and the text with every backtick replaced give the same result,
    also inside the keyword, where the backtick is thus lost or ends the
    string. *)
Theorem backticks_read_as_quotes (s : str) :
  normalize (VStr s) = normalize (VStr (replace_char (ch "`") dquote s))
  /\ forall scraper,
       handlePinterestSearch scraper (VStr s)
       = handlePinterestSearch scraper (VStr (replace_char (ch "`") dquote s)).
Proof.
  assert (H : normalize (VStr s)
              = normalize (VStr (replace_char (ch "`") dquote s))).
  { unfold normalize, extract; cbn [replace_backticks].
    rewrite replace_char_idempotent; reflexivity. }
  split; [exact H|].
  intros scraper; unfold handlePinterestSearch; rewrite H; reflexivity.
Qed.

(** X9.  Under the backtick-wrapped key the keyword need not be a text:
    when the plain key holds no text, whatever value the backtick-wrapped
    key holds is converted with [String] and trimmed, so that [null]
    searches for the word null and 42 for the digits 42. *)
Theorem backtick_keyword_coerced (fields : list (str * value)) (v : value)
  (s : str) :
  has_property (VObj fields) (lit "keyword")
    && is_string (get (VObj fields) (lit "keyword")) = false ->
  lookup (backtick (lit "keyword")) fields = Some v ->
  ToString v = Normal s ->
  trim s <> [] ->
  (forall q, normalize (VObj fields) = Normal q -> keyword q = trim s)
  /\ (well_formed (VObj fields) = true ->
      exists q, normalize (VObj fields) = Normal q /\ keyword q = trim s).
Proof.
  intros Hplain Hbt Hs Hne.
  assert (Hkw : object_keyword (VObj fields) [] = Normal (trim s)).
  { assert (Hhas : has_property (VObj fields) (backtick (lit "keyword")) = true)
      by (unfold has_property; cbn [properties]; rewrite Hbt; reflexivity).
    assert (Hget : get (VObj fields) (backtick (lit "keyword")) = v)
      by (unfold get; cbn [properties]; rewrite Hbt; reflexivity).
    unfold object_keyword; rewrite Hhas, Hget, Hs; cbn [bind].
    revert Hplain.
    destruct (has_property (VObj fields) (lit "keyword"));
      destruct (get (VObj fields) (lit "keyword")); intros Hplain;
      try reflexivity.
    simpl in Hplain; discriminate Hplain. }
  assert (Hall : forall q, normalize (VObj fields) = Normal q -> keyword q = trim s).
  { intros q H; destruct (normalize_inv _ _ H) as (q0 & H0 & ->).
    destruct (extract_object_inv _ _ H0) as (Hk & _).
    rewrite Hkw in Hk; injection Hk as Hk.
    rewrite apply_defaults_keyword, <- Hk.
    destruct (trim s); [contradiction | reflexivity]. }
  split; [exact Hall|].
  intros Hwf; destruct (normalize_completes _ Hwf) as [q Hq].
  exists q; split; [exact Hq | exact (Hall q Hq)].
Qed.

Lemma backtick_keyword_coerced_witness :
  (exists q, normalize (VObj [(backtick (lit "keyword"), VNull)]) = Normal q
             /\ keyword q = lit "null")
  /\ (exists q, normalize (VObj [(lit "keyword", VNum (of_Z 7));
                                 (backtick (lit "keyword"), VNum (of_Z 42))])
                = Normal q /\ keyword q = lit "42").
Proof.
  split.
  - apply (backtick_keyword_coerced [(backtick (lit "keyword"), VNull)] VNull
             (lit "null")); try reflexivity; discriminate.
  - apply (backtick_keyword_coerced
             [(lit "keyword", VNum (of_Z 7));
              (backtick (lit "keyword"), VNum (of_Z 42))]
             (VNum (of_Z 42)) (lit "42")); try reflexivity; discriminate.
Defined.

(** ** More on the sanitizer and the shaping *)

Lemma replace_thumb_changes (url : str) :
  matches_thumb url = true -> replace_thumb url <> url.
Proof.
  unfold matches_thumb, replace_thumb.
  destruct (regex_exec thumb_at url) as [[[pre seg] post]|] eqn:E; [|discriminate].
  intros _ Heq.
  destruct (regex_exec_some _ _ _ _ _ E) as (rest & Hs & Hat & _).
  destruct (thumb_at_sound _ _ _ Hat) as [-> (w & h & -> & Hne & Hw & _)].
  rewrite Hs in Heq; apply app_inv_head in Heq.
  destruct w as [|w1 w]; [congruence|].
  inversion Hw as [|? ? Hd _]; subst.
  unfold originals in Heq; simpl in Heq.
  injection Heq as Hc _; rewrite <- Hc in Hd; discriminate.
Qed.

(** X10.  The page test runs on the rewritten address.  A result whose
    link is its image address gets no page block when the address holds
    no thumbnail segment, and gets one, showing the thumbnail address,
    when it does: the rewrite has made the two differ. *)
Theorem page_block_after_rewrite (result : SearchResult) (url : str) :
  url <> [] ->
  image_url result = Some url ->
  link result = Some url ->
  has_page (sanitize_result result) = matches_thumb url
  /\ (matches_thumb url = true ->
      page_item (sanitize_result result)
      = text_item (lit "Original page: " ++ url)
      /\ link_item (sanitize_result result)
         = text_item (lit "Link: " ++ replace_thumb url)).
Proof.
  intros Hne Hurl Hlink.
  rewrite sanitize_result_eq, Hurl, sanitize_url_replace.
  unfold has_page, page_item, link_item; cbn [link image_url]; rewrite Hlink.
  cbn [printed same_text truthy_text].
  destruct url as [|c u]; [congruence|].
  split.
  - destruct (matches_thumb (c :: u)) eqn:M.
    + destruct (str_eqb (c :: u) (replace_thumb (c :: u))) eqn:E; [|reflexivity].
      apply str_eqb_eq in E; symmetry in E.
      exfalso; exact (replace_thumb_changes _ M E).
    + unfold replace_thumb; unfold matches_thumb in M.
      destruct (regex_exec thumb_at (c :: u)); [discriminate|].
      assert (E : str_eqb (c :: u) (c :: u) = true) by (apply str_eqb_eq; reflexivity).
      rewrite E; reflexivity.
  - intros M; split; [reflexivity|].
    destruct (replace_thumb (c :: u)) as [|d r] eqn:R; [|reflexivity].
    exfalso; unfold replace_thumb in R; unfold matches_thumb in M.
    destruct (regex_exec thumb_at (c :: u)) as [[[pre seg] post]|]; [|discriminate].
    apply app_eq_nil in R as [_ R]; discriminate R.
Qed.

Lemma page_block_after_rewrite_witness :
  has_page (sanitize_result
              (mkResult None (Some (lit "https://i.pinimg.com/236x/a.jpg"))
                        (Some (lit "https://i.pinimg.com/236x/a.jpg"))))
  = matches_thumb (lit "https://i.pinimg.com/236x/a.jpg")
  /\ (matches_thumb (lit "https://i.pinimg.com/236x/a.jpg") = true ->
      page_item (sanitize_result
                   (mkResult None (Some (lit "https://i.pinimg.com/236x/a.jpg"))
                             (Some (lit "https://i.pinimg.com/236x/a.jpg"))))
      = text_item (lit "Original page: " ++ lit "https://i.pinimg.com/236x/a.jpg")
      /\ link_item (sanitize_result
                      (mkResult None (Some (lit "https://i.pinimg.com/236x/a.jpg"))
                                (Some (lit "https://i.pinimg.com/236x/a.jpg"))))
         = text_item (lit "Link: "
                        ++ replace_thumb (lit "https://i.pinimg.com/236x/a.jpg"))).
Proof.
  apply (page_block_after_rewrite
           (mkResult None (Some (lit "https://i.pinimg.com/236x/a.jpg"))
                     (Some (lit "https://i.pinimg.com/236x/a.jpg")))
           (lit "https://i.pinimg.com/236x/a.jpg"));
    [discriminate | reflexivity | reflexivity].
Defined.

Lemma entries_length (page : SearchResult -> bool) (results : list SearchResult) :
  forall index,
    length (entries page index results)
    = 3 * length results + length (filter page results)
      - (match results with [] => 0 | _ :: _ => 1 end).
Proof.
  induction results as [|r rest IH]; intros index; [reflexivity|].
  cbn [entries filter].
  rewrite !length_app; cbn [length].
  destruct rest as [|r' rest'].
  - destruct (page r); reflexivity.
  - cbn [length]; rewrite (IH (S index)).
    destruct (page r); cbn [length filter]; lia.
Qed.

Lemma entries_text (page : SearchResult -> bool) (results : list SearchResult) :
  forall index,
    Forall (fun item => type item = lit "text") (entries page index results).
Proof.
  induction results as [|r rest IH]; intros index; [constructor|].
  cbn [entries].
  repeat constructor.
  apply Forall_app; split.
  - destruct (page r); repeat constructor.
  - destruct rest; [constructor|].
    constructor; [reflexivity | apply IH].
Qed.

(** X11.  The response to a search that found [n] results holds one
    block when [n] is 0 and otherwise three blocks for each result, less
    the separator the last one does not get, plus one for each result
    with a page block; every block is a text, and sanitizing changes
    neither the number of results nor their titles and links. *)
Theorem content_size (results : list SearchResult) (kw : str) :
  length (contentItems (sanitize results) kw)
  = match results with
    | [] => 1
    | _ :: _ => 3 * length results + pages (sanitize results)
    end
  /\ Forall (fun item => type item = lit "text")
            (contentItems (sanitize results) kw)
  /\ length (sanitize results) = length results
  /\ map title (sanitize results) = map title results
  /\ map link (sanitize results) = map link results.
Proof.
  rewrite contentItems_entries.
  unfold pages; cbn [length].
  rewrite entries_length.
  assert (Hlen : length (sanitize results) = length results)
    by apply length_map.
  repeat split.
  - rewrite Hlen.
    destruct results as [|r rs]; [reflexivity|].
    cbn [sanitize map length]; lia.
  - constructor; [reflexivity | apply entries_text].
  - exact Hlen.
  - unfold sanitize; rewrite map_map; apply map_ext; intros r.
    rewrite sanitize_result_eq; destruct (image_url r); reflexivity.
  - unfold sanitize; rewrite map_map; apply map_ext; intros r.
    rewrite sanitize_result_eq; destruct (image_url r); reflexivity.
Qed.

(** ** Whole limits *)

Lemma of_Z_whole_or_infinite (z : Z) : whole_or_infinite (of_Z z) = true.
Proof.
  destruct (of_Z_whole z) as [H|H]; [|rewrite H; reflexivity].
  destruct (of_Z z); try discriminate H; exact H.
Qed.

Lemma parseInt_whole_or_NaN (s : str) (radix : option N) :
  isNaN (parseInt s radix) = true \/ whole_or_infinite (parseInt s radix) = true.
Proof.
  unfold parseInt.
  destruct (drop_while is_space s) as [|c r].
  - destruct (negb _ && _); [left; reflexivity|].
    destruct (_ && _); destruct (parse_digits _ _ None);
      (left; reflexivity) || (right; apply of_Z_whole_or_infinite).
  - destruct (c =? ch "-")%N; [|destruct (c =? ch "+")%N];
      destruct (negb _ && _); try (left; reflexivity);
      destruct (_ && _); destruct (parse_digits _ _ None);
      (left; reflexivity) || (right; apply of_Z_whole_or_infinite).
Qed.

Lemma apply_defaults_whole (q0 : Query) :
  isNaN (limit q0) = true \/ whole_or_infinite (limit q0) = true ->
  whole_or_infinite (limit (apply_defaults q0)) = true.
Proof.
  unfold apply_defaults; cbn [limit]; intros [H|H].
  - rewrite H; reflexivity.
  - destruct (isNaN (limit q0) || le_zero (limit q0)); [reflexivity | exact H].
Qed.

Lemma number_or_parse_whole (v : value) (n : number) :
  number_or_parse v = Normal n ->
  v = VNum n \/ isNaN n = true \/ whole_or_infinite n = true.
Proof.
  unfold number_or_parse; destruct v; try (intros H; injection H as <-; left; reflexivity);
    destruct (ToString _) as [t|]; try discriminate;
    cbn [bind]; intros H; injection H as <-; right;
    apply parseInt_whole_or_NaN.
Qed.

Lemma limit_whole_or_passed (raw : value) (q : Query) :
  normalize raw = Normal q ->
  whole_or_infinite (limit q) = true \/ passes_limit raw (limit q).
Proof.
  intros H; destruct (normalize_inv _ _ H) as (q0 & H0 & ->).
  assert (Hd : forall q1 : Query,
             isNaN (limit q1) = true \/ whole_or_infinite (limit q1) = true ->
             whole_or_infinite (limit (apply_defaults q1)) = true
             \/ passes_limit raw (limit (apply_defaults q1)))
    by (intros q1 Hq1; left; apply apply_defaults_whole; exact Hq1).
  assert (Hp : forall q1 : Query,
             passes_limit raw (limit q1) ->
             whole_or_infinite (limit (apply_defaults q1)) = true
             \/ passes_limit raw (limit (apply_defaults q1))).
  { intros q1 Hq1; unfold apply_defaults; cbn [limit].
    destruct (isNaN (limit q1) || le_zero (limit q1));
      [left; reflexivity | right; exact Hq1]. }
  destruct raw as [| |b|n|s|elements|fields].
  - injection H0 as <-; apply Hd; right; reflexivity.
  - injection H0 as <-; apply Hd; right; reflexivity.
  - destruct b; injection H0 as <-; apply Hd; right; reflexivity.
  - unfold extract in H0; cbn [replace_backticks] in H0.
    destruct (truthy (VNum n)); injection H0 as <-; apply Hd; right; reflexivity.
  - unfold extract in H0; cbn [replace_backticks] in H0.
    destruct (truthy (VStr _)); [|injection H0 as <-; apply Hd; right; reflexivity].
    destruct (parse_with_repair (replace_char (ch "`") dquote s))
      as [parsed|] eqn:P; injection H0 as <-.
    + unfold parsed_fields.
      destruct (truthy parsed); [|apply Hd; right; reflexivity].
      destruct (get parsed (lit "limit")) as [| |b|n|t|l|f] eqn:G;
        try (apply Hd; right; reflexivity).
      * apply Hp; cbn [limit passes_limit]; exists parsed; split; assumption.
      * apply Hd; cbn [limit].
        destruct (negb (isNaN (parseInt t None)));
          [apply parseInt_whole_or_NaN | right; reflexivity].
    + apply Hd; unfold regex_fields; cbn [limit].
      destruct (group1 limit_at _) as [g|]; [|right; reflexivity].
      destruct (truthy (VStr g));
        [apply parseInt_whole_or_NaN | right; reflexivity].
  - injection H0 as <-; apply Hd; right; reflexivity.
  - destruct (extract_object_inv _ _ H0) as (_ & Hl & _).
    unfold object_limit in Hl.
    destruct (if has_property (VObj fields) (lit "limit")
              then is_numeric (get (VObj fields) (lit "limit"))
              else Normal false) as [found|]; [|discriminate Hl].
    cbn [bind] in Hl.
    assert (Hcase : forall key,
               number_or_parse (get (VObj fields) key) = Normal (limit q0) ->
               (key = lit "limit" \/ key = backtick (lit "limit")) ->
               whole_or_infinite (limit (apply_defaults q0)) = true
               \/ passes_limit (VObj fields) (limit (apply_defaults q0))).
    { intros key Hk Hkey.
      destruct (number_or_parse_whole _ _ Hk) as [Hv|Hw]; [|apply Hd; exact Hw].
      apply Hp; cbn [passes_limit].
      assert (L : lookup key fields = Some (VNum (limit q0)))
        by (apply get_lookup; [exact Hv | discriminate]).
      destruct Hkey as [->| ->]; [left | right]; exact L. }
    destruct found.
    + apply (Hcase (lit "limit") Hl); left; reflexivity.
    + destruct (has_property (VObj fields) (backtick (lit "limit"))).
      * apply (Hcase (backtick (lit "limit")) Hl); right; reflexivity.
      * injection Hl as Hl; apply Hd; right; rewrite <- Hl; reflexivity.
Qed.

(** X12.  A limit taken from text is a whole number or the positive
    infinity a numeral too long for a binary64 value is read as: the
    output limit is one of the two unless the argument hands over that
    very number, as a JSON number in a mapping under one of the two
    spellings or in the parsed text. *)
Theorem fractional_limit_only_from_number (raw : value) (q : Query) :
  normalize raw = Normal q ->
  is_integer (limit q) = true
  \/ limit q = Infinity false
  \/ passes_limit raw (limit q).
Proof.
  intros H.
  destruct (limit_whole_or_passed raw q H) as [Hw|Hp]; [|right; right; exact Hp].
  destruct (normalize_inv _ _ H) as (q0 & _ & ->).
  pose proof (apply_defaults_positive q0) as Hpos.
  destruct (limit (apply_defaults q0)) as [|negative|m e]; try discriminate Hw.
  - destruct negative; [discriminate Hpos | right; left; reflexivity].
  - left; exact Hw.
Qed.

Lemma fractional_limit_only_from_number_witness :
  is_integer (limit (mkQuery (lit "landscape") (of_Z 12) true)) = true
  \/ limit (mkQuery (lit "landscape") (of_Z 12) true) = Infinity false
  \/ passes_limit (VObj [(lit "limit", VStr (lit "12.7"))])
       (limit (mkQuery (lit "landscape") (of_Z 12) true)).
Proof.
  apply (fractional_limit_only_from_number
           (VObj [(lit "limit", VStr (lit "12.7"))])).
  reflexivity.
Defined.

(** ** Decimal numerals are read back *)

Lemma digits_acc (d : Decimal.uint) :
  forall acc,
    fold_left (fun a c => (a * 10 + Z.of_N (c - 48))%Z)
              (lit (NilEmpty.string_of_uint d)) (Z.pos acc)
    = Z.pos (Pos.of_uint_acc d acc).
Proof.
  induction d; intros acc; cbn [NilEmpty.string_of_uint lit fold_left Pos.of_uint_acc];
    try reflexivity; rewrite <- IHd; f_equal; simpl (Z.of_N _); lia.
Qed.

Lemma digits_of_uint (d : Decimal.uint) :
  digits_to_Z (lit (NilEmpty.string_of_uint d)) = Z.of_N (Pos.of_uint d).
Proof.
  unfold digits_to_Z.
  induction d; cbn [NilEmpty.string_of_uint lit fold_left Pos.of_uint];
    try reflexivity; try exact IHd;
    cbn [Z.of_N]; rewrite <- digits_acc; reflexivity.
Qed.

Lemma uint_digits (d : Decimal.uint) :
  Forall (fun c => is_digit c = true) (lit (NilEmpty.string_of_uint d)).
Proof. induction d; cbn [NilEmpty.string_of_uint lit]; constructor; auto. Qed.

Lemma nzhead_not_zero (d l : Decimal.uint) : Decimal.nzhead d <> Decimal.D0 l.
Proof. induction d; cbn [Decimal.nzhead]; try discriminate; exact IHd. Qed.

Lemma to_uint_head (p : BinNums.positive) :
  match Pos.to_uint p with
  | Decimal.Nil | Decimal.D0 _ => False
  | _ => True
  end.
Proof.
  pose proof (DecimalPos.Unsigned.to_of (Pos.to_uint p)) as H.
  rewrite DecimalPos.Unsigned.of_to in H; cbn [N.to_uint] in H.
  pose proof (DecimalPos.Unsigned.to_uint_nonzero p) as Hz.
  pose proof (DecimalPos.Unsigned.to_uint_nonnil p) as Hn.
  destruct (Pos.to_uint p) eqn:E; try exact I; [congruence|].
  unfold Decimal.unorm in H; cbn [Decimal.nzhead] in H.
  destruct (Decimal.nzhead u) eqn:Eu; try discriminate H.
  - exact (Hz H).
  - exact (nzhead_not_zero _ _ Eu).
Qed.

(** The numeral of [n]: digits, the first of which is a zero only when
    the numeral is the single digit of 0, and whose value is [n]. *)
Lemma decimal_spec (n : N) :
  exists c ds,
    decimal n = c :: ds
    /\ Forall (fun x => is_digit x = true) (c :: ds)
    /\ ((c =? ch "0")%N = true -> ds = [])
    /\ digits_to_Z (c :: ds) = Z.of_N n.
Proof.
  unfold decimal; destruct n as [|p].
  - exists (ch "0"), []; repeat split; repeat constructor.
  - cbn [N.to_uint].
    pose proof (to_uint_head p) as Hh.
    pose proof (DecimalPos.Unsigned.of_to p) as Hv.
    pose proof (uint_digits (Pos.to_uint p)) as Hd.
    pose proof (digits_of_uint (Pos.to_uint p)) as Hz.
    rewrite Hv in Hz.
    destruct (Pos.to_uint p) eqn:E; try contradiction;
      cbn [NilZero.string_of_uint NilEmpty.string_of_uint lit] in *;
      eexists; eexists; (split; [reflexivity|]);
      (split; [exact Hd|]); (split; [discriminate | exact Hz]).
Qed.

Lemma digit_bounds (c : char) :
  is_digit c = true -> (48 <= c <= 57)%N.
Proof.
  unfold is_digit; rewrite andb_true_iff, !N.leb_le; tauto.
Qed.

Lemma number_int_digits (d : char) (ds : str) (c : char) (rest : str) :
  Forall (fun x => is_digit x = true) (d :: ds) -> is_digit c = false ->
  ((d =? ch "0")%N = true -> ds = []) ->
  number_int (d :: ds ++ c :: rest) = Some (d :: ds, c :: rest).
Proof.
  intros Hd Hc Hzero; inversion Hd as [|? ? Hd1 Hds]; subst.
  cbn [number_int]; rewrite Hd1.
  destruct (d =? ch "0")%N.
  - rewrite (Hzero eq_refl); reflexivity.
  - destruct (take_while_app is_digit (d :: ds) c rest Hd Hc) as [Ht Hr].
    cbn [app] in Ht, Hr; rewrite Ht, Hr; reflexivity.
Qed.

Lemma parse_number_decimal (n : N) (c : char) (rest : str) :
  is_digit c = false -> (c =? ch ".")%N = false ->
  (c =? ch "e")%N || (c =? ch "E")%N = false ->
  parse_number (decimal n ++ c :: rest) = Some (of_Z (Z.of_N n), c :: rest).
Proof.
  intros Hc Hp He.
  destruct (decimal_spec n) as (d & ds & -> & Hd & Hzero & Hv).
  pose proof (number_int_digits d ds c rest Hd Hc Hzero) as Hint.
  inversion Hd as [|? ? Hd1 Hds]; subst.
  pose proof (digit_bounds _ Hd1) as Hb.
  unfold parse_number, number_sign; cbn [app].
  replace (d =? ch "-")%N with false
    by (symmetry; apply N.eqb_neq; unfold ch; simpl; lia).
  rewrite Hint.
  unfold number_frac; rewrite Hp.
  unfold number_exp; rewrite He.
  rewrite app_nil_r, Hv; cbn [length Z.of_nat Z.sub Z.opp].
  rewrite decimal_value_whole; reflexivity.
Qed.

Lemma parse_value_decimal (fuel : nat) (n : N) (c : char) (rest : str) :
  is_digit c = false -> (c =? ch ".")%N = false ->
  (c =? ch "e")%N || (c =? ch "E")%N = false ->
  parse_value (S fuel) (decimal n ++ c :: rest)
  = Ok (VNum (of_Z (Z.of_N n))) (c :: rest).
Proof.
  intros Hc Hp He.
  pose proof (parse_number_decimal n c rest Hc Hp He) as H.
  destruct (decimal_spec n) as (d & ds & E & Hd & _).
  rewrite E in *.
  inversion Hd as [|? ? Hd1 _]; subst.
  pose proof (digit_bounds _ Hd1) as Hb.
  cbn [parse_value app skip_ws drop_while] in *.
  assert (Hs : is_json_space d = false).
  { unfold is_json_space.
    repeat (apply orb_false_iff; split); apply N.eqb_neq; lia. }
  rewrite Hs.
  replace (d =? ch "{")%N with false
    by (symmetry; apply N.eqb_neq; unfold ch; simpl; lia).
  replace (d =? ch "[")%N with false
    by (symmetry; apply N.eqb_neq; unfold ch; simpl; lia).
  replace (d =? dquote)%N with false
    by (symmetry; apply N.eqb_neq; unfold dquote; lia).
  cbn [starts_with lit].
  replace (d =? ch "t")%N with false
    by (symmetry; apply N.eqb_neq; unfold ch; simpl; lia).
  replace (d =? ch "f")%N with false
    by (symmetry; apply N.eqb_neq; unfold ch; simpl; lia).
  replace (d =? ch "n")%N with false
    by (symmetry; apply N.eqb_neq; unfold ch; simpl; lia).
  cbn [andb]; rewrite H; reflexivity.
Qed.

(** ** Arguments as JSON text *)

Lemma quote_app (s rest : str) :
  quote s ++ rest = dquote :: quote_body s ++ dquote :: rest.
Proof. unfold quote; simpl; rewrite <- app_assoc; reflexivity. Qed.

Lemma replace_char_absent (s : str) :
  no_backtick s = true -> replace_char (ch "`") dquote s = s.
Proof.
  unfold no_backtick, replace_char; induction s as [|c r IH]; [reflexivity|].
  cbn [forallb map]; rewrite andb_true_iff, negb_true_iff; intros [-> Hr].
  rewrite (IH Hr); reflexivity.
Qed.

Lemma no_backtick_app (a b : str) :
  no_backtick (a ++ b) = no_backtick a && no_backtick b.
Proof. apply forallb_app. Qed.

Lemma hex_char_no_backtick (d : N) : negb (hex_char d =? ch "`")%N = true.
Proof.
  apply negb_true_iff, N.eqb_neq; unfold hex_char, ch; simpl N_of_ascii.
  destruct (N.ltb_spec d 10); lia.
Qed.

Lemma unicode_escape_no_backtick (c : char) :
  no_backtick (unicode_escape c) = true.
Proof.
  unfold no_backtick, unicode_escape; cbn [forallb].
  rewrite !hex_char_no_backtick; reflexivity.
Qed.

Lemma quote_body_no_backtick (n : nat) :
  forall s, length s <= n -> no_backtick s = true ->
            no_backtick (quote_body s) = true.
Proof.
  induction n as [|n IH]; intros s Hn Hs.
  - destruct s; [reflexivity | simpl in Hn; lia].
  - destruct s as [|c r]; [reflexivity|].
    simpl in Hn.
    unfold no_backtick in Hs; cbn [forallb] in Hs.
    apply andb_true_iff in Hs as [Hc Hr]; fold (no_backtick r) in Hr.
    assert (IHr : no_backtick (quote_body r) = true) by (apply IH; [lia | exact Hr]).
    cbn [quote_body].
    repeat match goal with
           | |- no_backtick (if ?b then _ else _) = true => destruct b
           end;
      try (unfold no_backtick; cbn [forallb]; fold (no_backtick (quote_body r));
           rewrite ?Hc, IHr; reflexivity);
      try (rewrite no_backtick_app, unicode_escape_no_backtick, IHr; reflexivity).
    destruct r as [|d r'].
    + apply unicode_escape_no_backtick.
    + unfold no_backtick in Hr; cbn [forallb] in Hr.
      apply andb_true_iff in Hr as [Hd Hr']; fold (no_backtick r') in Hr'.
      destruct (is_low_surrogate d).
      * unfold no_backtick; cbn [forallb]; fold (no_backtick (quote_body r')).
        rewrite Hc, Hd; apply IH; [simpl in Hn; lia | exact Hr'].
      * rewrite no_backtick_app, unicode_escape_no_backtick, IHr; reflexivity.
Qed.

Lemma decimal_no_backtick (n : N) : no_backtick (decimal n) = true.
Proof.
  destruct (decimal_spec n) as (c & ds & -> & Hd & _).
  unfold no_backtick; apply forallb_forall; intros x Hx.
  rewrite Forall_forall in Hd; pose proof (digit_bounds _ (Hd x Hx)).
  apply negb_true_iff, N.eqb_neq; unfold ch; simpl N_of_ascii; lia.
Qed.

Lemma json_arguments_no_backtick (k : str) (n : N) (b : bool) :
  no_backtick k = true -> no_backtick (json_arguments k n b) = true.
Proof.
  intros Hk; unfold json_arguments; rewrite !quote_app.
  assert (Hcons : forall c s, no_backtick (c :: s)
                              = negb (c =? ch "`")%N && no_backtick s)
    by reflexivity.
  repeat (rewrite no_backtick_app || rewrite Hcons).
  rewrite decimal_no_backtick.
  rewrite (quote_body_no_backtick (length k) k (le_n _) Hk).
  destruct b; reflexivity.
Qed.

Lemma parse_object_open (fuel : nat) (r : str) (c : char) (r' : str) :
  skip_ws r = c :: r' -> (c =? ch "}")%N = false ->
  parse_value (S fuel) (ch "{" :: r) = parse_members fuel (skip_ws r) [].
Proof.
  intros Hr Hc; cbn [parse_value].
  change (skip_ws (ch "{" :: r)) with (ch "{" :: r); cbv iota.
  change (ch "{" =? ch "{")%N with true; cbv iota.
  rewrite Hr, Hc; reflexivity.
Qed.

Lemma parse_members_more (fuel : nat) (s s1 key rest1 r1 : str) (v : value)
  (rest2 r2 : str) (acc : list (str * value)) :
  skip_ws s = dquote :: s1 -> parse_string s1 = Some (key, rest1) ->
  skip_ws rest1 = ch ":" :: r1 -> parse_value fuel r1 = Ok v rest2 ->
  skip_ws rest2 = ch "," :: r2 ->
  parse_members (S fuel) s acc = parse_members fuel r2 (set_field key v acc).
Proof.
  intros H1 H2 H3 H4 H5; cbn [parse_members].
  rewrite H1, N.eqb_refl, H2, H3, N.eqb_refl, H4, H5, N.eqb_refl; reflexivity.
Qed.

Lemma parse_members_last (fuel : nat) (s s1 key rest1 r1 : str) (v : value)
  (rest2 r2 : str) (acc : list (str * value)) :
  skip_ws s = dquote :: s1 -> parse_string s1 = Some (key, rest1) ->
  skip_ws rest1 = ch ":" :: r1 -> parse_value fuel r1 = Ok v rest2 ->
  skip_ws rest2 = ch "}" :: r2 ->
  parse_members (S fuel) s acc = Ok (VObj (set_field key v acc)) r2.
Proof.
  intros H1 H2 H3 H4 H5; cbn [parse_members].
  rewrite H1, N.eqb_refl, H2, H3, N.eqb_refl, H4, H5.
  change (ch "}" =? ch ",")%N with false; cbv iota.
  rewrite N.eqb_refl; reflexivity.
Qed.

Lemma parse_value_quoted (fuel : nat) (s rest : str) :
  parse_value (S fuel) (dquote :: quote_body s ++ dquote :: rest)
  = Ok (VStr s) rest.
Proof.
  cbn [parse_value].
  change (skip_ws (dquote :: quote_body s ++ dquote :: rest))
    with (dquote :: quote_body s ++ dquote :: rest); cbv iota.
  change (dquote =? ch "{")%N with false.
  change (dquote =? ch "[")%N with false.
  change (dquote =? dquote)%N with true; cbv iota.
  rewrite parse_quoted; reflexivity.
Qed.

Lemma json_arguments_parse (k : str) (n : N) (b : bool) :
  JSON_parse (json_arguments k n b) = Some (mapping_arguments k n b).
Proof.
  apply (JSON_parse_intro 5 _ _ []); [|reflexivity].
  unfold json_arguments; rewrite !quote_app; cbn [lit app].
  destruct b.
  all: erewrite parse_object_open; [|reflexivity|reflexivity].
  all: erewrite parse_members_more;
    [|reflexivity|apply parse_quoted|reflexivity
     |apply parse_value_quoted|reflexivity].
  all: erewrite parse_members_more;
    [|reflexivity|apply parse_quoted|reflexivity
     |apply parse_value_decimal; reflexivity|reflexivity].
  all: erewrite parse_members_last;
    [|reflexivity|apply parse_quoted|reflexivity|reflexivity|reflexivity].
  all: reflexivity.
Qed.

(** X13.  Arguments sent as JSON text are read like the same arguments
    sent as a mapping: for a keyword without backticks, a whole limit
    [n] and a headless flag, the text with the numeral of [n] and the
    mapping with the Number value for [n] normalize to the same query,
    which is the trimmed keyword (or the default when it is blank), the
    Number value for [n], the binary64 value nearest to it (or 10 when
    [n] is 0), and the flag; the handler then answers both alike. *)
Theorem json_text_as_mapping (k : str) (n : N) (b : bool) :
  no_backtick k = true ->
  normalize (VStr (json_arguments k n b))
  = Normal (mkQuery (match trim k with
                     | [] => DEFAULT_SEARCH_KEYWORD
                     | _ :: _ => trim k
                     end)
                    (if (n =? 0)%N then DEFAULT_SEARCH_LIMIT else of_Z (Z.of_N n))
                    b)
  /\ normalize (VStr (json_arguments k n b)) = normalize (mapping_arguments k n b)
  /\ forall scraper,
       handlePinterestSearch scraper (VStr (json_arguments k n b))
       = handlePinterestSearch scraper (mapping_arguments k n b).
Proof.
  intros Hk.
  assert (Hmap : normalize (mapping_arguments k n b)
                 = Normal (mkQuery (match trim k with
                                    | [] => DEFAULT_SEARCH_KEYWORD
                                    | _ :: _ => trim k
                                    end)
                                   (if (n =? 0)%N then DEFAULT_SEARCH_LIMIT
                                    else of_Z (Z.of_N n))
                                   b)).
  { unfold normalize, mapping_arguments; rewrite extract_object.
    change (object_keyword _ []) with (@Normal str (trim k)).
    change (object_limit _ DEFAULT_SEARCH_LIMIT)
      with (@Normal number (of_Z (Z.of_N n))).
    cbn [bind]; unfold apply_defaults; cbn [keyword limit headless].
    f_equal; f_equal.
    - destruct (trim k); reflexivity.
    - rewrite of_N_invalid; reflexivity. }
  assert (Htext : normalize (VStr (json_arguments k n b))
                  = normalize (mapping_arguments k n b)).
  { rewrite Hmap.
    unfold normalize, extract; cbn [replace_backticks].
    rewrite (replace_char_absent _ (json_arguments_no_backtick k n b Hk)).
    change (truthy (VStr (json_arguments k n b))) with true; cbv iota.
    unfold parse_with_repair; rewrite json_arguments_parse.
    cbn [bind]; unfold parsed_fields, mapping_arguments.
    change (truthy (VObj _)) with true; cbv iota.
    change (get _ (lit "keyword")) with (VStr k).
    change (get _ (lit "limit")) with (VNum (of_Z (Z.of_N n))).
    change (get _ (lit "headless")) with (VBool b).
    unfold apply_defaults; cbn [keyword limit headless].
    f_equal; f_equal.
    - destruct k as [|c r]; [reflexivity|].
      cbn [truthy]; destruct (trim (c :: r)); reflexivity.
    - rewrite of_N_invalid; reflexivity. }
  split; [rewrite Htext; exact Hmap|split; [exact Htext|]].
  intros scraper; unfold handlePinterestSearch; rewrite Htext; reflexivity.
Qed.

Lemma json_text_as_mapping_witness :
  normalize (VStr (json_arguments (lit " red fox ") 3 false))
  = Normal (mkQuery (lit "red fox") (of_Z 3) false).
Proof.
  apply (proj1 (json_text_as_mapping (lit " red fox ") 3 false eq_refl)).
Defined.

(** A backtick in the keyword breaks the agreement: in the text it is
    read as the quote that ends the keyword. *)
Example json_text_with_backtick :
  normalize (VStr (json_arguments (lit "a`b") 3 false))
  <> normalize (mapping_arguments (lit "a`b") 3 false).
Proof. vm_compute; discriminate. Qed.

(** ** Arguments as loose text *)

Lemma JSON_parse_fail (fuel : nat) (s : str) :
  parse_value fuel s = Bad -> JSON_parse s = None.
Proof.
  intros H; unfold JSON_parse.
  destruct (parse_fuel_stable fuel) as (Sv & _ & _).
  destruct (parse_fuel_stable (2 * length s + 1)) as (Sv' & _ & _).
  pose proof (JSON_parse_total s) as Ht.
  assert (E : parse_value (2 * length s + 1) s = Bad).
  { rewrite <- (Sv' s (Nat.max fuel (2 * length s + 1)) Ht (Nat.le_max_r _ _)).
    rewrite (Sv s (Nat.max fuel (2 * length s + 1)));
      [exact H | rewrite H; discriminate | apply Nat.le_max_l]. }
  rewrite E; reflexivity.
Qed.

Lemma plain_keyword_cons (c : char) (s : str) :
  plain_keyword (c :: s) = true ->
  is_quote c = false /\ (c =? ch "\")%N = false /\ (c =? ch ":")%N = false
  /\ (c <? 32)%N = false /\ plain_keyword s = true.
Proof.
  unfold plain_keyword; cbn [forallb].
  rewrite !andb_true_iff, !negb_true_iff; tauto.
Qed.

Lemma quote_keys_plain (k : str) :
  forall w c rest,
    plain_keyword k = true -> is_word c = false -> (c =? ch ":")%N = false ->
    quote_keys (k ++ c :: rest) w = rev w ++ k ++ c :: quote_keys rest [].
Proof.
  induction k as [|x k IH]; intros w c rest Hk Hc Hcolon; cbn [app quote_keys].
  - rewrite Hc, Hcolon; destruct w; reflexivity.
  - apply plain_keyword_cons in Hk as (_ & _ & Hx & _ & Hk).
    destruct (is_word x).
    + rewrite (IH (x :: w) c rest Hk Hc Hcolon); cbn [rev].
      rewrite <- app_assoc; reflexivity.
    + rewrite Hx, (IH [] c rest Hk Hc Hcolon).
      destruct w; reflexivity.
Qed.

Lemma parse_string_plain_keyword (k rest : str) :
  plain_keyword k = true ->
  parse_string (k ++ dquote :: rest) = Some (k, rest).
Proof.
  induction k as [|x k IH]; intros Hk.
  - cbn [app parse_string]; rewrite N.eqb_refl; reflexivity.
  - apply plain_keyword_cons in Hk as (Hq & Hb & _ & Hl & Hk).
    cbn [app]; apply parse_string_plain; try assumption; [|exact (IH Hk)].
    unfold is_quote in Hq; apply orb_false_iff in Hq as [Hq _].
    apply orb_false_iff in Hq as [Hq _]; exact Hq.
Qed.

Lemma replace_quote_plain (k : str) :
  plain_keyword k = true ->
  replace_char (ch "'") dquote k = k /\ no_backtick k = true.
Proof.
  induction k as [|x k IH]; intros Hk; [split; reflexivity|].
  apply plain_keyword_cons in Hk as (Hq & _ & _ & _ & Hk).
  destruct (IH Hk) as [IH1 IH2].
  unfold is_quote in Hq; apply orb_false_iff in Hq as [Hq Hs].
  apply orb_false_iff in Hq as [_ Hb].
  unfold replace_char, no_backtick in *; cbn [map forallb].
  rewrite Hs, Hb, IH1, IH2; split; reflexivity.
Qed.

Lemma decimal_plain (n : N) : plain_keyword (decimal n) = true.
Proof.
  destruct (decimal_spec n) as (c & ds & -> & Hd & _).
  unfold plain_keyword; apply forallb_forall; intros x Hx.
  rewrite Forall_forall in Hd; pose proof (digit_bounds _ (Hd x Hx)).
  unfold is_quote, dquote, ch; simpl N_of_ascii.
  repeat (apply andb_true_iff; split); apply negb_true_iff;
    repeat (apply orb_false_iff; split);
    try (apply N.eqb_neq; lia); apply N.ltb_ge; lia.
Qed.

Lemma quote_keys_other (c : char) (rest : str) :
  is_word c = false -> quote_keys (c :: rest) [] = c :: quote_keys rest [].
Proof. intros H; cbn [quote_keys]; rewrite H; reflexivity. Qed.

Lemma quote_keys_key (w : str) :
  forall acc rest,
    Forall (fun c => is_word c = true) w -> (w <> [] \/ acc <> []) ->
    quote_keys (w ++ ch ":" :: rest) acc
    = dquote :: rev acc ++ w ++ dquote :: ch ":" :: quote_keys rest [].
Proof.
  induction w as [|x w IH]; intros acc rest Hw Hne; cbn [app quote_keys].
  - change (is_word (ch ":")) with false; cbv iota.
    destruct acc as [|a acc]; [destruct Hne; congruence|].
    change (ch ":" =? ch ":")%N with true; reflexivity.
  - inversion Hw as [|? ? Hx Hw']; subst; rewrite Hx.
    rewrite (IH (x :: acc) rest Hw') by (right; discriminate).
    cbn [rev]; rewrite <- List.app_assoc; reflexivity.
Qed.

Lemma fixedJson_loose (k : str) (n : N) :
  plain_keyword k = true ->
  fixedJson (loose_arguments k n)
  = lit "{" ++ dquote :: lit "keyword" ++ dquote :: lit ": " ++ dquote :: k
      ++ dquote :: lit ", " ++ dquote :: lit "limit" ++ dquote :: lit ": "
      ++ decimal n ++ lit "}".
Proof.
  intros Hk; unfold fixedJson, loose_arguments, replace_char.
  rewrite !map_app.
  destruct (replace_quote_plain k Hk) as [Rk _].
  destruct (replace_quote_plain (decimal n) (decimal_plain n)) as [Rn _].
  change (map (fun x : N => if (x =? ch "'")%N then dquote else x) k)
    with (replace_char (ch "'") dquote k).
  change (map (fun x : N => if (x =? ch "'")%N then dquote else x) (decimal n))
    with (replace_char (ch "'") dquote (decimal n)).
  rewrite Rk, Rn.
  change (map (fun x : N => if (x =? ch "'")%N then dquote else x)
              (lit "{keyword: '"))
    with (ch "{" :: lit "keyword" ++ ch ":" :: ch " " :: [dquote]).
  change (map (fun x : N => if (x =? ch "'")%N then dquote else x)
              (lit "', limit: "))
    with (dquote :: ch "," :: ch " " :: lit "limit" ++ ch ":" :: [ch " "]).
  change (map (fun x : N => if (x =? ch "'")%N then dquote else x) (lit "}"))
    with [ch "}"].
  replace ((ch "{" :: lit "keyword" ++ ch ":" :: ch " " :: [dquote]) ++
           k ++
           (dquote :: ch "," :: ch " " :: lit "limit" ++ ch ":" :: [ch " "]) ++
           decimal n ++ [ch "}"])
    with (ch "{" :: lit "keyword" ++ ch ":" :: ch " " :: dquote :: k ++
          dquote :: ch "," :: ch " " :: lit "limit" ++ ch ":" :: ch " " ::
          decimal n ++ ch "}" :: [])
    by (cbn [app]; rewrite <- !List.app_assoc; cbn [app];
        rewrite <- ?List.app_assoc; reflexivity).
  rewrite quote_keys_other by reflexivity.
  rewrite (quote_keys_key (lit "keyword"))
    by first [left; cbv; discriminate | repeat constructor].
  rewrite quote_keys_other by reflexivity.
  rewrite quote_keys_other by reflexivity.
  rewrite (quote_keys_plain k [] dquote _ Hk eq_refl eq_refl).
  rewrite quote_keys_other by reflexivity.
  rewrite quote_keys_other by reflexivity.
  rewrite (quote_keys_key (lit "limit"))
    by first [left; cbv; discriminate | repeat constructor].
  rewrite quote_keys_other by reflexivity.
  rewrite (quote_keys_plain (decimal n) [] (ch "}") [] (decimal_plain n)
             eq_refl eq_refl).
  reflexivity.
Qed.

Lemma parse_value_string (fuel : nat) (s x t rest : str) :
  skip_ws s = dquote :: x -> parse_string x = Some (t, rest) ->
  parse_value (S fuel) s = Ok (VStr t) rest.
Proof.
  intros Hs Hx; cbn [parse_value]; rewrite Hs.
  change (dquote =? ch "{")%N with false.
  change (dquote =? ch "[")%N with false.
  change (dquote =? dquote)%N with true; cbv iota.
  rewrite Hx; reflexivity.
Qed.

Lemma parse_value_space (fuel : nat) (s : str) :
  parse_value (S fuel) (ch " " :: s) = parse_value (S fuel) s.
Proof. reflexivity. Qed.

Lemma loose_arguments_repaired (k : str) (n : N) :
  plain_keyword k = true ->
  JSON_parse (fixedJson (loose_arguments k n))
  = Some (VObj [(lit "keyword", VStr k); (lit "limit", VNum (of_Z (Z.of_N n)))]).
Proof.
  intros Hk; rewrite (fixedJson_loose k n Hk).
  apply (JSON_parse_intro 4 _ _ []); [|reflexivity].
  cbn [lit app].
  erewrite parse_object_open; [|reflexivity|reflexivity].
  erewrite parse_members_more;
    [|reflexivity|reflexivity|reflexivity
     |eapply parse_value_string;
      [reflexivity|apply parse_string_plain_keyword; exact Hk]
     |reflexivity].
  erewrite parse_members_last;
    [|reflexivity|reflexivity|reflexivity
     |rewrite parse_value_space; apply parse_value_decimal; reflexivity
     |reflexivity].
  reflexivity.
Qed.

(** X14.  The repair of loose text does its work: arguments written
    with bare keys and single quotes are no JSON, yet for every keyword
    free of quotes, backslashes, colons and control characters and every
    whole limit [n] they normalize to the trimmed keyword (or the
    default when it is blank), the Number value for [n], the binary64
    value nearest to it (or 10 when [n] is 0), and the default headless
    flag. *)
Theorem loose_text_is_repaired (k : str) (n : N) :
  plain_keyword k = true ->
  JSON_parse (loose_arguments k n) = None
  /\ normalize (VStr (loose_arguments k n))
     = Normal (mkQuery (match trim k with
                        | [] => DEFAULT_SEARCH_KEYWORD
                        | _ :: _ => trim k
                        end)
                       (if (n =? 0)%N then DEFAULT_SEARCH_LIMIT
                        else of_Z (Z.of_N n))
                       DEFAULT_HEADLESS_MODE).
Proof.
  intros Hk.
  assert (Hbad : JSON_parse (loose_arguments k n) = None)
    by (apply (JSON_parse_fail 2); reflexivity).
  split; [exact Hbad|].
  assert (Hnb : no_backtick (loose_arguments k n) = true).
  { unfold loose_arguments; rewrite !no_backtick_app.
    destruct (replace_quote_plain k Hk) as [_ ->].
    rewrite decimal_no_backtick; reflexivity. }
  unfold normalize, extract; cbn [replace_backticks].
  rewrite (replace_char_absent _ Hnb).
  change (truthy (VStr (loose_arguments k n))) with true; cbv iota.
  unfold parse_with_repair; rewrite Hbad, (loose_arguments_repaired k n Hk).
  cbn [bind]; unfold parsed_fields.
  change (truthy (VObj _)) with true; cbv iota.
  change (get _ (lit "keyword")) with (VStr k).
  change (get _ (lit "limit")) with (VNum (of_Z (Z.of_N n))).
  change (get _ (lit "headless")) with VUndefined.
  unfold apply_defaults; cbn [keyword limit headless].
  f_equal; f_equal.
  - destruct k as [|c r]; [reflexivity|].
    cbn [truthy]; destruct (trim (c :: r)); reflexivity.
  - rewrite of_N_invalid; reflexivity.
Qed.

Lemma loose_text_is_repaired_witness :
  JSON_parse (loose_arguments (lit " red fox ") 5) = None
  /\ normalize (VStr (loose_arguments (lit " red fox ") 5))
     = Normal (mkQuery (lit "red fox") (of_Z 5) true).
Proof.
  apply (loose_text_is_repaired (lit " red fox ") 5 eq_refl).
Defined.

(** ** The tool list and the defaults *)

(** X15.  The defaults the tool list declares for the limit and the
    headless flag of the search tool are the values a search runs with
    when the mapping carries neither field. *)
Theorem declared_defaults_are_applied (fields : list (str * value)) (q : Query) :
  lookup (lit "limit") fields = None ->
  lookup (backtick (lit "limit")) fields = None ->
  lookup (lit "headless") fields = None ->
  lookup (backtick (lit "headless")) fields = None ->
  normalize (VObj fields) = Normal q ->
  declared_default (lit "pinterest_search") (lit "limit") = Some (VNum (limit q))
  /\ declared_default (lit "pinterest_search") (lit "headless")
     = Some (VBool (headless q)).
Proof.
  intros Hl Hbl Hh Hbh H.
  destruct (normalize_inv _ _ H) as (q0 & H0 & ->).
  destruct (extract_object_inv _ _ H0) as (_ & Hlim & Hhead).
  rewrite object_limit_none in Hlim
    by (unfold has_property; cbn [properties]; rewrite ?Hl, ?Hbl; reflexivity).
  injection Hlim as Hlim.
  unfold object_headless, has_property, get in Hhead; cbn [properties] in Hhead.
  rewrite Hh, Hbh in Hhead.
  unfold apply_defaults; cbn [limit headless].
  rewrite <- Hlim, <- Hhead; split; reflexivity.
Qed.

Lemma declared_defaults_are_applied_witness :
  declared_default (lit "pinterest_search") (lit "limit")
  = Some (VNum (limit (mkQuery (lit "cat") (of_Z 10) true)))
  /\ declared_default (lit "pinterest_search") (lit "headless")
     = Some (VBool (headless (mkQuery (lit "cat") (of_Z 10) true))).
Proof.
  apply (declared_defaults_are_applied [(lit "keyword", VStr (lit "cat"))]);
    reflexivity.
Defined.

(** ** Normalizing twice *)

Lemma drop_while_id (f : char -> bool) (s : str) :
  (forall c, hd_error s = Some c -> f c = false) -> drop_while f s = s.
Proof.
  destruct s as [|c r]; [reflexivity|]; intros H; cbn [drop_while].
  rewrite (H c eq_refl); reflexivity.
Qed.

Lemma trim_trimmed_id (s : str) : trimmed s -> trim s = s.
Proof.
  intros [H1 H2]; unfold trim.
  rewrite (drop_while_id _ s H1), (drop_while_id _ (rev s) H2).
  apply rev_involutive.
Qed.

(** X16.  A normalized query is a fixed point: handed back as a mapping,
    the query the normalizer returned for any argument normalizes to
    itself. *)
Theorem normalize_is_idempotent (raw : value) (q : Query) :
  normalize raw = Normal q ->
  normalize (query_arguments q) = Normal q.
Proof.
  intros H.
  assert (Hshape : keyword q <> [] /\ trimmed (keyword q)).
  { destruct (normalize_inv _ _ H) as (q0 & H0 & ->).
    apply apply_defaults_keyword_shape; exact (extract_trimmed _ _ H0). }
  destruct Hshape as [Hne Ht].
  assert (Hpos : positive (limit q) = true).
  { destruct (normalize_inv _ _ H) as (q0 & _ & ->).
    apply apply_defaults_positive. }
  unfold normalize, query_arguments; rewrite extract_object.
  change (object_keyword _ []) with (@Normal str (trim (keyword q))).
  change (object_limit _ DEFAULT_SEARCH_LIMIT) with (@Normal number (limit q)).
  cbn [bind]; unfold apply_defaults; cbn [keyword limit headless].
  change (object_headless _ DEFAULT_HEADLESS_MODE) with (headless q).
  rewrite (trim_trimmed_id _ Ht).
  destruct q as [k l h]; cbn [keyword limit headless] in *.
  f_equal; f_equal.
  - destruct k; [congruence | reflexivity].
  - destruct l as [|negative|m e]; try discriminate Hpos.
    + destruct negative; [discriminate Hpos | reflexivity].
    + cbn [positive] in Hpos; apply Z.ltb_lt in Hpos.
      cbn [isNaN le_zero orb].
      destruct (Z.leb_spec m 0); [lia | reflexivity].
Qed.

Lemma normalize_is_idempotent_witness :
  normalize (query_arguments
               (mkQuery (lit "red fox") (decimal_value false 25 (-1)) false))
  = Normal (mkQuery (lit "red fox") (decimal_value false 25 (-1)) false).
Proof.
  apply (normalize_is_idempotent
           (VStr (lit "{keyword: ' red fox ', limit: 2.5, headless: false}"))).
  reflexivity.
Defined.

(** ** A limit written as text *)

Lemma digit_not_space (c : char) : is_digit c = true -> is_space c = false.
Proof.
  intros H; pose proof (digit_bounds _ H); unfold is_space.
  repeat (apply orb_false_iff; split);
    try (apply andb_false_iff; left; apply N.leb_gt; lia);
    try (apply andb_false_iff; right; apply N.leb_gt; lia);
    apply N.eqb_neq; lia.
Qed.

Lemma parse_digits_decimal (s : str) :
  Forall (fun c => is_digit c = true) s ->
  forall a,
    parse_digits 10 s (Some a)
    = Some (Z.to_N (fold_left (fun x c => (x * 10 + Z.of_N (c - 48))%Z) s
                              (Z.of_N a))).
Proof.
  induction 1 as [|c r Hc Hr IH]; intros a; cbn [parse_digits fold_left].
  - rewrite N2Z.id; reflexivity.
  - pose proof (digit_bounds _ Hc).
    unfold digit_value; rewrite Hc.
    replace (c - 48 <? 10)%N with true by (symmetry; apply N.ltb_lt; lia).
    rewrite IH; do 3 f_equal; lia.
Qed.

Lemma parseInt_decimal (n : N) (radix : option N) :
  radix = None \/ radix = Some 10%N ->
  parseInt (decimal n) radix = of_Z (Z.of_N n).
Proof.
  intros Hr.
  destruct (decimal_spec n) as (c & ds & -> & Hd & Hzero & Hv).
  inversion Hd as [|? ? Hc Hds]; subst.
  pose proof (digit_bounds _ Hc) as Hb.
  unfold parseInt; cbn [drop_while]; rewrite (digit_not_space _ Hc).
  replace (c =? ch "-")%N with false
    by (symmetry; apply N.eqb_neq; unfold ch; simpl; lia).
  replace (c =? ch "+")%N with false
    by (symmetry; apply N.eqb_neq; unfold ch; simpl; lia).
  assert (Hx : starts_with (c :: ds) (lit "0x") || starts_with (c :: ds) (lit "0X")
               = false).
  { cbn [starts_with lit].
    destruct (c =? ch "0")%N eqn:E0; [|reflexivity].
    rewrite (Hzero eq_refl); reflexivity. }
  assert (Hp : parse_digits 10 (c :: ds) None = Some n).
  { cbn [parse_digits]; unfold digit_value; rewrite Hc.
    replace (c - 48 <? 10)%N with true by (symmetry; apply N.ltb_lt; lia).
    rewrite (parse_digits_decimal ds Hds); f_equal.
    unfold digits_to_Z in Hv; cbn [fold_left] in Hv.
    replace (Z.of_N (c - 48)) with (0 * 10 + Z.of_N (c - 48))%Z by lia.
    rewrite Hv; apply N2Z.id. }
  destruct Hr as [-> | ->]; cbn -[starts_with parse_digits lit];
    rewrite ?Hx; cbn -[starts_with parse_digits lit]; rewrite Hp; reflexivity.
Qed.

(** X17.  A limit written as the decimal text of a whole number counts
    as that number: under the plain key, the text of [n] gives the
    default 10 when [n] is 0 and otherwise the Number value for [n], the
    binary64 value nearest to it, whatever the backtick-wrapped key
    holds.  Up to [2^53] that value is [n] itself; a greater one may be
    rounded, and from 310 digits on it is the positive infinity. *)
Theorem text_limit_is_read (fields : list (str * value)) (n : N) (q : Query) :
  lookup (lit "limit") fields = Some (VStr (decimal n)) ->
  normalize (VObj fields) = Normal q ->
  limit q = (if (n =? 0)%N then DEFAULT_SEARCH_LIMIT else of_Z (Z.of_N n))
  /\ (n <> 0%N -> (n <= 2 ^ 53)%N -> is_exactly (limit q) (Z.of_N n) = true).
Proof.
  intros Hl H.
  assert (Hq : limit q = if (n =? 0)%N then DEFAULT_SEARCH_LIMIT
                         else of_Z (Z.of_N n));
    [|split; [exact Hq|];
      intros Hn Hb; rewrite Hq; destruct (N.eqb_spec n 0); [contradiction|];
      apply of_Z_exact; change (2 ^ 53)%Z with (Z.of_N (2 ^ 53)); lia].
  destruct (normalize_inv _ _ H) as (q0 & H0 & ->).
  destruct (extract_object_inv _ _ H0) as (_ & Hlim & _).
  unfold object_limit, has_property, get in Hlim; cbn [properties] in Hlim.
  rewrite Hl in Hlim; cbn [is_numeric number_or_parse ToString bind] in Hlim.
  rewrite !parseInt_decimal in Hlim by tauto.
  rewrite of_Z_not_NaN in Hlim; cbn [negb] in Hlim; injection Hlim as Hlim.
  unfold apply_defaults; cbn [limit]; rewrite <- Hlim.
  rewrite of_N_invalid; reflexivity.
Qed.

Lemma text_limit_is_read_witness :
  limit (mkQuery (lit "landscape") (of_Z 25) true)
  = (if (25 =? 0)%N then DEFAULT_SEARCH_LIMIT else of_Z (Z.of_N 25))
  /\ (25%N <> 0%N -> (25 <= 2 ^ 53)%N ->
      is_exactly (limit (mkQuery (lit "landscape") (of_Z 25) true)) (Z.of_N 25)
      = true).
Proof.
  apply (text_limit_is_read
           [(lit "limit", VStr (decimal 25)); (backtick (lit "limit"), VNum (of_Z 3))]
           25);
    reflexivity.
Defined.

(** ** The inputs that get the default keyword *)

(** X18.  The handler reads no keyword exactly from the inputs without a
    usable keyword: whenever it gets as far as the defaults, the keyword
    it has read is empty if and only if the input is absent or a number
    or boolean, a mapping without a keyword text and without the
    backtick-wrapped field, a mapping whose keyword under either
    spelling is blank, a parsed text without a keyword text or with a
    blank one, or an unparseable text in which the keyword expression
    finds nothing or a blank text. *)
Theorem keyword_read_or_not (raw : value) (q0 : Query) :
  extract raw = Normal q0 ->
  (keyword q0 = [] <-> no_usable_keyword raw).
Proof.
  intros H0; split.
  - apply no_usable_keyword_complete; exact H0.
  - intros Hraw; apply (no_usable_keyword_extract raw q0 Hraw H0).
Qed.

Lemma keyword_read_or_not_witness :
  no_usable_keyword (VStr (lit "{'keyword': 42}"))
  /\ ~ no_usable_keyword (VStr (lit "{'keyword': 'cat'}")).
Proof.
  split.
  - apply (proj1 (keyword_read_or_not (VStr (lit "{'keyword': 42}"))
                    (mkQuery [] DEFAULT_SEARCH_LIMIT true) eq_refl)).
    reflexivity.
  - intros H.
    apply (proj2 (keyword_read_or_not (VStr (lit "{'keyword': 'cat'}"))
                    (mkQuery (lit "cat") DEFAULT_SEARCH_LIMIT true) eq_refl)) in H.
    discriminate H.
Defined.
